(** * RediSearch low-level C API ([src/redisearch_api.c])

    A shallow embedding of the query-node builder API, of the compilation of
    a node tree into a result iterator, of the key traversal over a result
    iterator, of document submission and removal, of field registration and
    of the registration of the API itself, followed by the properties of
    the specification that concern them and by further properties of the
    code.

    The C heap is a finite map from addresses to blocks; every API function
    is a function on that heap.  An [assert] that fails, an access outside
    the C semantics (dangling pointer, inactive union member, double free)
    and an exhausted recursion budget are three distinct outcomes. *)

From Stdlib Require Import PrimFloat ZArith NArith Sorted.
From stdpp Require Import gmap strings list fin_maps.

Local Open Scope N_scope.

(** ** Outcomes of a C call *)

Inductive outcome (A : Type) : Type :=
| Ok (a : A)      (* the call returns *)
| AssertFail      (* an [assert] aborted the process *)
| Undefined       (* the call left the defined C semantics *)
| OutOfFuel.      (* the recursion budget of the model ran out *)
Arguments Ok {A} a.
Arguments AssertFail {A}.
Arguments Undefined {A}.
Arguments OutOfFuel {A}.

#[global] Instance outcome_ret : MRet outcome := λ A a, Ok a.
#[global] Instance outcome_bind : MBind outcome := λ A B f m,
  match m with
  | Ok a => f a
  | AssertFail => AssertFail
  | Undefined => Undefined
  | OutOfFuel => OutOfFuel
  end.

(** [assert(c)] of <assert.h>. *)
Definition assert (c : bool) : outcome unit :=
  if c then Ok tt else AssertFail.

(** Runs [f] over [l] from left to right, threading the state. *)
Fixpoint foldM {A S : Type} (f : S → A → outcome S) (l : list A) (s : S) : outcome S :=
  match l with
  | [] => Ok s
  | a :: l' => s' ← f s a; foldM f l' s'
  end.

(** ** Data model *)

(** Pointers are addresses in [N]; an [int] or a [uint32_t] set of flags is
    in [Z]; a [double] is a binary64 float.  A [size_t] that is a string
    length, a child count or an index is a natural number: no operation of
    the file can wrap one.  The document counter, which a decrement can
    wrap, is a 64-bit value in [N]. *)

(** Addresses; [NULL] is address 0. *)
Definition addr : Type := N.
Definition NULL : addr := 0.

(** [t_docId]: internal document identifier, 0 meaning "no document". *)
Definition t_docId : Type := N.
(** [t_fieldMask]: bit i set means "applies to field i". *)
Definition t_fieldMask : Type := N.

(** The node variants this file builds (query_node.h). *)
Inductive QueryNodeType : Set :=
| QN_PHRASE | QN_UNION | QN_TOKEN | QN_NUMERIC | QN_PREFX | QN_TAG | QN_LEXRANGE.

#[global] Instance QueryNodeType_eq_dec : EqDecision QueryNodeType.
Proof. solve_decision. Defined.

(** [QueryTokenNode]; [QueryPrefixNode] has the same four fields. *)
Record QueryTokenNode : Type := mkToken {
  tn_str : addr;        (* char *str *)
  tn_len : nat;         (* size_t len *)
  tn_expanded : Z;
  tn_flags : Z
}.
Definition QueryPrefixNode : Type := QueryTokenNode.

(** [NumericFilter] (numeric_filter.h). *)
Record NumericFilter : Type := mkNumericFilter {
  nf_fieldName : addr;
  nf_min : float;
  nf_max : float;
  inclusiveMin : Z;
  inclusiveMax : Z
}.

Record QueryLexRangeNode : Type := mkLexRange {
  lx_begin : addr;
  lx_end : addr
}.

(** The three containers.  [children] is the malloc'ed array of child
    pointers ([[]] for a NULL array) and [numChildren] the count the code
    keeps beside it: the children of a node are the first [numChildren]
    cells of the array. *)
Record QueryTagNode : Type := mkTag {
  tag_fieldName : addr;
  tag_len : nat;
  tag_numChildren : nat;
  tag_children : list addr
}.

Record QueryPhraseNode : Type := mkPhrase {
  pn_children : list addr;
  pn_numChildren : nat;
  pn_exact : Z
}.

Record QueryUnionNode : Type := mkUnion {
  un_children : list addr;
  un_numChildren : nat
}.

(** The anonymous union of per-variant payloads of [struct RSQueryNode];
    the constructor in use is the node's type tag.  The numeric filter,
    which the node alone points to, is held by value. *)
Inductive QueryNodePayload : Type :=
| pn (p : QueryPhraseNode)
| un (u : QueryUnionNode)
| tn (t : QueryTokenNode)
| nn (nf : NumericFilter)
| pfx (t : QueryPrefixNode)
| tag (t : QueryTagNode)
| lxrng (r : QueryLexRangeNode).

Record QueryNodeOptions : Type := mkOpts {
  fieldMask : t_fieldMask
}.

Record QueryNode : Type := mkQueryNode {
  payload : QueryNodePayload;
  opts : QueryNodeOptions
}.

(** [qn->type]. *)
Definition type (n : QueryNode) : QueryNodeType :=
  match payload n with
  | pn _ => QN_PHRASE
  | un _ => QN_UNION
  | tn _ => QN_TOKEN
  | nn _ => QN_NUMERIC
  | pfx _ => QN_PREFX
  | tag _ => QN_TAG
  | lxrng _ => QN_LEXRANGE
  end.

Definition set_payload (n : QueryNode) (u : QueryNodePayload) : QueryNode :=
  {| payload := u; opts := opts n |}.
Definition set_fieldMask (n : QueryNode) (m : t_fieldMask) : QueryNode :=
  {| payload := payload n; opts := {| fieldMask := m |} |}.

(** ** The heap *)

(** A live block is a query node or a NUL-terminated string. *)
Inductive block : Type :=
| BNode (n : QueryNode)
| BStr (s : string).

Abbreviation heap := (gmap addr block).

(** [malloc]: some address that is neither NULL nor live. *)
Definition malloc (h : heap) (b : block) : heap * addr :=
  let p := fresh ({[NULL]} ∪ dom h) in (<[p := b]> h, p).

(** [free]: nothing happens for NULL; any other pointer must be live. *)
Definition free (h : heap) (p : addr) : outcome heap :=
  if decide (p = NULL) then Ok h
  else match h !! p with
       | Some _ => Ok (delete p h)
       | None => Undefined
       end.

(** [*qn] for a [QueryNode *qn]. *)
Definition load_node (h : heap) (p : addr) : outcome QueryNode :=
  match h !! p with
  | Some (BNode n) => Ok n
  | _ => Undefined
  end.

Definition store_node (h : heap) (p : addr) (n : QueryNode) : heap :=
  <[p := BNode n]> h.

(** The characters of the C string at [p]. *)
Definition cstring (h : heap) (p : addr) : outcome string :=
  match h !! p with
  | Some (BStr s) => Ok s
  | _ => Undefined
  end.

Definition strlen (h : heap) (p : addr) : outcome nat :=
  s ← cstring h p; Ok (String.length s).

(** [strdup]: a fresh block holding the same characters. *)
Definition strdup (h : heap) (p : addr) : outcome (heap * addr) :=
  s ← cstring h p; Ok (malloc h (BStr s)).

(** [qn->field = ...]: read the node, change it, write it back. *)
Definition update_node (h : heap) (p : addr) (f : QueryNode → QueryNode) : outcome heap :=
  n ← load_node h p; Ok (store_node h p (f n)).

(** ** Schema and document table *)

Record FieldSpec : Type := mkFieldSpec {
  fs_name : string;
  fs_index : nat
}.

(** Modelled from the spec: the document table (doc_table.h is absent),
    "idFor(externalKey) -> internalId | none, keyFor(internalId) ->
    externalKey | none".  The file itself reads an id of 0 as "none"
    ([RS_DropDocument]) and a NULL key as "none" ([RS_ResultsIteratorNext]). *)
Record DocTable : Type := mkDocTable {
  dt_ids : gmap string t_docId;
  dt_keys : gmap t_docId string
}.

Definition DocTable_GetIdR (t : DocTable) (key : string) : t_docId :=
  default 0 (dt_ids t !! key).

(** [None] is the NULL key. *)
Definition DocTable_GetKey (t : DocTable) (id : t_docId) : option string :=
  dt_keys t !! id.

Record IndexSpec : Type := mkIndexSpec {
  fields : list FieldSpec;
  docs : DocTable
}.

(** A name resolves when the schema has a field of that name. *)
Definition resolves (sp : IndexSpec) (name : string) : bool :=
  bool_decide (name ∈ fs_name <$> fields sp).

(** ** Node construction *)

(** Two parts of spec.h that are absent: the all-fields mask and the
    field resolver, "resolveFieldBit(name) -> bit". *)
Class FieldResolver : Type := {
  RS_FIELDMASK_ALL : t_fieldMask;
  IndexSpec_GetFieldBit : IndexSpec → string → nat → t_fieldMask
}.

Section Construction.

Context {resolver : FieldResolver}.

(** The payload of a zero-initialised node of each variant. *)
Definition zero_payload (ty : QueryNodeType) : QueryNodePayload :=
  match ty with
  | QN_PHRASE => pn (mkPhrase [] 0 0)
  | QN_UNION => un (mkUnion [] 0)
  | QN_TOKEN => tn (mkToken NULL 0 0 0)
  | QN_NUMERIC => nn (mkNumericFilter NULL 0 0 0 0)
  | QN_PREFX => pfx (mkToken NULL 0 0 0)
  | QN_TAG => tag (mkTag NULL 0 0 [])
  | QN_LEXRANGE => lxrng (mkLexRange NULL NULL)
  end.

(** Modelled from the spec: [NewQueryNode] (query.c is absent), "each
    returning a newly allocated node" and "every node carries a field
    mask (default: match-all-fields)". *)
Definition NewQueryNode (h : heap) (ty : QueryNodeType) : heap * addr :=
  malloc h (BNode {| payload := zero_payload ty;
                     opts := {| fieldMask := RS_FIELDMASK_ALL |} |}).

(** Modelled from the spec: [NewNumericFilter] (numeric_filter.c is
    absent), "Numeric { min, max, includeMin, includeMax, fieldName }";
    the argument order is the one of its call in [RS_CreateNumericNode]. *)
Definition NewNumericFilter (min max : float) (inclusiveMin inclusiveMax : Z)
  : NumericFilter :=
  {| nf_fieldName := NULL; nf_min := min; nf_max := max;
     inclusiveMin := inclusiveMin; inclusiveMax := inclusiveMax |}.

Definition set_nf_fieldName (nf : NumericFilter) (name : addr) : NumericFilter :=
  {| nf_fieldName := name; nf_min := nf_min nf; nf_max := nf_max nf;
     inclusiveMin := inclusiveMin nf; inclusiveMax := inclusiveMax nf |}.

(** [ret->opts.fieldMask = IndexSpec_GetFieldBit(sp, name, strlen(name))]. *)
Definition scope_to_field (h : heap) (sp : IndexSpec) (ret fieldName : addr)
  : outcome heap :=
  name ← cstring h fieldName;
  len ← strlen h fieldName;
  update_node h ret (λ n, set_fieldMask n (IndexSpec_GetFieldBit sp name len)).

(** The mask of a node built with the optional field name [fieldName],
    whose characters are [name] when it is not NULL. *)
Definition scoped_mask (sp : IndexSpec) (fieldName : addr) (name : string) : t_fieldMask :=
  if decide (fieldName = NULL) then RS_FIELDMASK_ALL
  else IndexSpec_GetFieldBit sp name (String.length name).

Definition RS_CreateTokenNode (h : heap) (sp : IndexSpec) (fieldName token : addr)
  : outcome (heap * addr) :=
  let '(h, ret) := NewQueryNode h QN_TOKEN in
  '(h, str) ← strdup h token;
  len ← strlen h token;
  h ← update_node h ret (λ n, set_payload n
         (tn {| tn_str := str; tn_len := len; tn_expanded := 0; tn_flags := 0 |}));
  if decide (fieldName = NULL) then Ok (h, ret)
  else h ← scope_to_field h sp ret fieldName; Ok (h, ret).

Definition RS_CreateNumericNode (h : heap) (sp : IndexSpec) (field : addr)
    (max min : float) (includeMax includeMin : Z) : outcome (heap * addr) :=
  let '(h, ret) := NewQueryNode h QN_NUMERIC in
  h ← update_node h ret (λ n, set_payload n
         (nn (NewNumericFilter min max includeMin includeMax)));
  '(h, name) ← strdup h field;
  h ← update_node h ret (λ n, match payload n with
         | nn nf => set_payload n (nn (set_nf_fieldName nf name))
         | _ => n end);
  h ← scope_to_field h sp ret field;
  Ok (h, ret).

Definition RS_CreatePrefixNode (h : heap) (sp : IndexSpec) (fieldName s : addr)
  : outcome (heap * addr) :=
  let '(h, ret) := NewQueryNode h QN_PREFX in
  '(h, str) ← strdup h s;
  len ← strlen h s;
  h ← update_node h ret (λ n, set_payload n
         (pfx {| tn_str := str; tn_len := len; tn_expanded := 0; tn_flags := 0 |}));
  if decide (fieldName = NULL) then Ok (h, ret)
  else h ← scope_to_field h sp ret fieldName; Ok (h, ret).

Definition RS_CreateLexRangeNode (h : heap) (sp : IndexSpec)
    (fieldName begin end_ : addr) : outcome (heap * addr) :=
  let '(h, ret) := NewQueryNode h QN_LEXRANGE in
  h ← (if decide (begin = NULL) then Ok h
       else update_node h ret (λ n, match payload n with
              | lxrng r => set_payload n (lxrng {| lx_begin := begin; lx_end := lx_end r |})
              | _ => n end));
  h ← (if decide (end_ = NULL) then Ok h
       else update_node h ret (λ n, match payload n with
              | lxrng r => set_payload n (lxrng {| lx_begin := lx_begin r; lx_end := end_ |})
              | _ => n end));
  if decide (fieldName = NULL) then Ok (h, ret)
  else h ← scope_to_field h sp ret fieldName; Ok (h, ret).

Definition RS_CreateTagNode (h : heap) (sp : IndexSpec) (field : addr)
  : outcome (heap * addr) :=
  let '(h, ret) := NewQueryNode h QN_TAG in
  '(h, name) ← strdup h field;
  len ← strlen h field;
  h ← update_node h ret (λ n, set_payload n
         (tag {| tag_fieldName := name; tag_len := len;
                 tag_numChildren := 0; tag_children := [] |}));
  h ← scope_to_field h sp ret field;
  Ok (h, ret).

Definition RS_CreateIntersectNode (h : heap) (sp : IndexSpec) (exact : Z)
  : outcome (heap * addr) :=
  let '(h, ret) := NewQueryNode h QN_PHRASE in
  h ← update_node h ret (λ n, set_payload n
         (pn {| pn_children := []; pn_numChildren := 0; pn_exact := exact |}));
  Ok (h, ret).

Definition RS_CreateUnionNode (h : heap) (sp : IndexSpec) : outcome (heap * addr) :=
  let '(h, ret) := NewQueryNode h QN_UNION in
  h ← update_node h ret (λ n, set_payload n
         (un {| un_children := []; un_numChildren := 0 |}));
  Ok (h, ret).

End Construction.

(** Modelled from the spec: the match of a numeric filter
    (numeric_filter.h is absent), "Numeric { min, max, includeMin,
    includeMax } -- half/fully-open numeric range": a bound that is
    included admits the value equal to it. *)
Definition NumericFilter_Match (f : NumericFilter) (score : float) : bool :=
  (if bool_decide (inclusiveMin f ≠ 0%Z) then PrimFloat.leb (nf_min f) score
   else PrimFloat.ltb (nf_min f) score)
  && (if bool_decide (inclusiveMax f ≠ 0%Z) then PrimFloat.leb score (nf_max f)
      else PrimFloat.ltb score (nf_max f)).

(** ** Children of the container nodes *)

(** Modelled from the spec: the three append helpers of query.c, which is
    absent, "appends child to parent's ordered children".  Each writes the
    child after the [numChildren] cells in use and counts it; each reads
    its own member of the payload union, with no check of the type tag. *)
Definition QueryPhraseNode_AddChild (h : heap) (parent child : addr) : outcome heap :=
  n ← load_node h parent;
  match payload n with
  | pn p => Ok (store_node h parent (set_payload n
        (pn {| pn_children := take (pn_numChildren p) (pn_children p) ++ [child];
               pn_numChildren := S (pn_numChildren p);
               pn_exact := pn_exact p |})))
  | _ => Undefined
  end.

Definition QueryUnionNode_AddChild (h : heap) (parent child : addr) : outcome heap :=
  n ← load_node h parent;
  match payload n with
  | un u => Ok (store_node h parent (set_payload n
        (un {| un_children := take (un_numChildren u) (un_children u) ++ [child];
               un_numChildren := S (un_numChildren u) |})))
  | _ => Undefined
  end.

Definition QueryTagNode_AddChildren (h : heap) (parent : addr) (children : list addr)
    (num : nat) : outcome heap :=
  n ← load_node h parent;
  match payload n with
  | tag t => Ok (store_node h parent (set_payload n
        (tag {| tag_fieldName := tag_fieldName t; tag_len := tag_len t;
                tag_numChildren := tag_numChildren t + num;
                tag_children := take (tag_numChildren t) (tag_children t)
                                  ++ take num children |})))
  | _ => Undefined
  end.

Definition RS_TagNodeAddChild (h : heap) (qn child : addr) : outcome heap :=
  QueryTagNode_AddChildren h qn [child] 1.

Definition RS_IntersectNodeAddChild (h : heap) (qn child : addr) : outcome heap :=
  QueryPhraseNode_AddChild h qn child.

Definition RS_IntersectNodeClearChildren (h : heap) (qn : addr) : outcome heap :=
  n ← load_node h qn;
  _ ← assert (bool_decide (type n = QN_PHRASE));
  match payload n with
  | pn p => Ok (store_node h qn (set_payload n
        (pn {| pn_children := pn_children p; pn_numChildren := 0;
               pn_exact := pn_exact p |})))
  | _ => Undefined
  end.

Definition RS_IntersectNodeGetNumChildren (h : heap) (qn : addr) : outcome nat :=
  n ← load_node h qn;
  _ ← assert (bool_decide (type n = QN_PHRASE));
  match payload n with
  | pn p => Ok (pn_numChildren p)
  | _ => Undefined
  end.

Definition RS_IntersectNodeGetChild (h : heap) (qn : addr) (index : nat) : outcome addr :=
  n ← load_node h qn;
  _ ← assert (bool_decide (type n = QN_PHRASE));
  match payload n with
  | pn p =>
      _ ← assert (bool_decide (0 ≤ index)%nat && bool_decide (index < pn_numChildren p)%nat);
      match pn_children p !! index with
      | Some c => Ok c
      | None => Undefined
      end
  | _ => Undefined
  end.

Definition RS_UnionNodeAddChild (h : heap) (qn child : addr) : outcome heap :=
  n ← load_node h qn;
  _ ← assert (bool_decide (type n = QN_UNION));
  QueryUnionNode_AddChild h qn child.

Definition RS_UnionNodeClearChildren (h : heap) (qn : addr) : outcome heap :=
  n ← load_node h qn;
  _ ← assert (bool_decide (type n = QN_UNION));
  match payload n with
  | un u => Ok (store_node h qn (set_payload n
        (un {| un_children := un_children u; un_numChildren := 0 |})))
  | _ => Undefined
  end.

Definition RS_UnionNodeGetNumChildren (h : heap) (qn : addr) : outcome nat :=
  n ← load_node h qn;
  _ ← assert (bool_decide (type n = QN_UNION));
  match payload n with
  | un u => Ok (un_numChildren u)
  | _ => Undefined
  end.

Definition RS_UnionNodeGetChild (h : heap) (qn : addr) (index : nat) : outcome addr :=
  n ← load_node h qn;
  _ ← assert (bool_decide (type n = QN_UNION));
  match payload n with
  | un u =>
      _ ← assert (bool_decide (0 ≤ index)%nat && bool_decide (index < un_numChildren u)%nat);
      match un_children u !! index with
      | Some c => Ok c
      | None => Undefined
      end
  | _ => Undefined
  end.

Definition RS_QueryNodeType (h : heap) (qn : addr) : outcome QueryNodeType :=
  n ← load_node h qn; Ok (type n).

(** ** Freeing a tree *)

(** The children a node holds: the cells of its array that are in use. *)
Definition node_children (n : QueryNode) : list addr :=
  match payload n with
  | pn p => take (pn_numChildren p) (pn_children p)
  | un u => take (un_numChildren u) (un_children u)
  | tag t => take (tag_numChildren t) (tag_children t)
  | _ => []
  end.

(** The strings a node owns: the copies its constructor made with
    [strdup].  A lexical range keeps the caller's own pointers. *)
Definition node_strings (n : QueryNode) : list addr :=
  match payload n with
  | tn t => [tn_str t]
  | pfx t => [tn_str t]
  | nn nf => [nf_fieldName nf]
  | tag t => [tag_fieldName t]
  | _ => []
  end.

(** Modelled from the spec: [QueryNode_Free] (query.c is absent),
    "freeTree(node): recursively frees node and all owned children,
    variant-specific payload (strings, ranges) included".  [fuel] bounds
    the depth of the recursion. *)
Fixpoint QueryNode_Free (fuel : nat) (h : heap) (p : addr) : outcome heap :=
  match fuel with
  | O => OutOfFuel
  | S fuel =>
      n ← load_node h p;
      h ← foldM (QueryNode_Free fuel) (node_children n) h;
      h ← foldM free (node_strings n) h;
      free h p
  end.

Definition RS_QueryNodeFree (fuel : nat) (h : heap) (qn : addr) : outcome heap :=
  QueryNode_Free fuel h qn.

(** The block of an owned string: none for NULL, else the string must be
    live. *)
Definition string_block (h : heap) (s : addr) : option (list addr) :=
  if decide (s = NULL) then Some []
  else match h !! s with
       | Some (BStr _) => Some [s]
       | _ => None
       end.

(** The blocks of the tree rooted at [p], in the order [QueryNode_Free]
    releases them; [None] when the tree reaches a pointer that is not a
    live node, an owned string that is not live, or is deeper than [fuel].
    A tree is well formed when it has a footprint without repetition: no
    node and no string is shared. *)
Fixpoint footprint (fuel : nat) (h : heap) (p : addr) : option (list addr) :=
  match fuel with
  | O => None
  | S fuel =>
      match h !! p with
      | Some (BNode n) =>
          if decide (p = NULL) then None else
          kids ← mapM (footprint fuel h) (node_children n);
          strs ← mapM (string_block h) (node_strings n);
          Some (concat kids ++ concat strs ++ [p])
      | _ => None
      end
  end.

(** The heap without the blocks of [X]. *)
Definition drop_blocks (X : list addr) (h : heap) : heap := foldr delete h X.

(** ** Result iterators *)

Record RSIndexResult : Type := mkResult { docId : t_docId }.

Inductive ReadResult : Type :=
| INDEXREAD_EOF
| INDEXREAD_OK (e : RSIndexResult).

(** A compiled iterator, with its cursor state.  A leaf is a cursor over
    the posting list the index returned, holding the entries not read yet;
    a union holds its children. *)
#[warnings="-register-all"]
Inductive IndexIterator : Type :=
| PostingIterator (ids : list t_docId)
| EmptyIterator
| UnionIterator (its : list IndexIterator).

Definition min_docId (a b : option t_docId) : option t_docId :=
  match a, b with
  | None, x => x
  | x, None => x
  | Some x, Some y => Some (N.min x y)
  end.

(** Modelled from the spec: the union merge (index.c is absent), "a k-way
    ascending merge that yields a document identifier when it is produced by
    at least one child, advancing all children currently positioned at the
    minimum identifier and deduplicating so each identifier is emitted once
    per read call".  An iterator is positioned at the identifier its next
    read returns: [current] is that position, [None] once exhausted, and
    [advance] moves past it. *)
Fixpoint current (it : IndexIterator) : option t_docId :=
  match it with
  | PostingIterator ids => head ids
  | EmptyIterator => None
  | UnionIterator its => foldr min_docId None (current <$> its)
  end.

Fixpoint advance (it : IndexIterator) : IndexIterator :=
  match it with
  | PostingIterator ids => PostingIterator (tail ids)
  | EmptyIterator => EmptyIterator
  | UnionIterator its =>
      let m := foldr min_docId None (current <$> its) in
      UnionIterator ((λ c, if decide (current c = m) then advance c else c) <$> its)
  end.

(** What [advance] does to each child of a union positioned at [m]. *)
Definition step (m : option t_docId) (c : IndexIterator) : IndexIterator :=
  if decide (current c = m) then advance c else c.

(** [it->Read(it->ctx, &e)]. *)
Definition Read (it : IndexIterator) : ReadResult * IndexIterator :=
  match current it with
  | None => (INDEXREAD_EOF, it)
  | Some d => (INDEXREAD_OK {| docId := d |}, advance it)
  end.

(** The identifiers read until end-of-stream, within [fuel] reads. *)
Fixpoint read_all (fuel : nat) (it : IndexIterator) : option (list t_docId) :=
  match fuel with
  | O => None
  | S fuel =>
      match Read it with
      | (INDEXREAD_EOF, _) => Some []
      | (INDEXREAD_OK e, it') => cons (docId e) <$> read_all fuel it'
      end
  end.

(** The number of posting entries an iterator still holds. *)
Fixpoint it_size (it : IndexIterator) : nat :=
  match it with
  | PostingIterator ids => length ids
  | EmptyIterator => 0
  | UnionIterator its => sum_list (it_size <$> its)
  end.

(** The full read sequence: every iterator reaches end-of-stream within
    [it_size it] reads (lemma [read_all_enough]). *)
Definition read_sequence (it : IndexIterator) : list t_docId :=
  default [] (read_all (S (it_size it)) it).

(** ** Compilation *)

Fixpoint mapO {A B : Type} (f : A → outcome B) (l : list A) : outcome (list B) :=
  match l with
  | [] => Ok []
  | a :: l' => b ← f a; bs ← mapO f l'; Ok (b :: bs)
  end.

(** The collaborators of the compiler that lie outside this file: the
    posting-list provider of the index ("returns a base ascending,
    duplicate-free iterator over matching document identifiers"), the
    intersection merge of Phrase nodes, and the expansion pass, which may
    rewrite the heap and replace the root of the AST. *)
Class QueryEngine : Type := {
  leaf_postings : IndexSpec → heap → QueryNode → list t_docId;
  NewIntersectIterator : list IndexIterator → Z → IndexIterator;
  QAST_Expand : IndexSpec → heap → addr → heap * addr
}.

Section Compilation.

Context {engine : QueryEngine}.

(** Modelled from the spec: [Query_EvalNode] (query.c is absent), section
    4.2: a leaf resolves against the posting-list provider; a Union
    "compiles each child, then produces a k-way ascending merge"; "an
    empty-children Union compiles to an always-empty iterator", and so do
    Tag and Phrase with zero children. *)
Fixpoint Query_EvalNode (fuel : nat) (sp : IndexSpec) (h : heap) (p : addr)
  : outcome IndexIterator :=
  match fuel with
  | O => OutOfFuel
  | S fuel =>
      n ← load_node h p;
      match payload n with
      | un _ =>
          match node_children n with
          | [] => Ok EmptyIterator
          | cs => its ← mapO (Query_EvalNode fuel sp h) cs; Ok (UnionIterator its)
          end
      | pn ph =>
          match node_children n with
          | [] => Ok EmptyIterator
          | cs => its ← mapO (Query_EvalNode fuel sp h) cs;
                  Ok (NewIntersectIterator its (pn_exact ph))
          end
      | tag _ =>
          match node_children n with
          | [] => Ok EmptyIterator
          | _ => Ok (PostingIterator (leaf_postings sp h n))
          end
      | _ => Ok (PostingIterator (leaf_postings sp h n))
      end
  end.

(** [fuel] bounds the depth of the tree, for the compiler and for the
    release of the tree alike. *)
Definition RS_GetResultsIterator (fuel : nat) (h : heap) (qn : addr) (sp : IndexSpec)
  : outcome (heap * IndexIterator) :=
  let '(h, root) := QAST_Expand sp h qn in
  ret ← Query_EvalNode fuel sp h root;
  h ← QueryNode_Free fuel h qn;
  Ok (h, ret).

End Compilation.

(** The key of the next result, or [None] for the NULL that ends the
    traversal, with the iterator as the reads left it; [*len] is the length
    of the key.  [fuel] bounds the number of reads. *)
Fixpoint RS_ResultsIteratorNext (fuel : nat) (iter : IndexIterator) (sp : IndexSpec)
  : outcome (option string * IndexIterator) :=
  match fuel with
  | O => OutOfFuel
  | S fuel =>
      match Read iter with
      | (INDEXREAD_EOF, iter) => Ok (None, iter)
      | (INDEXREAD_OK e, iter) =>
          match DocTable_GetKey (docs sp) (docId e) with
          | Some key => Ok (Some key, iter)
          | None => RS_ResultsIteratorNext fuel iter sp
          end
      end
  end.

(** ** Adding a document *)

Record Document : Type := mkDocument {
  docKey : string
}.

Record RSAddDocumentCtx : Type := mkAddDocumentCtx {
  actx_doc : Document;
  stateFlags : Z;
  donecb : bool       (* whether a completion callback is installed *)
}.

(** The call [AddDocumentCtx_Submit(aCtx, &sctx, options)]. *)
Record Submission : Type := mkSubmission {
  sub_ctx : RSAddDocumentCtx;
  sub_spec : IndexSpec;
  sub_options : Z
}.

(** The flags and the context constructor of document.h, which is absent. *)
Class Indexer : Type := {
  DOCUMENT_ADD_REPLACE : Z;
  DOCUMENT_ADD_NOSAVE : Z;
  ACTX_F_NOBLOCK : Z;
  NewAddDocumentCtx : IndexSpec → Document → RSAddDocumentCtx
}.

Section AddDocument.

Context {indexer : Indexer}.

(** The submission [RS_SpecAddDocument] makes to the indexer. *)
Definition RS_SpecAddDocument (sp : IndexSpec) (d : Document) : Submission :=
  let options := 0%Z in
  let aCtx := NewAddDocumentCtx sp d in
  let aCtx := {| actx_doc := actx_doc aCtx; stateFlags := stateFlags aCtx;
                 donecb := true |} in
  let exists_ := negb (negb (bool_decide (DocTable_GetIdR (docs sp) (docKey d) ≠ 0))) in
  let options := if exists_ then Z.lor options DOCUMENT_ADD_REPLACE else options in
  let options := Z.lor options DOCUMENT_ADD_NOSAVE in
  let aCtx := {| actx_doc := actx_doc aCtx;
                 stateFlags := Z.lor (stateFlags aCtx) ACTX_F_NOBLOCK;
                 donecb := donecb aCtx |} in
  {| sub_ctx := aCtx; sub_spec := sp; sub_options := options |}.

End AddDocument.

(** ** Dropping a document *)

(** [RedisModule_CreateString] and [RedisModule_FreeString] of the Redis
    module API: a string object is a block of its own, holding a copy of
    the bytes it was created from. *)
Definition RedisModule_CreateString (h : heap) (bytes : string) : heap * addr :=
  malloc h (BStr bytes).

Definition RedisModule_FreeString (h : heap) (s : addr) : outcome heap :=
  free h s.

(** [sp->stats]: the counters of an index, held beside the [IndexSpec]
    record.  [numDocuments] is a [size_t] on 64 bits. *)
Record IndexStats : Type := mkIndexStats {
  numDocuments : N
}.

(** [n--] on a [size_t]. *)
Definition size_t_decr (n : N) : N := (n + (2 ^ 64 - 1)) mod 2 ^ 64.

(** Modelled from the spec: [DocTable_DeleteR] (doc_table.h is absent),
    "delete(externalKey) -> bool"; a deleted document resolves in neither
    direction afterwards ("the document-table lookup returning not found"). *)
Definition DocTable_DeleteR (t : DocTable) (key : string) : Z * DocTable :=
  match dt_ids t !! key with
  | Some id => (1%Z, {| dt_ids := delete key (dt_ids t);
                        dt_keys := delete id (dt_keys t) |})
  | None => (0%Z, t)
  end.

(** [docKey] stands for the [len] bytes at [docKey].  The result is the
    heap, the index, its counters and the returned [int]. *)
Definition RS_DropDocument (h : heap) (sp : IndexSpec) (stats : IndexStats)
    (docKey : string) : outcome (heap * IndexSpec * IndexStats * Z) :=
  let '(h, docId) := RedisModule_CreateString h docKey in
  key ← cstring h docId;
  let id := DocTable_GetIdR (docs sp) key in
  if decide (id = 0) then
    h ← RedisModule_FreeString h docId;
    Ok (h, sp, stats, 0%Z)
  else
    let '(rc, t) := DocTable_DeleteR (docs sp) key in
    let sp := {| fields := fields sp; docs := t |} in
    if decide (rc ≠ 0%Z) then
      Ok (h, sp, {| numDocuments := size_t_decr (numDocuments stats) |}, 1%Z)
    else Ok (h, sp, stats, 0%Z).

(** ** The field mask as an [int] *)

(** Conversion of an unsigned value to [int]: the low 32 bits, read in
    two's complement. *)
Definition to_int (m : N) : Z :=
  let r := (Z.of_N m mod 2 ^ 32)%Z in
  if (r <? 2 ^ 31)%Z then r else (r - 2 ^ 32)%Z.

Definition RS_QueryNodeGetFieldMask (h : heap) (qn : addr) : outcome Z :=
  n ← load_node h qn; Ok (to_int (fieldMask (opts n))).

(** ** Registering a field *)

(** [RSField], the [FieldSpec] of field_spec.h as [RS_CreateField] and the
    two setters write it. *)
Record RSField : Type := mkRSField {
  fld_name : string;
  fld_types : Z;
  fld_options : Z;
  fld_ftId : Z;
  fld_sortIdx : Z;
  fld_ftWeight : float;
  fld_tagSep : Z
}.

(** What redisearch_api.h, field_spec.h and spec.h declare and this file
    uses to register a field, all absent: the flags of the API, of a field
    and of an index, the type test [FIELD_IS], and the functions that add a
    field to the schema, number the text fields and fill the sorting table.
    [Schema] is the state of the index those functions work on; the flags
    of the index are kept beside it. *)
Class FieldApi : Type := {
  RSFLDTYPE_FULLTEXT : Z;
  RSFLDTYPE_NUMERIC : Z;
  RSFLDTYPE_GEO : Z;
  RSFLDTYPE_TAG : Z;
  INDEXFLD_T_FULLTEXT : Z;
  INDEXFLD_T_NUMERIC : Z;
  INDEXFLD_T_GEO : Z;
  INDEXFLD_T_TAG : Z;
  RSFLDOPT_NOINDEX : Z;
  RSFLDOPT_SORTABLE : Z;
  RSFLDOPT_TXTNOSTEM : Z;
  RSFLDOPT_TXTPHONETIC : Z;
  FieldSpec_Dynamic : Z;
  FieldSpec_NotIndexable : Z;
  FieldSpec_Sortable : Z;
  FieldSpec_NoStemming : Z;
  FieldSpec_Phonetics : Z;
  Index_HasPhonetic : Z;
  Schema : Type;
  IndexSpec_CreateField : Schema → string → Schema * RSField;
  IndexSpec_CreateTextId : Schema → Z;
  RSSortingTable_Add : Schema → string → Z → Schema * Z;
  fieldTypeToValueType : Z → Z;
  FIELD_IS : RSField → Z → bool
}.

Section Fields.

Context {api : FieldApi}.

(** [x & flag] as a condition. *)
Definition has_flag (x flag : Z) : bool := bool_decide (Z.land x flag ≠ 0%Z).

Definition set_types (fs : RSField) (v : Z) : RSField :=
  {| fld_name := fld_name fs; fld_types := v; fld_options := fld_options fs;
     fld_ftId := fld_ftId fs; fld_sortIdx := fld_sortIdx fs;
     fld_ftWeight := fld_ftWeight fs; fld_tagSep := fld_tagSep fs |}.

Definition set_options (fs : RSField) (v : Z) : RSField :=
  {| fld_name := fld_name fs; fld_types := fld_types fs; fld_options := v;
     fld_ftId := fld_ftId fs; fld_sortIdx := fld_sortIdx fs;
     fld_ftWeight := fld_ftWeight fs; fld_tagSep := fld_tagSep fs |}.

Definition set_ftId (fs : RSField) (v : Z) : RSField :=
  {| fld_name := fld_name fs; fld_types := fld_types fs; fld_options := fld_options fs;
     fld_ftId := v; fld_sortIdx := fld_sortIdx fs;
     fld_ftWeight := fld_ftWeight fs; fld_tagSep := fld_tagSep fs |}.

Definition set_sortIdx (fs : RSField) (v : Z) : RSField :=
  {| fld_name := fld_name fs; fld_types := fld_types fs; fld_options := fld_options fs;
     fld_ftId := fld_ftId fs; fld_sortIdx := v;
     fld_ftWeight := fld_ftWeight fs; fld_tagSep := fld_tagSep fs |}.

Definition set_ftWeight (fs : RSField) (w : float) : RSField :=
  {| fld_name := fld_name fs; fld_types := fld_types fs; fld_options := fld_options fs;
     fld_ftId := fld_ftId fs; fld_sortIdx := fld_sortIdx fs;
     fld_ftWeight := w; fld_tagSep := fld_tagSep fs |}.

Definition set_tagSep (fs : RSField) (sep : Z) : RSField :=
  {| fld_name := fld_name fs; fld_types := fld_types fs; fld_options := fld_options fs;
     fld_ftId := fld_ftId fs; fld_sortIdx := fld_sortIdx fs;
     fld_ftWeight := fld_ftWeight fs; fld_tagSep := sep |}.

(** The part of [RS_CreateField] after the text id is settled: the three
    other types, the dynamic mark and the options.  [flags] is
    [sp->flags]; the result is the schema, the flags and the field. *)
Definition RS_CreateField_rest (s : Schema) (flags : Z) (fs : RSField) (numTypes : Z)
    (types options : Z) : Schema * Z * RSField :=
  let '(fs, numTypes) :=
    if has_flag types RSFLDTYPE_NUMERIC
    then (set_types fs (Z.lor (fld_types fs) INDEXFLD_T_NUMERIC), (numTypes + 1)%Z)
    else (fs, numTypes) in
  let '(fs, numTypes) :=
    if has_flag types RSFLDTYPE_GEO
    then (set_types fs (Z.lor (fld_types fs) INDEXFLD_T_GEO), (numTypes + 1)%Z)
    else (fs, numTypes) in
  let '(fs, numTypes) :=
    if has_flag types RSFLDTYPE_TAG
    then (set_types fs (Z.lor (fld_types fs) INDEXFLD_T_TAG), (numTypes + 1)%Z)
    else (fs, numTypes) in
  let fs :=
    if bool_decide (numTypes > 1)%Z
    then set_options fs (Z.lor (fld_options fs) FieldSpec_Dynamic) else fs in
  let fs :=
    if has_flag options RSFLDOPT_NOINDEX
    then set_options fs (Z.lor (fld_options fs) FieldSpec_NotIndexable) else fs in
  let '(s, fs) :=
    if has_flag options RSFLDOPT_SORTABLE
    then
      let fs := set_options fs (Z.lor (fld_options fs) FieldSpec_Sortable) in
      let '(s, idx) :=
        RSSortingTable_Add s (fld_name fs) (fieldTypeToValueType (fld_types fs)) in
      (s, set_sortIdx fs idx)
    else (s, fs) in
  let fs :=
    if has_flag options RSFLDOPT_TXTNOSTEM
    then set_options fs (Z.lor (fld_options fs) FieldSpec_NoStemming) else fs in
  let '(flags, fs) :=
    if has_flag options RSFLDOPT_TXTPHONETIC
    then (Z.lor flags Index_HasPhonetic,
          set_options fs (Z.lor (fld_options fs) FieldSpec_Phonetics))
    else (flags, fs) in
  (s, flags, fs).

(** [None] is the NULL the function returns when no text id is left.  The
    field it returns is the one [IndexSpec_CreateField] put in the schema,
    as the function leaves it. *)
Definition RS_CreateField (s : Schema) (flags : Z) (name : string) (types options : Z)
  : outcome (Schema * Z * option RSField) :=
  _ ← assert (bool_decide (types ≠ 0%Z));
  let '(s, fs) := IndexSpec_CreateField s name in
  let numTypes := 0%Z in
  if has_flag types RSFLDTYPE_FULLTEXT then
    let numTypes := (numTypes + 1)%Z in
    let txtId := IndexSpec_CreateTextId s in
    if bool_decide (txtId < 0)%Z then Ok (s, flags, None)
    else
      let fs := set_ftId fs txtId in
      let fs := set_types fs (Z.lor (fld_types fs) INDEXFLD_T_FULLTEXT) in
      let '(s, flags, fs) := RS_CreateField_rest s flags fs numTypes types options in
      Ok (s, flags, Some fs)
  else
    let '(s, flags, fs) := RS_CreateField_rest s flags fs numTypes types options in
    Ok (s, flags, Some fs).

Definition RS_TextFieldSetWeight (fs : RSField) (w : float) : outcome RSField :=
  _ ← assert (FIELD_IS fs INDEXFLD_T_FULLTEXT);
  Ok (set_ftWeight fs w).

Definition RS_TagSetSeparator (fs : RSField) (sep : Z) : outcome RSField :=
  _ ← assert (FIELD_IS fs INDEXFLD_T_TAG);
  Ok (set_tagSep fs sep).

(** The number of types a request names, and the type bits it adds to a
    field: what the four tests of [RS_CreateField] count and set. *)
Definition requested (types : Z) : Z :=
  ((if has_flag types RSFLDTYPE_FULLTEXT then 1 else 0)
   + (if has_flag types RSFLDTYPE_NUMERIC then 1 else 0)
   + (if has_flag types RSFLDTYPE_GEO then 1 else 0)
   + (if has_flag types RSFLDTYPE_TAG then 1 else 0))%Z.

Definition requested_bits (types : Z) : Z :=
  Z.lor (Z.lor (Z.lor (if has_flag types RSFLDTYPE_FULLTEXT then INDEXFLD_T_FULLTEXT else 0)
                      (if has_flag types RSFLDTYPE_NUMERIC then INDEXFLD_T_NUMERIC else 0))
               (if has_flag types RSFLDTYPE_GEO then INDEXFLD_T_GEO else 0))
        (if has_flag types RSFLDTYPE_TAG then INDEXFLD_T_TAG else 0).

End Fields.

(** ** Registering the API *)

(** The names [REGISTER_API] is applied to, in the order of
    [RS_InitializeLibrary]. *)
Definition api_names : list string :=
  [ "GetCApiVersion"; "CreateIndex"; "DropIndex"; "CreateField";
    "TextFieldSetWeight"; "TagSetSeparator";
    "CreateDocument"; "DropDocument"; "DocumentAddField";
    "DocumentAddFieldString"; "DocumentAddFieldNumber";
    "SpecAddDocument";
    "CreateTokenNode"; "CreateNumericNode"; "CreatePrefixNode";
    "CreateLexRangeNode"; "CreateTagNode"; "TagNodeAddChild";
    "CreateIntersectNode"; "IntersectNodeAddChild"; "CreateUnionNode";
    "UnionNodeAddChild"; "QueryNodeFree"; "UnionNodeClearChildren";
    "IntersectNodeClearChildren"; "QueryNodeType"; "UnionNodeGetNumChildren";
    "UnionNodeGetChild"; "IntersectNodeGetNumChildren"; "IntersectNodeGetChild";
    "QueryNodeGetFieldMask";
    "GetResultsIterator"; "ResultsIteratorNext"; "ResultsIteratorFree";
    "ResultsIteratorReset" ].

(** The registry of the host: its state, the registration callback
    [moduleRegisterApi(funcname, funcptr)], where the function registered
    is named by its C identifier, and the two status codes of
    redismodule.h. *)
Class ModuleHost : Type := {
  Registry : Type;
  moduleRegisterApi : Registry → string → string → Registry * Z;
  REDISMODULE_OK : Z;
  REDISMODULE_ERR : Z
}.

(** The two characters that end the message. *)
Definition CRLF : string :=
  String (Ascii.ascii_of_nat 13) (String (Ascii.ascii_of_nat 10) EmptyString).

(** What a run of the registration did: the registry it left, the names
    it passed to the callback, what it printed and the status returned. *)
Record Registration `{ModuleHost} : Type := mkRegistration {
  reg_state : Registry;
  reg_calls : list string;
  reg_printed : list string;
  reg_status : Z
}.

Section Registration.

Context {host : ModuleHost}.

(** [REGISTER_API(name, moduleRegisterApi)] for each name of [names] in
    turn: the first registration that does not return [REDISMODULE_OK]
    prints its message and returns [REDISMODULE_ERR]. *)
Fixpoint register_apis (names : list string) (r : Registry) (calls : list string)
  : Registration :=
  match names with
  | [] => {| reg_state := r; reg_calls := calls; reg_printed := [];
             reg_status := REDISMODULE_OK |}
  | name :: names' =>
      let '(r, rc) := moduleRegisterApi r ("RediSearch_" +:+ name) ("RS_" +:+ name) in
      let calls := calls ++ ["RediSearch_" +:+ name] in
      if bool_decide (rc ≠ REDISMODULE_OK)
      then {| reg_state := r; reg_calls := calls;
              reg_printed := ["could not register RediSearch_" +:+ name +:+ CRLF];
              reg_status := REDISMODULE_ERR |}
      else register_apis names' r calls
  end.

Definition RS_InitializeLibrary (r : Registry) : Registration :=
  register_apis api_names r [].

(** One call of the callback for [name], and the registry after the
    callback ran for each name of [names] in turn. *)
Definition register_one (r : Registry) (name : string) : Registry * Z :=
  moduleRegisterApi r ("RediSearch_" +:+ name) ("RS_" +:+ name).

Definition registered_state (names : list string) (r : Registry) : Registry :=
  foldl (λ r name, (register_one r name).1) r names.

End Registration.

(** ** Reading an iterator to the end *)

(** The loop of a caller: [RS_ResultsIteratorNext] until it returns NULL,
    collecting the keys.  [fuel] bounds the number of calls and the reads
    of each. *)
Fixpoint next_keys (fuel : nat) (iter : IndexIterator) (sp : IndexSpec)
  : outcome (list string * IndexIterator) :=
  match fuel with
  | O => OutOfFuel
  | S fuel' =>
      '(key, iter) ← RS_ResultsIteratorNext fuel iter sp;
      match key with
      | None => Ok ([], iter)
      | Some k => '(ks, iter) ← next_keys fuel' iter sp; Ok (k :: ks, iter)
      end
  end.

(** ** A small index for the examples *)

(** Modelled from the spec: a field resolver (spec.c is absent), "maps a
    field name to a stable small-integer identifier and to a bit position
    usable in a field mask"; a name the schema lacks gets no bit. *)
Definition schema_GetFieldBit (sp : IndexSpec) (name : string) (len : nat) : t_fieldMask :=
  match list_find (λ f, fs_name f = name) (fields sp) with
  | Some (_, f) => N.shiftl 1 (N.of_nat (fs_index f))
  | None => 0
  end.

(** "A distinguished all-ones sentinel", here on 64 bits. *)
Definition example_FIELDMASK_ALL : t_fieldMask := N.ones 64.

Definition example_resolver : FieldResolver :=
  {| RS_FIELDMASK_ALL := example_FIELDMASK_ALL;
     IndexSpec_GetFieldBit := schema_GetFieldBit |}.

Definition example_docs : DocTable :=
  {| dt_ids := <["doc:a" := 1]> (<["doc:c" := 3]> ∅);
     dt_keys := <[1 := "doc:a"]> (<[3 := "doc:c"]> ∅) |}.

Definition example_schema : IndexSpec :=
  {| fields := [mkFieldSpec "title" 0; mkFieldSpec "body" 1]; docs := example_docs |}.

(** Five strings of the caller. *)
Definition example_strings : heap :=
  <[10 := BStr "price"]> (<[11 := BStr "fox"]> (<[12 := BStr "body"]> (
  <[13 := BStr "quick"]> (<[14 := BStr "brown"]> ∅)))).


(** A heap with the tree Union(Token "quick", Token "brown") at address 3,
    the tree Phrase(Token "fox") at address 5, and two empty containers, a
    Union at 7 and a Phrase at 8. *)
Definition example_token (str : addr) (len : nat) : QueryNode :=
  {| payload := tn (mkToken str len 0 0); opts := mkOpts example_FIELDMASK_ALL |}.

Definition example_container (u : QueryNodePayload) : QueryNode :=
  {| payload := u; opts := mkOpts example_FIELDMASK_ALL |}.

Definition example_tree : heap :=
  <[1 := BNode (example_token 20 5)]> (<[20 := BStr "quick"]> (
  <[2 := BNode (example_token 21 5)]> (<[21 := BStr "brown"]> (
  <[3 := BNode (example_container (un (mkUnion [1; 2] 2)))]> (
  <[6 := BNode (example_token 22 3)]> (<[22 := BStr "fox"]> (
  <[5 := BNode (example_container (pn (mkPhrase [6] 1 0)))]> (
  <[7 := BNode (example_container (un (mkUnion [] 0)))]> (
  <[8 := BNode (example_container (pn (mkPhrase [] 0 0)))]> ∅))))))))).

(** The posting lists of the example index, by token text. *)
Definition example_postings (sp : IndexSpec) (h : heap) (n : QueryNode) : list t_docId :=
  match payload n with
  | tn t =>
      match cstring h (tn_str t) with
      | Ok s => if decide (s = "quick") then [1; 3; 5]
                else if decide (s = "brown") then [2; 3; 8]
                else if decide (s = "fox") then [3; 9]
                else []
      | _ => []
      end
  | _ => []
  end.

(** An expansion pass that changes nothing, and an intersection merge for
    the examples, none of which compiles a Phrase with children. *)
Definition no_expansion (sp : IndexSpec) (h : heap) (qn : addr) : heap * addr := (h, qn).

Definition example_intersect (its : list IndexIterator) (exact : Z) : IndexIterator :=
  EmptyIterator.

Definition example_engine : QueryEngine :=
  {| leaf_postings := example_postings;
     NewIntersectIterator := example_intersect;
     QAST_Expand := no_expansion |}.

(** REPLACE = 1 and NOSAVE = 4, two flags with no bit in common. *)
Definition example_indexer : Indexer :=
  {| DOCUMENT_ADD_REPLACE := 1;
     DOCUMENT_ADD_NOSAVE := 4;
     ACTX_F_NOBLOCK := 2;
     NewAddDocumentCtx := λ _ d, mkAddDocumentCtx d 0 false |}.

(** The scenario of the specification, through the API: the Union of the
    tokens "quick" and "brown" on the field "body" is built, compiled and
    read to the end.  The result is what was read and the heap left. *)
Definition example_session : outcome (list t_docId * heap) :=
  let sp := example_schema in
  '(h, quick) ← RS_CreateTokenNode (resolver := example_resolver) example_strings sp 12 13;
  '(h, brown) ← RS_CreateTokenNode (resolver := example_resolver) h sp 12 14;
  '(h, union) ← RS_CreateUnionNode (resolver := example_resolver) h sp;
  h ← RS_UnionNodeAddChild h union quick;
  h ← RS_UnionNodeAddChild h union brown;
  '(h, iter) ← RS_GetResultsIterator (engine := example_engine) 2 h union sp;
  Ok (read_sequence iter, h).

(** One choice of the flags, each a bit of its own, and a schema that is
    the list of its field names, with room for two text fields. *)
Definition example_field_api : FieldApi :=
  {| RSFLDTYPE_FULLTEXT := 1; RSFLDTYPE_NUMERIC := 2; RSFLDTYPE_GEO := 4;
     RSFLDTYPE_TAG := 8;
     INDEXFLD_T_FULLTEXT := 1; INDEXFLD_T_NUMERIC := 2; INDEXFLD_T_GEO := 4;
     INDEXFLD_T_TAG := 8;
     RSFLDOPT_NOINDEX := 2; RSFLDOPT_SORTABLE := 1; RSFLDOPT_TXTNOSTEM := 4;
     RSFLDOPT_TXTPHONETIC := 8;
     FieldSpec_Dynamic := 16; FieldSpec_NotIndexable := 4; FieldSpec_Sortable := 1;
     FieldSpec_NoStemming := 2; FieldSpec_Phonetics := 8;
     Index_HasPhonetic := 1024;
     Schema := list string;
     IndexSpec_CreateField := λ s name,
       (s ++ [name],
        {| fld_name := name; fld_types := 0; fld_options := 0; fld_ftId := -1;
           fld_sortIdx := -1; fld_ftWeight := 1%float; fld_tagSep := 44 |});
     IndexSpec_CreateTextId := λ s,
       if bool_decide (length s ≤ 2)%nat then (Z.of_nat (length s) - 1)%Z else (-1)%Z;
     RSSortingTable_Add := λ s name ty, (s, (Z.of_nat (length s) - 1)%Z);
     fieldTypeToValueType := λ t, t;
     FIELD_IS := λ f t, has_flag (fld_types f) t |}.

(** The field [RS_CreateField] makes in an empty schema for the name
    "title" and the types text and tag. *)
Definition example_field : RSField :=
  {| fld_name := "title"; fld_types := 9; fld_options := 16; fld_ftId := 0;
     fld_sortIdx := -1; fld_ftWeight := 1%float; fld_tagSep := 44 |}.

(** A host that keeps the names registered, and accepts every name but
    those of [refused]. *)
Definition example_host (refused : list string) : ModuleHost :=
  {| Registry := list string;
     moduleRegisterApi := λ r funcname funcptr,
       if bool_decide (funcname ∈ refused) then (r, 1%Z) else (r ++ [funcname], 0%Z);
     REDISMODULE_OK := 0;
     REDISMODULE_ERR := 1 |}.

(** * Properties *)

(** ** The heap primitives *)

(** An allocation returns a fresh address, never NULL. *)
Lemma malloc_spec (h : heap) (b : block) :
  ∃ p, malloc h b = (<[p := b]> h, p) ∧ h !! p = None ∧ p ≠ NULL.
Proof.
  unfold malloc. set (p := fresh _). exists p. split; [done|].
  assert (Hp : p ∉ ({[NULL]} ∪ dom h : gset addr)) by apply is_fresh.
  split.
  - apply not_elem_of_dom. set_solver.
  - set_solver.
Qed.

Lemma load_node_store (h : heap) (p : addr) (n : QueryNode) :
  load_node (store_node h p n) p = Ok n.
Proof. unfold load_node, store_node. by rewrite lookup_insert_eq. Qed.

Lemma cstring_insert_ne (h : heap) (p q : addr) (b : block) :
  p ≠ q → cstring (<[p := b]> h) q = cstring h q.
Proof. intros. unfold cstring. by rewrite lookup_insert_ne. Qed.

Lemma cstring_live (h : heap) (p : addr) (s : string) :
  cstring h p = Ok s → h !! p = Some (BStr s).
Proof.
  unfold cstring. destruct (h !! p) as [[]|]; intros; simplify_eq; done.
Qed.

Lemma cstring_not_free (h : heap) (p q : addr) (s : string) :
  cstring h p = Ok s → h !! q = None → p ≠ q.
Proof. intros Hs Hq ->. apply cstring_live in Hs. congruence. Qed.

(** The string primitives on a live string. *)
Lemma strdup_spec (h : heap) (p : addr) (s : string) :
  cstring h p = Ok s →
  ∃ q, strdup h p = Ok (<[q := BStr s]> h, q) ∧ h !! q = None ∧ q ≠ NULL.
Proof.
  intros Hs. unfold strdup. rewrite Hs.
  destruct (malloc_spec h (BStr s)) as (q & Hq & ? & ?).
  exists q. cbn. by rewrite Hq.
Qed.

Lemma strlen_spec (h : heap) (p : addr) (s : string) :
  cstring h p = Ok s → strlen h p = Ok (String.length s).
Proof. intros Hs. unfold strlen. by rewrite Hs. Qed.

Lemma update_node_spec (h : heap) (p : addr) (n : QueryNode) (f : QueryNode → QueryNode) :
  h !! p = Some (BNode n) → update_node h p f = Ok (<[p := BNode (f n)]> h).
Proof. intros Hp. unfold update_node, load_node. by rewrite Hp. Qed.

(** A node written twice around the allocation of one of its strings. *)
Lemma heap_insert3 (h : heap) (p q : addr) (a b c : block) :
  <[p := a]> (<[q := b]> (<[p := c]> h)) = <[p := a]> (<[q := b]> h).
Proof.
  apply map_eq; intros i. rewrite !lookup_insert. repeat case_decide; congruence.
Qed.

(** ** Node construction *)

Section ConstructionFacts.

Context {resolver : FieldResolver}.

Lemma NewQueryNode_spec (h : heap) (ty : QueryNodeType) :
  ∃ p, NewQueryNode h ty =
         (<[p := BNode {| payload := zero_payload ty;
                          opts := mkOpts RS_FIELDMASK_ALL |}]> h, p)
       ∧ h !! p = None ∧ p ≠ NULL.
Proof. apply malloc_spec. Qed.

Lemma scope_to_field_spec (h : heap) (sp : IndexSpec) (ret fieldName : addr)
    (name : string) (n : QueryNode) :
  cstring h fieldName = Ok name → h !! ret = Some (BNode n) →
  scope_to_field h sp ret fieldName =
    Ok (<[ret := BNode (set_fieldMask n
                          (IndexSpec_GetFieldBit sp name (String.length name)))]> h).
Proof.
  intros Hs Hn. unfold scope_to_field. rewrite Hs. cbn.
  rewrite (strlen_spec _ _ _ Hs). cbn. exact (update_node_spec h ret n _ Hn).
Qed.

(** The steps the constructors share: allocate the string copy, then
    write the payload and the mask. *)
Ltac copy_string src text :=
  match goal with |- context [strdup ?hh src] =>
    let str := fresh "str" in
    destruct (strdup_spec hh src text) as (str & -> & ? & ?);
      [by rewrite cstring_insert_ne|] end.


Lemma RS_CreateTokenNode_spec (h : heap) (sp : IndexSpec) (fieldName token : addr)
    (text name : string) :
  cstring h token = Ok text →
  (fieldName ≠ NULL → cstring h fieldName = Ok name) →
  ∃ ret str,
    RS_CreateTokenNode h sp fieldName token =
      Ok (<[ret := BNode {| payload := tn (mkToken str (String.length text) 0 0);
                            opts := mkOpts (scoped_mask sp fieldName name) |}]>
            (<[str := BStr text]> h), ret)
    ∧ h !! ret = None ∧ h !! str = None ∧ ret ≠ str ∧ ret ≠ NULL ∧ str ≠ NULL.
Proof.
  intros Htok Hfld. unfold RS_CreateTokenNode, scoped_mask.
  destruct (NewQueryNode_spec h QN_TOKEN) as (ret & -> & Hret & Hret0).
  pose proof (cstring_not_free _ _ _ _ Htok Hret) as Htr.
  copy_string token text. cbn.
  match goal with H : <[ret:=_]> h !! str = None |- _ =>
    apply lookup_insert_None in H as [Hstr Hrs] end.
  pose proof (cstring_not_free _ _ _ _ Htok Hstr) as Hts.
  rewrite (strlen_spec _ _ text) by (by rewrite !cstring_insert_ne). cbn.
  erewrite update_node_spec by (rewrite lookup_insert_ne by done; apply lookup_insert_eq).
  cbn. rewrite heap_insert3. exists ret, str.
  destruct (decide (fieldName = NULL)) as [->|Hf]; [done|].
  specialize (Hfld Hf).
  pose proof (cstring_not_free _ _ _ _ Hfld Hret).
  pose proof (cstring_not_free _ _ _ _ Hfld Hstr).
  erewrite scope_to_field_spec; [| |apply lookup_insert_eq].
  2:{ rewrite !cstring_insert_ne by done. exact Hfld. }
  cbn. rewrite insert_insert_eq. done.
Qed.

Lemma RS_CreatePrefixNode_spec (h : heap) (sp : IndexSpec) (fieldName s : addr)
    (text name : string) :
  cstring h s = Ok text →
  (fieldName ≠ NULL → cstring h fieldName = Ok name) →
  ∃ ret str,
    RS_CreatePrefixNode h sp fieldName s =
      Ok (<[ret := BNode {| payload := pfx (mkToken str (String.length text) 0 0);
                            opts := mkOpts (scoped_mask sp fieldName name) |}]>
            (<[str := BStr text]> h), ret)
    ∧ h !! ret = None ∧ h !! str = None ∧ ret ≠ str ∧ ret ≠ NULL ∧ str ≠ NULL.
Proof.
  intros Htok Hfld. unfold RS_CreatePrefixNode, scoped_mask.
  destruct (NewQueryNode_spec h QN_PREFX) as (ret & -> & Hret & Hret0).
  pose proof (cstring_not_free _ _ _ _ Htok Hret) as Htr.
  copy_string s text. cbn.
  match goal with H : <[ret:=_]> h !! str = None |- _ =>
    apply lookup_insert_None in H as [Hstr Hrs] end.
  pose proof (cstring_not_free _ _ _ _ Htok Hstr) as Hts.
  rewrite (strlen_spec _ _ text) by (by rewrite !cstring_insert_ne). cbn.
  erewrite update_node_spec by (rewrite lookup_insert_ne by done; apply lookup_insert_eq).
  cbn. rewrite heap_insert3. exists ret, str.
  destruct (decide (fieldName = NULL)) as [->|Hf]; [done|].
  specialize (Hfld Hf).
  pose proof (cstring_not_free _ _ _ _ Hfld Hret).
  pose proof (cstring_not_free _ _ _ _ Hfld Hstr).
  erewrite scope_to_field_spec; [| |apply lookup_insert_eq].
  2:{ rewrite !cstring_insert_ne by done. exact Hfld. }
  cbn. rewrite insert_insert_eq. done.
Qed.

Lemma RS_CreateNumericNode_spec (h : heap) (sp : IndexSpec) (field : addr)
    (name : string) (max min : float) (includeMax includeMin : Z) :
  cstring h field = Ok name →
  ∃ ret str,
    RS_CreateNumericNode h sp field max min includeMax includeMin =
      Ok (<[ret := BNode {| payload := nn (mkNumericFilter str min max includeMin includeMax);
                            opts := mkOpts (IndexSpec_GetFieldBit sp name (String.length name)) |}]>
            (<[str := BStr name]> h), ret)
    ∧ h !! ret = None ∧ h !! str = None ∧ ret ≠ str ∧ ret ≠ NULL ∧ str ≠ NULL.
Proof.
  intros Hfld. unfold RS_CreateNumericNode.
  destruct (NewQueryNode_spec h QN_NUMERIC) as (ret & -> & Hret & Hret0).
  erewrite update_node_spec by apply lookup_insert_eq. cbn.
  rewrite insert_insert_eq.
  pose proof (cstring_not_free _ _ _ _ Hfld Hret) as Hfr.
  copy_string field name. cbn.
  match goal with H : <[ret:=_]> h !! str = None |- _ =>
    apply lookup_insert_None in H as [Hstr Hrs] end.
  pose proof (cstring_not_free _ _ _ _ Hfld Hstr) as Hfs.
  erewrite update_node_spec by (rewrite lookup_insert_ne by done; apply lookup_insert_eq).
  cbn. rewrite heap_insert3.
  erewrite scope_to_field_spec; [| |apply lookup_insert_eq].
  2:{ rewrite !cstring_insert_ne by done. exact Hfld. }
  cbn. rewrite insert_insert_eq. exists ret, str. done.
Qed.

Lemma RS_CreateTagNode_spec (h : heap) (sp : IndexSpec) (field : addr) (name : string) :
  cstring h field = Ok name →
  ∃ ret str,
    RS_CreateTagNode h sp field =
      Ok (<[ret := BNode {| payload := tag (mkTag str (String.length name) 0 []);
                            opts := mkOpts (IndexSpec_GetFieldBit sp name (String.length name)) |}]>
            (<[str := BStr name]> h), ret)
    ∧ h !! ret = None ∧ h !! str = None ∧ ret ≠ str ∧ ret ≠ NULL ∧ str ≠ NULL.
Proof.
  intros Hfld. unfold RS_CreateTagNode.
  destruct (NewQueryNode_spec h QN_TAG) as (ret & -> & Hret & Hret0).
  pose proof (cstring_not_free _ _ _ _ Hfld Hret) as Hfr.
  copy_string field name. cbn.
  match goal with H : <[ret:=_]> h !! str = None |- _ =>
    apply lookup_insert_None in H as [Hstr Hrs] end.
  pose proof (cstring_not_free _ _ _ _ Hfld Hstr) as Hfs.
  rewrite (strlen_spec _ _ name) by (by rewrite !cstring_insert_ne). cbn.
  erewrite update_node_spec by (rewrite lookup_insert_ne by done; apply lookup_insert_eq).
  cbn. rewrite heap_insert3.
  erewrite scope_to_field_spec; [| |apply lookup_insert_eq].
  2:{ rewrite !cstring_insert_ne by done. exact Hfld. }
  cbn. rewrite insert_insert_eq. exists ret, str. done.
Qed.

(** C5: [RS_CreateTokenNode] stores a fresh copy of the text, never the
    caller's pointer, and leaves the caller's string in place; the node's
    field mask is the bit the resolver gives for the field name when one is
    supplied and the all-fields mask when it is NULL.  [RS_CreatePrefixNode]
    does the same. *)
Theorem RS_CreateTokenNode_copies_and_scopes (h : heap) (sp : IndexSpec)
    (fieldName token : addr) (text name : string) :
  cstring h token = Ok text →
  (fieldName ≠ NULL → cstring h fieldName = Ok name) →
  (∃ h' ret str,
     RS_CreateTokenNode h sp fieldName token = Ok (h', ret)
     ∧ load_node h' ret = Ok {| payload := tn (mkToken str (String.length text) 0 0);
                                opts := mkOpts (scoped_mask sp fieldName name) |}
     ∧ str ≠ token ∧ h !! str = None
     ∧ cstring h' str = Ok text ∧ cstring h' token = Ok text)
  ∧ (∃ h' ret str,
     RS_CreatePrefixNode h sp fieldName token = Ok (h', ret)
     ∧ load_node h' ret = Ok {| payload := pfx (mkToken str (String.length text) 0 0);
                                opts := mkOpts (scoped_mask sp fieldName name) |}
     ∧ str ≠ token ∧ h !! str = None
     ∧ cstring h' str = Ok text ∧ cstring h' token = Ok text).
Proof.
  intros Htok Hfld. split.
  - destruct (RS_CreateTokenNode_spec h sp fieldName token text name Htok Hfld)
      as (ret & str & -> & Hret & Hstr & Hne & _).
    pose proof (cstring_not_free _ _ _ _ Htok Hret).
    pose proof (cstring_not_free _ _ _ _ Htok Hstr).
    eexists _, ret, str. split; [reflexivity|].
    unfold load_node. rewrite lookup_insert_eq.
    repeat split; try done.
    + unfold cstring. rewrite lookup_insert_ne, lookup_insert_eq; done.
    + rewrite !cstring_insert_ne; done.
  - destruct (RS_CreatePrefixNode_spec h sp fieldName token text name Htok Hfld)
      as (ret & str & -> & Hret & Hstr & Hne & _).
    pose proof (cstring_not_free _ _ _ _ Htok Hret).
    pose proof (cstring_not_free _ _ _ _ Htok Hstr).
    eexists _, ret, str. split; [reflexivity|].
    unfold load_node. rewrite lookup_insert_eq.
    repeat split; try done.
    + unfold cstring. rewrite lookup_insert_ne, lookup_insert_eq; done.
    + rewrite !cstring_insert_ne; done.
Qed.

(** C4, amended: [RS_CreateNumericNode] takes the upper bound before the
    lower one, (sp, field, max, min, includeMax, includeMin), and builds a
    filter with exactly those bounds and flags; a value matches when it
    lies between them, a bound being admitted when its flag is set. *)
Theorem RS_CreateNumericNode_bounds (h : heap) (sp : IndexSpec) (field : addr)
    (name : string) (max min : float) (includeMax includeMin : Z) :
  cstring h field = Ok name →
  ∃ h' ret nf o,
    RS_CreateNumericNode h sp field max min includeMax includeMin = Ok (h', ret)
    ∧ load_node h' ret = Ok {| payload := nn nf; opts := o |}
    ∧ nf_min nf = min ∧ nf_max nf = max
    ∧ inclusiveMin nf = includeMin ∧ inclusiveMax nf = includeMax
    ∧ ∀ score, NumericFilter_Match nf score =
        (if bool_decide (includeMin ≠ 0%Z) then PrimFloat.leb min score
         else PrimFloat.ltb min score)
        && (if bool_decide (includeMax ≠ 0%Z) then PrimFloat.leb score max
            else PrimFloat.ltb score max).
Proof.
  intros Hfld.
  destruct (RS_CreateNumericNode_spec h sp field name max min includeMax includeMin Hfld)
    as (ret & str & -> & _).
  eexists _, ret, _, _. split; [reflexivity|].
  unfold load_node. rewrite lookup_insert_eq. split; [reflexivity|]. done.
Qed.

(** C3, amended: no constructor has a failure path.  For every field name,
    whether or not the schema has such a field, each returns a node of its
    variant whose field mask is what the resolver returned for the name. *)
Theorem constructors_return_node_for_any_field (h : heap) (sp : IndexSpec)
    (field token : addr) (name text : string) (max min : float)
    (includeMax includeMin : Z) :
  cstring h field = Ok name →
  cstring h token = Ok text →
  field ≠ NULL →
  (∃ h' ret n,
     RS_CreateNumericNode h sp field max min includeMax includeMin = Ok (h', ret)
     ∧ ret ≠ NULL ∧ load_node h' ret = Ok n ∧ type n = QN_NUMERIC
     ∧ fieldMask (opts n) = IndexSpec_GetFieldBit sp name (String.length name))
  ∧ (∃ h' ret n,
     RS_CreateTagNode h sp field = Ok (h', ret)
     ∧ ret ≠ NULL ∧ load_node h' ret = Ok n ∧ type n = QN_TAG
     ∧ fieldMask (opts n) = IndexSpec_GetFieldBit sp name (String.length name))
  ∧ (∃ h' ret n,
     RS_CreateTokenNode h sp field token = Ok (h', ret)
     ∧ ret ≠ NULL ∧ load_node h' ret = Ok n ∧ type n = QN_TOKEN
     ∧ fieldMask (opts n) = IndexSpec_GetFieldBit sp name (String.length name))
  ∧ (∃ h' ret n,
     RS_CreatePrefixNode h sp field token = Ok (h', ret)
     ∧ ret ≠ NULL ∧ load_node h' ret = Ok n ∧ type n = QN_PREFX
     ∧ fieldMask (opts n) = IndexSpec_GetFieldBit sp name (String.length name)).
Proof.
  intros Hfld Htok Hnn.
  assert (Hmask : scoped_mask sp field name
                  = IndexSpec_GetFieldBit sp name (String.length name)).
  { unfold scoped_mask. by rewrite decide_False. }
  repeat split.
  - destruct (RS_CreateNumericNode_spec h sp field name max min includeMax includeMin Hfld)
      as (ret & str & -> & _ & _ & _ & ? & _).
    eexists _, ret, _. split; [reflexivity|]. split; [done|].
    unfold load_node. rewrite lookup_insert_eq. done.
  - destruct (RS_CreateTagNode_spec h sp field name Hfld)
      as (ret & str & -> & _ & _ & _ & ? & _).
    eexists _, ret, _. split; [reflexivity|]. split; [done|].
    unfold load_node. rewrite lookup_insert_eq. done.
  - destruct (RS_CreateTokenNode_spec h sp field token text name Htok (λ _, Hfld))
      as (ret & str & -> & _ & _ & _ & ? & _).
    eexists _, ret, _. split; [reflexivity|]. split; [done|].
    unfold load_node. rewrite lookup_insert_eq. done.
  - destruct (RS_CreatePrefixNode_spec h sp field token text name Htok (λ _, Hfld))
      as (ret & str & -> & _ & _ & _ & ? & _).
    eexists _, ret, _. split; [reflexivity|]. split; [done|].
    unfold load_node. rewrite lookup_insert_eq. done.
Qed.

End ConstructionFacts.

(** The token "fox" scoped to the field "body". *)
Lemma RS_CreateTokenNode_copies_and_scopes_witness :
  cstring example_strings 11 = Ok "fox"
  ∧ (12 ≠ NULL → cstring example_strings 12 = Ok "body")
  ∧ (∃ h' ret str,
       RS_CreateTokenNode (resolver := example_resolver)
         example_strings example_schema 12 11 = Ok (h', ret)
       ∧ load_node h' ret = Ok {| payload := tn (mkToken str 3 0 0);
                                  opts := mkOpts 2 |}
       ∧ str ≠ 11 ∧ example_strings !! str = None
       ∧ cstring h' str = Ok "fox" ∧ cstring h' 11 = Ok "fox")
  ∧ (∃ h' ret str,
       RS_CreatePrefixNode (resolver := example_resolver)
         example_strings example_schema 12 11 = Ok (h', ret)
       ∧ load_node h' ret = Ok {| payload := pfx (mkToken str 3 0 0);
                                  opts := mkOpts 2 |}
       ∧ str ≠ 11 ∧ example_strings !! str = None
       ∧ cstring h' str = Ok "fox" ∧ cstring h' 11 = Ok "fox").
Proof.
  split; [reflexivity|]. split; [intros _; reflexivity|].
  apply (RS_CreateTokenNode_copies_and_scopes (resolver := example_resolver)
           example_strings example_schema 12 11 "fox" "body");
    [reflexivity | intros _; reflexivity].
Defined.

(** The scenario of the specification, with the arguments in the order of
    the code: max = 20 excluded, min = 10 included. *)
Lemma RS_CreateNumericNode_bounds_witness :
  cstring example_strings 10 = Ok "price"
  ∧ ∃ h' ret nf o,
      RS_CreateNumericNode (resolver := example_resolver)
        example_strings example_schema 10 20%float 10%float 0 1 = Ok (h', ret)
      ∧ load_node h' ret = Ok {| payload := nn nf; opts := o |}
      ∧ NumericFilter_Match nf 10%float = true
      ∧ NumericFilter_Match nf 20%float = false
      ∧ NumericFilter_Match nf 15%float = true.
Proof.
  split; [reflexivity|].
  destruct (RS_CreateNumericNode_bounds (resolver := example_resolver)
              example_strings example_schema 10 "price" 20%float 10%float 0 1 eq_refl)
    as (h' & ret & nf & o & Hcall & Hload & _ & _ & _ & _ & Hmatch).
  exists h', ret, nf, o. rewrite !Hmatch. repeat split; done.
Defined.

(** C4, as stated: with the arguments in the order the specification gives,
    (schema, fieldName, min = 10, max = 20, includeMin = 1, includeMax = 0),
    the node built excludes the value 10 and admits nothing at all. *)
Lemma RS_CreateNumericNode_spec_order_fails :
  ∃ h' ret nf o,
    RS_CreateNumericNode (resolver := example_resolver)
      example_strings example_schema 10 10%float 20%float 1 0 = Ok (h', ret)
    ∧ load_node h' ret = Ok {| payload := nn nf; opts := o |}
    ∧ nf_min nf = 20%float ∧ nf_max nf = 10%float
    ∧ NumericFilter_Match nf 10%float = false
    ∧ NumericFilter_Match nf 15%float = false.
Proof.
  destruct (RS_CreateNumericNode_spec (resolver := example_resolver)
              example_strings example_schema 10 "price" 10%float 20%float 1 0 eq_refl)
    as (ret & str & -> & _).
  eexists _, ret, _, _. split; [reflexivity|].
  unfold load_node. rewrite lookup_insert_eq. split; [reflexivity|]. done.
Qed.

(** The schema has no field "price", and the constructors build nodes on it. *)
Lemma constructors_return_node_for_any_field_witness :
  cstring example_strings 10 = Ok "price"
  ∧ cstring example_strings 11 = Ok "fox"
  ∧ 10 ≠ NULL
  ∧ resolves example_schema "price" = false
  ∧ (∃ h' ret n,
       RS_CreateNumericNode (resolver := example_resolver)
         example_strings example_schema 10 20%float 10%float 0 1 = Ok (h', ret)
       ∧ ret ≠ NULL ∧ load_node h' ret = Ok n ∧ type n = QN_NUMERIC
       ∧ fieldMask (opts n) = 0)
  ∧ (∃ h' ret n,
       RS_CreateTagNode (resolver := example_resolver)
         example_strings example_schema 10 = Ok (h', ret)
       ∧ ret ≠ NULL ∧ load_node h' ret = Ok n ∧ type n = QN_TAG
       ∧ fieldMask (opts n) = 0)
  ∧ (∃ h' ret n,
       RS_CreateTokenNode (resolver := example_resolver)
         example_strings example_schema 10 11 = Ok (h', ret)
       ∧ ret ≠ NULL ∧ load_node h' ret = Ok n ∧ type n = QN_TOKEN
       ∧ fieldMask (opts n) = 0)
  ∧ (∃ h' ret n,
       RS_CreatePrefixNode (resolver := example_resolver)
         example_strings example_schema 10 11 = Ok (h', ret)
       ∧ ret ≠ NULL ∧ load_node h' ret = Ok n ∧ type n = QN_PREFX
       ∧ fieldMask (opts n) = 0).
Proof.
  split; [reflexivity|]. split; [reflexivity|]. split; [done|]. split; [reflexivity|].
  apply (constructors_return_node_for_any_field (resolver := example_resolver)
           example_strings example_schema 10 11 "price" "fox" 20%float 10%float 0 1);
    [reflexivity | reflexivity | done].
Defined.

(** C3, as stated: "price" is not a field of the schema, and yet
    [RS_CreateNumericNode], [RS_CreateTagNode] and [RS_CreateTokenNode]
    each return a constructed node instead of a failure. *)
Lemma unresolvable_field_builds_node :
  resolves example_schema "price" = false
  ∧ (∃ h' ret n,
       RS_CreateNumericNode (resolver := example_resolver)
         example_strings example_schema 10 20%float 10%float 0 1 = Ok (h', ret)
       ∧ ret ≠ NULL ∧ load_node h' ret = Ok n ∧ type n = QN_NUMERIC)
  ∧ (∃ h' ret n,
       RS_CreateTagNode (resolver := example_resolver)
         example_strings example_schema 10 = Ok (h', ret)
       ∧ ret ≠ NULL ∧ load_node h' ret = Ok n ∧ type n = QN_TAG)
  ∧ (∃ h' ret n,
       RS_CreateTokenNode (resolver := example_resolver)
         example_strings example_schema 10 11 = Ok (h', ret)
       ∧ ret ≠ NULL ∧ load_node h' ret = Ok n ∧ type n = QN_TOKEN).
Proof.
  split; [reflexivity|]. repeat split.
  - destruct (RS_CreateNumericNode_spec (resolver := example_resolver)
                example_strings example_schema 10 "price" 20%float 10%float 0 1 eq_refl)
      as (ret & str & -> & _ & _ & _ & ? & _).
    eexists _, ret, _. split; [reflexivity|]. split; [done|].
    unfold load_node. rewrite lookup_insert_eq. done.
  - destruct (RS_CreateTagNode_spec (resolver := example_resolver)
                example_strings example_schema 10 "price" eq_refl)
      as (ret & str & -> & _ & _ & _ & ? & _).
    eexists _, ret, _. split; [reflexivity|]. split; [done|].
    unfold load_node. rewrite lookup_insert_eq. done.
  - destruct (RS_CreateTokenNode_spec (resolver := example_resolver)
                example_strings example_schema 10 11 "fox" "price" eq_refl (λ _, eq_refl))
      as (ret & str & -> & _ & _ & _ & ? & _).
    eexists _, ret, _. split; [reflexivity|]. split; [done|].
    unfold load_node. rewrite lookup_insert_eq. done.
Qed.

(** ** Children of the container nodes *)

(** Reading a live node. *)
Lemma load_node_live (h : heap) (p : addr) (n : QueryNode) :
  h !! p = Some (BNode n) → load_node h p = Ok n.
Proof. intros Hp. unfold load_node. by rewrite Hp. Qed.

Lemma RS_UnionNodeAddChild_spec (h : heap) (qn child : addr) (n : QueryNode)
    (u : QueryUnionNode) :
  h !! qn = Some (BNode n) → payload n = un u →
  RS_UnionNodeAddChild h qn child =
    Ok (<[qn := BNode (set_payload n
          (un {| un_children := take (un_numChildren u) (un_children u) ++ [child];
                 un_numChildren := S (un_numChildren u) |}))]> h).
Proof.
  intros Hn Hu. unfold RS_UnionNodeAddChild, QueryUnionNode_AddChild.
  rewrite (load_node_live _ _ _ Hn). cbn. unfold type. rewrite Hu. cbn. done.
Qed.

Lemma RS_IntersectNodeAddChild_spec (h : heap) (qn child : addr) (n : QueryNode)
    (p : QueryPhraseNode) :
  h !! qn = Some (BNode n) → payload n = pn p →
  RS_IntersectNodeAddChild h qn child =
    Ok (<[qn := BNode (set_payload n
          (pn {| pn_children := take (pn_numChildren p) (pn_children p) ++ [child];
                 pn_numChildren := S (pn_numChildren p);
                 pn_exact := pn_exact p |}))]> h).
Proof.
  intros Hn Hu. unfold RS_IntersectNodeAddChild, QueryPhraseNode_AddChild.
  rewrite (load_node_live _ _ _ Hn). cbn. rewrite Hu. done.
Qed.

(** Appending [cs] one by one extends the cells in use by [cs]. *)
Lemma union_add_children (cs : list addr) :
  ∀ (h : heap) (qn : addr) (n : QueryNode) (u : QueryUnionNode),
  h !! qn = Some (BNode n) → payload n = un u →
  ∃ h' u',
    foldM (λ h c, RS_UnionNodeAddChild h qn c) cs h = Ok h'
    ∧ h' !! qn = Some (BNode (set_payload n (un u')))
    ∧ un_numChildren u' = (un_numChildren u + length cs)%nat
    ∧ take (un_numChildren u') (un_children u')
      = take (un_numChildren u) (un_children u) ++ cs
    ∧ ∀ q, q ≠ qn → h' !! q = h !! q.
Proof.
  induction cs as [|c cs IH]; intros h qn n u Hn Hu.
  - exists h, u. cbn. rewrite app_nil_r, Nat.add_0_r.
    repeat split; try done.
    rewrite Hn. destruct n as [pl o]. cbn in *. by subst.
  - cbn [foldM]. rewrite (RS_UnionNodeAddChild_spec h qn c n u Hn Hu). cbn.
    set (u1 := {| un_children := take (un_numChildren u) (un_children u) ++ [c];
                  un_numChildren := S (un_numChildren u) |}).
    destruct (IH (<[qn := BNode (set_payload n (un u1))]> h) qn (set_payload n (un u1)) u1
                (lookup_insert_eq _ _ _) eq_refl)
      as (h' & u' & -> & Hq & Hnum & Htake & Hframe).
    exists h', u'.
    assert (Ht : take (un_numChildren u1) (un_children u1) = un_children u1).
    { apply take_ge. unfold u1. cbn. rewrite length_app, length_take. cbn. lia. }
    rewrite Ht in Htake. cbn in *.
    repeat split.
    + done.
    + lia.
    + by rewrite Htake, <- app_assoc.
    + intros q Hq'. rewrite Hframe by done. by rewrite lookup_insert_ne.
Qed.

Lemma intersect_add_children (cs : list addr) :
  ∀ (h : heap) (qn : addr) (n : QueryNode) (p : QueryPhraseNode),
  h !! qn = Some (BNode n) → payload n = pn p →
  ∃ h' p',
    foldM (λ h c, RS_IntersectNodeAddChild h qn c) cs h = Ok h'
    ∧ h' !! qn = Some (BNode (set_payload n (pn p')))
    ∧ pn_numChildren p' = (pn_numChildren p + length cs)%nat
    ∧ take (pn_numChildren p') (pn_children p')
      = take (pn_numChildren p) (pn_children p) ++ cs
    ∧ ∀ q, q ≠ qn → h' !! q = h !! q.
Proof.
  induction cs as [|c cs IH]; intros h qn n p Hn Hp.
  - exists h, p. cbn. rewrite app_nil_r, Nat.add_0_r.
    repeat split; try done.
    rewrite Hn. destruct n as [pl o]. cbn in *. by subst.
  - cbn [foldM]. rewrite (RS_IntersectNodeAddChild_spec h qn c n p Hn Hp). cbn.
    set (p1 := {| pn_children := take (pn_numChildren p) (pn_children p) ++ [c];
                  pn_numChildren := S (pn_numChildren p);
                  pn_exact := pn_exact p |}).
    destruct (IH (<[qn := BNode (set_payload n (pn p1))]> h) qn (set_payload n (pn p1)) p1
                (lookup_insert_eq _ _ _) eq_refl)
      as (h' & p' & -> & Hq & Hnum & Htake & Hframe).
    exists h', p'.
    assert (Ht : take (pn_numChildren p1) (pn_children p1) = pn_children p1).
    { apply take_ge. unfold p1. cbn. rewrite length_app, length_take. cbn. lia. }
    rewrite Ht in Htake. cbn in *.
    repeat split.
    + done.
    + lia.
    + by rewrite Htake, <- app_assoc.
    + intros q Hq'. rewrite Hframe by done. by rewrite lookup_insert_ne.
Qed.

(** The count and the child at an index, on a node of the right variant. *)
Lemma RS_UnionNodeGetNumChildren_spec (h : heap) (qn : addr) (n : QueryNode)
    (u : QueryUnionNode) :
  h !! qn = Some (BNode n) → payload n = un u →
  RS_UnionNodeGetNumChildren h qn = Ok (un_numChildren u).
Proof.
  intros Hn Hu. unfold RS_UnionNodeGetNumChildren.
  rewrite (load_node_live _ _ _ Hn). cbn. unfold type. rewrite Hu. done.
Qed.

Lemma RS_IntersectNodeGetNumChildren_spec (h : heap) (qn : addr) (n : QueryNode)
    (p : QueryPhraseNode) :
  h !! qn = Some (BNode n) → payload n = pn p →
  RS_IntersectNodeGetNumChildren h qn = Ok (pn_numChildren p).
Proof.
  intros Hn Hu. unfold RS_IntersectNodeGetNumChildren.
  rewrite (load_node_live _ _ _ Hn). cbn. unfold type. rewrite Hu. done.
Qed.

Lemma RS_UnionNodeGetChild_spec (h : heap) (qn : addr) (n : QueryNode)
    (u : QueryUnionNode) (i : nat) :
  h !! qn = Some (BNode n) → payload n = un u →
  RS_UnionNodeGetChild h qn i =
    if decide (i < un_numChildren u)%nat
    then match un_children u !! i with Some c => Ok c | None => Undefined end
    else AssertFail.
Proof.
  intros Hn Hu. unfold RS_UnionNodeGetChild.
  rewrite (load_node_live _ _ _ Hn). cbn. unfold type. rewrite Hu. cbn.
  rewrite (bool_decide_true (0 ≤ i)%nat) by lia. cbn.
  case_decide.
  - rewrite bool_decide_true by done. done.
  - rewrite bool_decide_false by done. done.
Qed.

Lemma RS_IntersectNodeGetChild_spec (h : heap) (qn : addr) (n : QueryNode)
    (p : QueryPhraseNode) (i : nat) :
  h !! qn = Some (BNode n) → payload n = pn p →
  RS_IntersectNodeGetChild h qn i =
    if decide (i < pn_numChildren p)%nat
    then match pn_children p !! i with Some c => Ok c | None => Undefined end
    else AssertFail.
Proof.
  intros Hn Hu. unfold RS_IntersectNodeGetChild.
  rewrite (load_node_live _ _ _ Hn). cbn. unfold type. rewrite Hu. cbn.
  rewrite (bool_decide_true (0 ≤ i)%nat) by lia. cbn.
  case_decide.
  - rewrite bool_decide_true by done. done.
  - rewrite bool_decide_false by done. done.
Qed.

(** Reading cell [i] of an array whose cells in use are exactly [cs]. *)
Lemma child_lookup (cs children : list addr) (num i : nat) :
  num = length cs → take num children = cs →
  (if decide (i < num)%nat
   then match children !! i with Some c => Ok c | None => Undefined end
   else AssertFail)
  = match cs !! i with Some c => Ok c | None => AssertFail end.
Proof.
  intros Hnum Htake.
  assert (Hl : length (take num children) = length cs) by (by rewrite Htake).
  rewrite length_take in Hl.
  case_decide as Hi.
  - assert (Hci : cs !! i = children !! i).
    { rewrite <- Htake. apply lookup_take_lt. lia. }
    rewrite Hci. destruct (children !! i) eqn:E; [done|].
    apply lookup_ge_None in E. lia.
  - rewrite lookup_ge_None_2; [done|lia].
Qed.

(** C7: on a Union or Phrase node that holds no child, after N children
    were added the count is N, [GetChild i] is the i-th child added for
    every i below N, and any other index fails the bounds assertion. *)
Theorem children_in_insertion_order (h : heap) (qn : addr) (n : QueryNode)
    (cs : list addr) :
  h !! qn = Some (BNode n) →
  (∀ u, payload n = un u → un_numChildren u = 0%nat →
     ∃ h', foldM (λ h c, RS_UnionNodeAddChild h qn c) cs h = Ok h'
       ∧ RS_UnionNodeGetNumChildren h' qn = Ok (length cs)
       ∧ ∀ i, RS_UnionNodeGetChild h' qn i =
              match cs !! i with Some c => Ok c | None => AssertFail end)
  ∧ (∀ p, payload n = pn p → pn_numChildren p = 0%nat →
     ∃ h', foldM (λ h c, RS_IntersectNodeAddChild h qn c) cs h = Ok h'
       ∧ RS_IntersectNodeGetNumChildren h' qn = Ok (length cs)
       ∧ ∀ i, RS_IntersectNodeGetChild h' qn i =
              match cs !! i with Some c => Ok c | None => AssertFail end).
Proof.
  intros Hn. split.
  - intros u Hu H0.
    destruct (union_add_children cs h qn n u Hn Hu)
      as (h' & u' & Hrun & Hq & Hnum & Htake & _).
    rewrite H0 in Hnum, Htake. rewrite take_0 in Htake. cbn in Hnum, Htake.
    exists h'. split; [done|]. split.
    + rewrite (RS_UnionNodeGetNumChildren_spec _ _ _ u' Hq eq_refl). by rewrite Hnum.
    + intros i. rewrite (RS_UnionNodeGetChild_spec _ _ _ u' i Hq eq_refl).
      by apply child_lookup.
  - intros p Hp H0.
    destruct (intersect_add_children cs h qn n p Hn Hp)
      as (h' & p' & Hrun & Hq & Hnum & Htake & _).
    rewrite H0 in Hnum, Htake. rewrite take_0 in Htake. cbn in Hnum, Htake.
    exists h'. split; [done|]. split.
    + rewrite (RS_IntersectNodeGetNumChildren_spec _ _ _ p' Hq eq_refl). by rewrite Hnum.
    + intros i. rewrite (RS_IntersectNodeGetChild_spec _ _ _ p' i Hq eq_refl).
      by apply child_lookup.
Qed.

(** Three children added to the empty Union at 7 and to the empty Phrase at 8. *)
Lemma children_in_insertion_order_witness :
  example_tree !! 7 = Some (BNode (example_container (un (mkUnion [] 0))))
  ∧ example_tree !! 8 = Some (BNode (example_container (pn (mkPhrase [] 0 0))))
  ∧ (∃ h', foldM (λ h c, RS_UnionNodeAddChild h 7 c) [1; 2; 6] example_tree = Ok h'
       ∧ RS_UnionNodeGetNumChildren h' 7 = Ok 3%nat
       ∧ ∀ i, RS_UnionNodeGetChild h' 7 i =
              match [1; 2; 6] !! i with Some c => Ok c | None => AssertFail end)
  ∧ (∃ h', foldM (λ h c, RS_IntersectNodeAddChild h 8 c) [1; 2; 6] example_tree = Ok h'
       ∧ RS_IntersectNodeGetNumChildren h' 8 = Ok 3%nat
       ∧ ∀ i, RS_IntersectNodeGetChild h' 8 i =
              match [1; 2; 6] !! i with Some c => Ok c | None => AssertFail end).
Proof.
  split; [reflexivity|]. split; [reflexivity|]. split.
  - exact (proj1 (children_in_insertion_order example_tree 7 _ [1; 2; 6] eq_refl)
             _ eq_refl eq_refl).
  - exact (proj2 (children_in_insertion_order example_tree 8 _ [1; 2; 6] eq_refl)
             _ eq_refl eq_refl).
Defined.

(** C8: clearing a Union or Phrase node only resets its count.  The call
    returns a heap with the same live blocks, in which the node has count 0
    and the same child array, options and other payload, and every other
    block, the detached children among them, is what it was. *)
Theorem clearChildren_only_resets_count (h : heap) (qn : addr) (n : QueryNode) :
  h !! qn = Some (BNode n) →
  (∀ u, payload n = un u →
     ∃ h', RS_UnionNodeClearChildren h qn = Ok h'
       ∧ h' !! qn = Some (BNode {| payload := un (mkUnion (un_children u) 0);
                                   opts := opts n |})
       ∧ RS_UnionNodeGetNumChildren h' qn = Ok 0%nat
       ∧ dom h' = dom h
       ∧ ∀ q, q ≠ qn → h' !! q = h !! q)
  ∧ (∀ p, payload n = pn p →
     ∃ h', RS_IntersectNodeClearChildren h qn = Ok h'
       ∧ h' !! qn = Some (BNode {| payload := pn (mkPhrase (pn_children p) 0 (pn_exact p));
                                   opts := opts n |})
       ∧ RS_IntersectNodeGetNumChildren h' qn = Ok 0%nat
       ∧ dom h' = dom h
       ∧ ∀ q, q ≠ qn → h' !! q = h !! q).
Proof.
  intros Hn.
  assert (Hdom : ∀ b, dom (<[qn := b]> h) = dom h).
  { intros b. apply dom_insert_lookup_L. by eexists. }
  split.
  - intros u Hu. eexists. unfold RS_UnionNodeClearChildren.
    rewrite (load_node_live _ _ _ Hn). cbn. unfold type. rewrite Hu. cbn.
    split; [reflexivity|]. unfold store_node, set_payload. cbn.
    split; [apply lookup_insert_eq|]. split; [|split].
    + by apply (RS_UnionNodeGetNumChildren_spec _ qn
                  {| payload := un (mkUnion (un_children u) 0); opts := opts n |}
                  (mkUnion (un_children u) 0)); [apply lookup_insert_eq|].
    + apply Hdom.
    + intros q Hq. by rewrite lookup_insert_ne.
  - intros p Hp. eexists. unfold RS_IntersectNodeClearChildren.
    rewrite (load_node_live _ _ _ Hn). cbn. unfold type. rewrite Hp. cbn.
    split; [reflexivity|]. unfold store_node, set_payload. cbn.
    split; [apply lookup_insert_eq|]. split; [|split].
    + by apply (RS_IntersectNodeGetNumChildren_spec _ qn
                  {| payload := pn (mkPhrase (pn_children p) 0 (pn_exact p));
                     opts := opts n |}
                  (mkPhrase (pn_children p) 0 (pn_exact p))); [apply lookup_insert_eq|].
    + apply Hdom.
    + intros q Hq. by rewrite lookup_insert_ne.
Qed.

(** The Union at 3 and the Phrase at 5 are cleared; their children, the
    tokens at 1, 2 and 6, stay live and unchanged. *)
Lemma clearChildren_only_resets_count_witness :
  example_tree !! 3 = Some (BNode (example_container (un (mkUnion [1; 2] 2))))
  ∧ example_tree !! 5 = Some (BNode (example_container (pn (mkPhrase [6] 1 0))))
  ∧ (∃ h', RS_UnionNodeClearChildren example_tree 3 = Ok h'
       ∧ h' !! 3 = Some (BNode (example_container (un (mkUnion [1; 2] 0))))
       ∧ RS_UnionNodeGetNumChildren h' 3 = Ok 0%nat
       ∧ dom h' = dom example_tree
       ∧ ∀ q, q ≠ 3 → h' !! q = example_tree !! q)
  ∧ (∃ h', RS_IntersectNodeClearChildren example_tree 5 = Ok h'
       ∧ h' !! 5 = Some (BNode (example_container (pn (mkPhrase [6] 0 0))))
       ∧ RS_IntersectNodeGetNumChildren h' 5 = Ok 0%nat
       ∧ dom h' = dom example_tree
       ∧ ∀ q, q ≠ 5 → h' !! q = example_tree !! q).
Proof.
  split; [reflexivity|]. split; [reflexivity|]. split.
  - exact (proj1 (clearChildren_only_resets_count example_tree 3 _ eq_refl) _ eq_refl).
  - exact (proj2 (clearChildren_only_resets_count example_tree 5 _ eq_refl) _ eq_refl).
Defined.

(** The operations that do check the type tag: on a node of another
    variant each fails its assertion. *)
Lemma union_operations_guarded (h : heap) (qn child : addr) (n : QueryNode) (i : nat) :
  h !! qn = Some (BNode n) → type n ≠ QN_UNION →
  RS_UnionNodeAddChild h qn child = AssertFail
  ∧ RS_UnionNodeClearChildren h qn = AssertFail
  ∧ RS_UnionNodeGetNumChildren h qn = AssertFail
  ∧ RS_UnionNodeGetChild h qn i = AssertFail.
Proof.
  intros Hn Hty.
  unfold RS_UnionNodeAddChild, RS_UnionNodeClearChildren,
    RS_UnionNodeGetNumChildren, RS_UnionNodeGetChild.
  rewrite (load_node_live _ _ _ Hn). cbn.
  rewrite bool_decide_false by done. done.
Qed.

Lemma intersect_operations_guarded (h : heap) (qn : addr) (n : QueryNode) (i : nat) :
  h !! qn = Some (BNode n) → type n ≠ QN_PHRASE →
  RS_IntersectNodeClearChildren h qn = AssertFail
  ∧ RS_IntersectNodeGetNumChildren h qn = AssertFail
  ∧ RS_IntersectNodeGetChild h qn i = AssertFail.
Proof.
  intros Hn Hty.
  unfold RS_IntersectNodeClearChildren, RS_IntersectNodeGetNumChildren,
    RS_IntersectNodeGetChild.
  rewrite (load_node_live _ _ _ Hn). cbn.
  rewrite bool_decide_false by done. done.
Qed.

(** The two entry points that hand the node to the append helper as it is:
    no call of theirs ends in a failed assertion. *)
Lemma add_child_entry_points_never_assert (h : heap) (qn child : addr) :
  RS_IntersectNodeAddChild h qn child ≠ AssertFail
  ∧ RS_TagNodeAddChild h qn child ≠ AssertFail.
Proof.
  unfold RS_IntersectNodeAddChild, QueryPhraseNode_AddChild,
    RS_TagNodeAddChild, QueryTagNode_AddChildren, load_node.
  split; destruct (h !! qn) as [[[[] ?]|]|]; done.
Qed.

(** C6, at the failing input: address 1 holds a Token node.  The Union
    entry point rejects it by its assertion; the Phrase and Tag entry
    points do not, and go on to read a payload the node does not have. *)
Theorem add_child_guard_missing :
  (type <$> example_tree !! 1 ≫= (λ b, match b with BNode n => Some n | _ => None end))
    = Some QN_TOKEN
  ∧ RS_UnionNodeAddChild example_tree 1 6 = AssertFail
  ∧ RS_IntersectNodeAddChild example_tree 1 6 = Undefined
  ∧ RS_TagNodeAddChild example_tree 1 6 = Undefined.
Proof. repeat split. Qed.

(** ** Freeing a tree *)

(** Unfolding the monad. *)
Lemma foldM_cons {A S : Type} (f : S → A → outcome S) (a : A) (l : list A) (s : S) :
  foldM f (a :: l) s = f s a ≫= foldM f l.
Proof. reflexivity. Qed.

Lemma bind_Ok {A B : Type} (a : A) (f : A → outcome B) : Ok a ≫= f = f a.
Proof. reflexivity. Qed.

(** Lookup in a heap some blocks were dropped from. *)
Lemma lookup_drop_blocks (X : list addr) (h : heap) (a : addr) :
  drop_blocks X h !! a = if decide (a ∈ X) then None else h !! a.
Proof.
  unfold drop_blocks. case_decide.
  - by apply lookup_foldr_delete.
  - by apply lookup_foldr_delete_not_elem_of.
Qed.

Lemma drop_blocks_snoc (X : list addr) (h : heap) (a : addr) :
  delete a (drop_blocks X h) = drop_blocks (X ++ [a]) h.
Proof.
  apply map_eq; intros i. rewrite lookup_delete, !lookup_drop_blocks.
  destruct (decide (a = i)) as [->|].
  - rewrite decide_True; [done|]. apply elem_of_app. right. apply list_elem_of_singleton. done.
  - destruct (decide (i ∈ X)).
    + rewrite decide_True; [done|]. apply elem_of_app. by left.
    + rewrite decide_False; [done|]. rewrite elem_of_app, list_elem_of_singleton.
      by intros [?|?].
Qed.

(** Freeing one more live block. *)
Lemma free_live (X : list addr) (h0 : heap) (a : addr) :
  a ≠ NULL → a ∉ X → is_Some (h0 !! a) →
  free (drop_blocks X h0) a = Ok (drop_blocks (X ++ [a]) h0).
Proof.
  intros Hnn HX [b Hb]. unfold free.
  rewrite decide_False by done.
  rewrite lookup_drop_blocks, decide_False, Hb by done.
  by rewrite drop_blocks_snoc.
Qed.

Lemma string_block_free (X : list addr) (h0 : heap) (s : addr) (k : list addr) :
  string_block h0 s = Some k → (∀ a, a ∈ k → a ∉ X) →
  free (drop_blocks X h0) s = Ok (drop_blocks (X ++ k) h0).
Proof.
  unfold string_block. intros Hs HX.
  destruct (decide (s = NULL)) as [->|Hnn].
  - simplify_eq. by rewrite app_nil_r.
  - destruct (h0 !! s) as [[|str]|] eqn:Hlk; simplify_eq.
    apply free_live; [done| |by eexists].
    apply HX. by apply list_elem_of_singleton.
Qed.

(** Releasing a list of trees, or of strings, whose blocks are disjoint. *)
Lemma free_each (h0 : heap) (f : heap → addr → outcome heap)
    (g : addr → option (list addr)) (ps : list addr) :
  (∀ p k X, p ∈ ps → g p = Some k → NoDup k → (∀ a, a ∈ k → a ∉ X) →
     f (drop_blocks X h0) p = Ok (drop_blocks (X ++ k) h0)) →
  ∀ (ks : list (list addr)) (X : list addr),
  Forall2 (λ p k, g p = Some k) ps ks →
  NoDup (concat ks) →
  (∀ a, a ∈ concat ks → a ∉ X) →
  foldM f ps (drop_blocks X h0) = Ok (drop_blocks (X ++ concat ks) h0).
Proof.
  induction ps as [|p ps IH]; intros Hf ks X Hall Hnd Hdisj.
  - inversion Hall; subst. cbn. by rewrite app_nil_r.
  - inversion Hall as [|? k ? ks' Hp Hrest]; subst.
    cbn [concat] in *. apply NoDup_app in Hnd as (Hk & Hkk & Hks).
    rewrite foldM_cons, (Hf p k X); [| by left | done | done | ].
    2:{ intros a Ha. apply Hdisj. apply elem_of_app. by left. }
    rewrite bind_Ok, (IH (λ q k' X' Hq, Hf q k' X' (list_elem_of_further _ _ _ Hq)) ks' (X ++ k)).
    + by rewrite <- app_assoc.
    + done.
    + done.
    + intros a Ha. rewrite elem_of_app. intros [HX|Hak].
      * apply (Hdisj a); [|done]. apply elem_of_app. by right.
      * by apply (Hkk a).
Qed.

(** Freeing a well-formed tree from a heap that lacks the blocks of [X],
    none of them in the tree, releases exactly its footprint.  The frame
    [X] grows along the traversal: it holds the subtrees already freed. *)
Lemma QueryNode_Free_footprint (fuel : nat) :
  ∀ (h0 : heap) (p : addr) (fp X : list addr),
  footprint fuel h0 p = Some fp → NoDup fp → (∀ a, a ∈ fp → a ∉ X) →
  QueryNode_Free fuel (drop_blocks X h0) p = Ok (drop_blocks (X ++ fp) h0).
Proof.
  induction fuel as [|fuel IH]; intros h0 p fp X Hfp Hnd Hdisj; [done|].
  cbn [footprint] in Hfp.
  destruct (h0 !! p) as [[n|]|] eqn:Hp; try done.
  destruct (decide (p = NULL)) as [|Hnn]; [done|].
  destruct (mapM (footprint fuel h0) (node_children n)) as [kids|] eqn:Hkids; [|done].
  destruct (mapM (string_block h0) (node_strings n)) as [strs|] eqn:Hstrs; [|done].
  cbn in Hfp. simplify_eq.
  apply mapM_Some in Hkids. apply mapM_Some in Hstrs.
  apply NoDup_app in Hnd as (Hnd1 & Hd1 & Hnd2).
  apply NoDup_app in Hnd2 as (Hnd2 & Hd2 & _).
  assert (HpX : p ∉ X).
  { apply Hdisj. rewrite !elem_of_app. right. right. by apply list_elem_of_singleton. }
  cbn [QueryNode_Free]. unfold load_node.
  rewrite lookup_drop_blocks, decide_False, Hp by done.
  rewrite bind_Ok.
  rewrite (free_each h0 (QueryNode_Free fuel) (footprint fuel h0) (node_children n)
             (λ q k X' _ Hq Hk HX', IH h0 q k X' Hq Hk HX') kids X Hkids Hnd1).
  2:{ intros a Ha. apply Hdisj. apply elem_of_app. by left. }
  rewrite bind_Ok.
  rewrite (free_each h0 free (string_block h0) (node_strings n)
             (λ q k X' _ Hq _ HX', string_block_free X' h0 q k Hq HX')
             strs (X ++ concat kids) Hstrs Hnd2).
  2:{ intros a Ha. rewrite elem_of_app. intros [HX|Hak].
      - apply (Hdisj a); [|done]. rewrite !elem_of_app. right. by left.
      - apply (Hd1 a Hak). apply elem_of_app. by left. }
  rewrite bind_Ok, free_live.
  - by rewrite <- !app_assoc.
  - done.
  - rewrite !elem_of_app. intros [[HX|Hk]|Hs].
    + done.
    + apply (Hd1 p Hk). rewrite elem_of_app. right. by apply list_elem_of_singleton.
    + apply (Hd2 p Hs). by apply list_elem_of_singleton.
  - by eexists.
Qed.

(** ** Result iterators *)

(** Induction over iterators, with the hypothesis for every child of a
    union. *)
Lemma IndexIterator_induction (P : IndexIterator → Prop) :
  (∀ ids, P (PostingIterator ids)) →
  P EmptyIterator →
  (∀ its, Forall P its → P (UnionIterator its)) →
  ∀ it, P it.
Proof.
  intros Hp He Hu. fix IH 1. intros [ids| |its].
  - apply Hp.
  - apply He.
  - apply Hu. induction its as [|c its IHits]; constructor; [apply IH|apply IHits].
Qed.

(** The position of a union is the least position of its children: it is
    exhausted when they all are. *)
Lemma mins_None (l : list (option t_docId)) :
  foldr min_docId None l = None ↔ Forall (λ x, x = None) l.
Proof.
  induction l as [|[x|] l IH]; cbn.
  - split; [constructor|done].
  - split.
    + destruct (foldr min_docId None l); done.
    + intros H. inversion H; done.
  - rewrite IH. split; [by constructor|]. intros H. by inversion H.
Qed.

(** Otherwise some child is positioned at it, and none before it. *)
Lemma mins_Some (l : list (option t_docId)) (m : t_docId) :
  foldr min_docId None l = Some m →
  Some m ∈ l ∧ ∀ y, Some y ∈ l → m ≤ y.
Proof.
  revert m. induction l as [|x l IH]; intros m; cbn; [done|].
  destruct (foldr min_docId None l) as [r|] eqn:Hr.
  - destruct (IH r eq_refl) as [Hin Hle].
    destruct x as [x|]; cbn; intros ?; simplify_eq.
    + split.
      * destruct (N.min_spec x r) as [[_ ->]|[_ ->]]; [left|by right].
      * intros y [->%(inj Some)|Hy]%elem_of_cons; [lia|]. specialize (Hle y Hy). lia.
    + split; [by right|]. intros y [?|Hy]%elem_of_cons; [done|]. by apply Hle.
  - apply mins_None in Hr.
    destruct x as [x|]; cbn; intros ?; simplify_eq.
    split; [left|]. intros y [->%(inj Some)|Hy]%elem_of_cons; [lia|].
    rewrite Forall_forall in Hr. by specialize (Hr _ Hy).
Qed.

(** Sums of sizes under a map that never grows an element. *)
Lemma sum_list_fmap_le {A} (f : A → nat) (g : A → A) (l : list A) :
  Forall (λ c, f (g c) ≤ f c)%nat l →
  (sum_list (f <$> (g <$> l)) ≤ sum_list (f <$> l))%nat.
Proof. induction 1; cbn; [done|lia]. Qed.

Lemma sum_list_fmap_lt {A} (f : A → nat) (g : A → A) (l : list A) :
  Forall (λ c, f (g c) ≤ f c)%nat l →
  Exists (λ c, f (g c) < f c)%nat l →
  (sum_list (f <$> (g <$> l)) < sum_list (f <$> l))%nat.
Proof.
  induction l as [|c l IH]; intros Hall Hex; [by inversion Hex|].
  inversion Hall as [|? ? Hc Hl]; subst. cbn.
  pose proof (sum_list_fmap_le f g l Hl).
  inversion Hex as [? ? Hlt|? ? Hex']; subst; [lia|].
  specialize (IH Hl Hex'). lia.
Qed.

Lemma advance_union (its : list IndexIterator) :
  advance (UnionIterator its)
  = UnionIterator (step (current (UnionIterator its)) <$> its).
Proof. reflexivity. Qed.

Lemma current_union (its : list IndexIterator) :
  current (UnionIterator its) = foldr min_docId None (current <$> its).
Proof. reflexivity. Qed.

(** Advancing never grows an iterator, and shrinks one that is not
    exhausted: this is why reading terminates. *)
Lemma advance_size (it : IndexIterator) :
  (it_size (advance it) ≤ it_size it)%nat
  ∧ ∀ d, current it = Some d → (it_size (advance it) < it_size it)%nat.
Proof.
  induction it as [ids| |its IH] using IndexIterator_induction.
  - destruct ids; cbn; [done|]. split; [lia|]. intros; lia.
  - done.
  - rewrite advance_union.
    assert (Hall : ∀ m, Forall (λ c, it_size (step m c) ≤ it_size c)%nat its).
    { intros m. eapply Forall_impl; [exact IH|]. cbn. intros c [Hle _].
      unfold step. by case_decide. }
    split.
    + by apply sum_list_fmap_le.
    + intros d Hd. rewrite Hd. cbn [it_size].
      apply sum_list_fmap_lt; [apply Hall|].
      rewrite current_union in Hd.
      destruct (mins_Some _ _ Hd) as [Hin _].
      apply list_elem_of_fmap in Hin as (c & Hc & Hin).
      apply Exists_exists. exists c. split; [done|].
      rewrite Forall_forall in IH. destruct (IH c Hin) as [_ Hlt].
      unfold step. rewrite decide_True by done.
      by apply (Hlt d).
Qed.

(** Above the size of the iterator, the budget of reads does not matter. *)
Lemma read_all_fuel (f1 : nat) : ∀ (f2 : nat) (it : IndexIterator),
  (it_size it < f1)%nat → (it_size it < f2)%nat →
  is_Some (read_all f1 it) ∧ read_all f1 it = read_all f2 it.
Proof.
  induction f1 as [|f1 IH]; intros f2 it H1 H2; [lia|].
  destruct f2 as [|f2]; [lia|]. cbn. unfold Read.
  destruct (current it) as [d|] eqn:Hcur; [|by split].
  destruct (advance_size it) as [_ Hlt]. specialize (Hlt d Hcur).
  destruct (IH f2 (advance it)) as [[l Hl] Heq]; [lia|lia|].
  rewrite <- Heq, Hl. by split.
Qed.

Lemma read_all_enough (fuel : nat) (it : IndexIterator) :
  (it_size it < fuel)%nat → read_all fuel it = Some (read_sequence it).
Proof.
  intros Hf. unfold read_sequence.
  destruct (read_all_fuel fuel (S (it_size it)) it Hf) as [[l Hl] Heq]; [lia|].
  by rewrite <- Heq, Hl.
Qed.

(** The read sequence, one read at a time. *)
Lemma read_sequence_unfold (it : IndexIterator) :
  read_sequence it =
    match current it with
    | None => []
    | Some d => d :: read_sequence (advance it)
    end.
Proof.
  unfold read_sequence at 1. cbn. unfold Read.
  destruct (current it) as [d|] eqn:Hcur; [|done].
  destruct (advance_size it) as [_ Hlt]. specialize (Hlt d Hcur).
  rewrite (read_all_enough (it_size it) (advance it)) by lia. done.
Qed.

Lemma current_head (it : IndexIterator) : current it = head (read_sequence it).
Proof. rewrite read_sequence_unfold. by destruct (current it). Qed.

(** The head of an ascending sequence is its least element. *)
Lemma StronglySorted_head_le (x d : t_docId) (l : list t_docId) :
  StronglySorted N.lt (x :: l) → d ∈ x :: l → x ≤ d.
Proof.
  intros Hs [->|Hd]%elem_of_cons; [lia|].
  apply StronglySorted_inv in Hs as [_ Hall]. rewrite Forall_forall in Hall.
  specialize (Hall d Hd). lia.
Qed.

(** One step of a child of a union whose minimum is [m]: the child keeps
    exactly its identifiers above [m]. *)
Lemma step_reads (m : t_docId) (c : IndexIterator) :
  StronglySorted N.lt (read_sequence c) →
  (∀ y, current c = Some y → m ≤ y) →
  StronglySorted N.lt (read_sequence (step (Some m) c))
  ∧ ∀ d, d ∈ read_sequence (step (Some m) c) ↔ d ∈ read_sequence c ∧ m < d.
Proof.
  intros Hs Hmin. unfold step. rewrite (read_sequence_unfold c) in *.
  destruct (current c) as [y|] eqn:Hcur.
  - case_decide as Hy.
    + simplify_eq. apply StronglySorted_inv in Hs as [Hs Hall]. split; [done|].
      rewrite Forall_forall in Hall. intros d. rewrite elem_of_cons. split.
      * intros Hd. split; [by right|]. by apply Hall.
      * intros [[->|Hd] Hlt]; [lia|done].
    + rewrite (read_sequence_unfold c), Hcur. split; [done|].
      specialize (Hmin y eq_refl). assert (m < y) by (assert (m ≠ y) by congruence; lia).
      intros d. split; [|by intros [? _]].
      intros Hd. split; [done|]. pose proof (StronglySorted_head_le _ _ _ Hs Hd). lia.
  - rewrite decide_False by done. rewrite (read_sequence_unfold c), Hcur.
    split; [constructor|]. intros d. split; [by intros ?%elem_of_nil|by intros [?%elem_of_nil _]].
Qed.

(** A union whose children are all exhausted reads nothing. *)
Lemma union_exhausted (its : list IndexIterator) :
  foldr min_docId None (current <$> its) = None →
  StronglySorted N.lt []
  ∧ ∀ d : t_docId, d ∈ [] ↔ ∃ c, c ∈ its ∧ d ∈ read_sequence c.
Proof.
  intros Hcur. split; [constructor|]. intros d. split; [by intros ?%elem_of_nil|].
  intros (c & Hc & Hd). apply mins_None in Hcur.
  rewrite Forall_fmap, Forall_forall in Hcur. specialize (Hcur c Hc). cbn in Hcur.
  rewrite read_sequence_unfold, Hcur in Hd. by apply elem_of_nil in Hd.
Qed.

(** The read sequence of a union of ascending children is ascending and
    holds exactly what the children read; by induction on the size. *)
Lemma union_reads (n : nat) : ∀ its : list IndexIterator,
  (it_size (UnionIterator its) ≤ n)%nat →
  Forall (λ c, StronglySorted N.lt (read_sequence c)) its →
  StronglySorted N.lt (read_sequence (UnionIterator its))
  ∧ ∀ d, d ∈ read_sequence (UnionIterator its) ↔ ∃ c, c ∈ its ∧ d ∈ read_sequence c.
Proof.
  induction n as [|n IH]; intros its Hsize Hsorted;
    rewrite (read_sequence_unfold (UnionIterator its));
    destruct (current (UnionIterator its)) as [m|] eqn:Hcur.
  - destruct (advance_size (UnionIterator its)) as [_ Hlt]. specialize (Hlt m Hcur). lia.
  - apply union_exhausted. by rewrite <- current_union.
  - pose proof Hcur as Hmin. rewrite current_union in Hmin.
    apply mins_Some in Hmin as [Hin Hmin].
    apply list_elem_of_fmap in Hin as (c0 & Hc0 & Hin0).
    assert (Hstep : ∀ c, c ∈ its →
              StronglySorted N.lt (read_sequence (step (Some m) c))
              ∧ ∀ d, d ∈ read_sequence (step (Some m) c) ↔ d ∈ read_sequence c ∧ m < d).
    { intros c Hc. apply step_reads.
      - rewrite Forall_forall in Hsorted. by apply Hsorted.
      - intros y Hy. apply Hmin, list_elem_of_fmap. exists c. split; [by symmetry|done]. }
    destruct (advance_size (UnionIterator its)) as [_ Hlt]. specialize (Hlt m Hcur).
    rewrite advance_union, Hcur in *.
    destruct (IH (step (Some m) <$> its)) as [Hs Hmem]; [lia| |].
    { rewrite Forall_fmap. apply Forall_forall. intros c Hc. by apply Hstep. }
    assert (Hmem' : ∀ d, d ∈ read_sequence (UnionIterator (step (Some m) <$> its))
                         ↔ m < d ∧ ∃ c, c ∈ its ∧ d ∈ read_sequence c).
    { intros d. rewrite Hmem. split.
      - intros (c' & (c & -> & Hc)%list_elem_of_fmap & Hd).
        apply (Hstep c Hc) in Hd as [Hd Hlt']. split; [done|]. by exists c.
      - intros (Hlt' & c & Hc & Hd). exists (step (Some m) c). split.
        + apply list_elem_of_fmap. by exists c.
        + by apply (Hstep c Hc). }
    split.
    + constructor; [done|]. apply Forall_forall. intros d Hd. by apply Hmem' in Hd as [? _].
    + intros d. rewrite elem_of_cons, Hmem'. split.
      * intros [->|[_ Hd]]; [|done]. exists c0. split; [done|].
        rewrite read_sequence_unfold, <- Hc0. by left.
      * intros (c & Hc & Hd).
        destruct (decide (d = m)) as [|Hne]; [by left|]. right. split; [|by exists c].
        rewrite Forall_forall in Hsorted. specialize (Hsorted c Hc).
        rewrite read_sequence_unfold in Hd, Hsorted.
        destruct (current c) as [y|] eqn:Hy; [|by apply elem_of_nil in Hd].
        pose proof (StronglySorted_head_le _ _ _ Hsorted Hd).
        assert (m ≤ y) by (apply Hmin, list_elem_of_fmap; exists c; split; [by symmetry|done]).
        destruct (decide (m = y)) as [->|]; [|lia].
        apply elem_of_cons in Hd as [->|Hd]; [done|].
        apply StronglySorted_inv in Hsorted as [_ Hall]. rewrite Forall_forall in Hall.
        by apply Hall.
  - apply union_exhausted. by rewrite <- current_union.
Qed.

(** ** Compilation *)

(** A list compiles when each element does. *)
Lemma mapO_total {A B : Type} (f : A → outcome B) (l : list A) :
  Forall (λ a, ∃ b, f a = Ok b) l → ∃ bs, mapO f l = Ok bs.
Proof.
  induction 1 as [|a l [b Hb] _ [bs Hbs]]; cbn.
  - by eexists.
  - rewrite Hb. cbn. rewrite Hbs. by eexists.
Qed.

(** The root of a footprint is a live node. *)
Lemma footprint_root (fuel : nat) (h : heap) (p : addr) (fp : list addr) :
  footprint fuel h p = Some fp →
  p ∈ fp ∧ p ≠ NULL ∧ ∃ n, h !! p = Some (BNode n).
Proof.
  destruct fuel as [|fuel]; [done|]. cbn.
  destruct (h !! p) as [[n|]|]; try done.
  destruct (decide (p = NULL)); [done|].
  destruct (mapM _ (node_children n)); [|done].
  destruct (mapM _ (node_strings n)); [|done].
  cbn. intros ?; simplify_eq. split; [|split; [done|by eexists]].
  rewrite !elem_of_app. right. right. by apply list_elem_of_singleton.
Qed.

Lemma string_block_live (h : heap) (s a : addr) (k : list addr) :
  string_block h s = Some k → a ∈ k → is_Some (h !! a) ∧ a ≠ NULL.
Proof.
  unfold string_block. destruct (decide (s = NULL)).
  - intros ?; simplify_eq. by intros ?%elem_of_nil.
  - destruct (h !! s) as [[|str]|] eqn:Hs; try done.
    intros ?; simplify_eq. intros ->%list_elem_of_singleton. split; [by eexists|done].
Qed.

Lemma elem_of_concat {A : Type} (x : A) (ls : list (list A)) :
  x ∈ concat ls ↔ ∃ l, x ∈ l ∧ l ∈ ls.
Proof.
  induction ls as [|l ls IH]; cbn.
  - split; [by intros ?%elem_of_nil|by intros (? & _ & ?%elem_of_nil)].
  - rewrite elem_of_app, IH. split.
    + intros [Hx|(l' & Hx & Hl)]; [exists l; split; [done|left]|exists l'; split; [done|by right]].
    + intros (l' & Hx & [->|Hl]%elem_of_cons); [by left|right; by exists l'].
Qed.

(** Every block of a footprint is live and none is NULL. *)
Lemma footprint_live (fuel : nat) : ∀ (h : heap) (p a : addr) (fp : list addr),
  footprint fuel h p = Some fp → a ∈ fp → is_Some (h !! a) ∧ a ≠ NULL.
Proof.
  induction fuel as [|fuel IH]; intros h p a fp Hfp Ha; [done|].
  pose proof (footprint_root _ _ _ _ Hfp) as (_ & Hnn & n' & Hp').
  cbn in Hfp. destruct (h !! p) as [[n|]|] eqn:Hp; try done.
  destruct (decide (p = NULL)); [done|].
  destruct (mapM _ (node_children n)) as [kids|] eqn:Hkids; [|done].
  destruct (mapM _ (node_strings n)) as [strs|] eqn:Hstrs; [|done].
  cbn in Hfp. simplify_eq.
  apply mapM_Some in Hkids. apply mapM_Some in Hstrs.
  rewrite !elem_of_app in Ha. destruct Ha as [Ha|[Ha| ->%list_elem_of_singleton]].
  - apply elem_of_concat in Ha as (k & Ha & Hk).
    apply list_elem_of_lookup in Hk as [i Hi].
    destruct (Forall2_lookup_r _ _ _ _ _ Hkids Hi) as (c & _ & Hc).
    by apply (IH h c a k).
  - apply elem_of_concat in Ha as (k & Ha & Hk).
    apply list_elem_of_lookup in Hk as [i Hi].
    destruct (Forall2_lookup_r _ _ _ _ _ Hstrs Hi) as (c & _ & Hc).
    by apply (string_block_live h c a k).
  - split; [by eexists|done].
Qed.

(** What the leaves and the empty iterator read. *)
Lemma read_sequence_posting (ids : list t_docId) :
  read_sequence (PostingIterator ids) = ids.
Proof.
  induction ids as [|d ids IH]; rewrite read_sequence_unfold;
    cbn [current advance head tail]; [done|].
  by rewrite IH.
Qed.

Lemma read_sequence_empty : read_sequence EmptyIterator = [].
Proof. reflexivity. Qed.

Lemma mapO_Ok {A B : Type} (f : A → outcome B) (l : list A) (bs : list B) :
  mapO f l = Ok bs → Forall2 (λ a b, f a = Ok b) l bs.
Proof.
  revert bs. induction l as [|a l IH]; intros bs; cbn.
  - intros ?; simplify_eq. constructor.
  - destruct (f a) as [b| | |] eqn:Hb; try done. cbn.
    destruct (mapO f l) as [bs'| | |]; try done. cbn.
    intros ?; simplify_eq. constructor; [done|]. by apply IH.
Qed.

Section CompilationFacts.

Context {engine : QueryEngine}.

(** A tree that has a footprint compiles. *)
Lemma Query_EvalNode_total (fuel : nat) : ∀ (sp : IndexSpec) (h : heap) (p : addr)
    (fp : list addr),
  footprint fuel h p = Some fp → ∃ it, Query_EvalNode fuel sp h p = Ok it.
Proof.
  induction fuel as [|fuel IH]; intros sp h p fp Hfp; [done|].
  cbn in Hfp. destruct (h !! p) as [[n|]|] eqn:Hp; try done.
  destruct (decide (p = NULL)); [done|].
  destruct (mapM _ (node_children n)) as [kids|] eqn:Hkids; [|done].
  apply mapM_Some in Hkids.
  assert (Hcs : ∃ its, mapO (Query_EvalNode fuel sp h) (node_children n) = Ok its).
  { apply mapO_total. apply Forall_forall. intros c Hc.
    apply list_elem_of_lookup in Hc as [i Hi].
    destruct (Forall2_lookup_l _ _ _ _ _ Hkids Hi) as (k & _ & Hk).
    by apply (IH sp h c k). }
  destruct Hcs as [its Hits].
  change (Query_EvalNode (S fuel) sp h p) with
    (load_node h p ≫= λ n,
       match payload n with
       | un _ =>
           match node_children n with
           | [] => Ok EmptyIterator
           | cs => its ← mapO (Query_EvalNode fuel sp h) cs; Ok (UnionIterator its)
           end
       | pn ph =>
           match node_children n with
           | [] => Ok EmptyIterator
           | cs => its ← mapO (Query_EvalNode fuel sp h) cs;
                   Ok (NewIntersectIterator its (pn_exact ph))
           end
       | tag _ =>
           match node_children n with
           | [] => Ok EmptyIterator
           | _ => Ok (PostingIterator (leaf_postings sp h n))
           end
       | _ => Ok (PostingIterator (leaf_postings sp h n))
       end).
  rewrite (load_node_live _ _ _ Hp), bind_Ok.
  revert Hits. destruct (payload n); intros Hits; try by eexists.
  - revert Hits. destruct (node_children n); intros Hits; [by eexists|].
    rewrite Hits. by eexists.
  - revert Hits. destruct (node_children n); intros Hits; [by eexists|].
    rewrite Hits. by eexists.
  - destruct (node_children n); by eexists.
Qed.

(** When the posting lists of the index and the intersection merge are
    strictly ascending, so is what any compiled tree reads: the unions
    preserve the order at every level. *)
Lemma Query_EvalNode_ascending (fuel : nat) :
  (∀ sp h n, StronglySorted N.lt (leaf_postings sp h n)) →
  (∀ its exact, StronglySorted N.lt (read_sequence (NewIntersectIterator its exact))) →
  ∀ (sp : IndexSpec) (h : heap) (p : addr) (it : IndexIterator),
  Query_EvalNode fuel sp h p = Ok it → StronglySorted N.lt (read_sequence it).
Proof.
  intros Hleaf Hinter.
  induction fuel as [|fuel IH]; intros sp h p it; [done|].
  cbn [Query_EvalNode]. destruct (load_node h p) as [n| | |]; try done.
  rewrite bind_Ok.
  assert (Hposting : ∀ it', Ok (PostingIterator (leaf_postings sp h n)) = Ok it' →
            StronglySorted N.lt (read_sequence it')).
  { intros it' ?; simplify_eq. rewrite read_sequence_posting. apply Hleaf. }
  assert (Hempty : ∀ it', @Ok IndexIterator EmptyIterator = Ok it' →
            StronglySorted N.lt (read_sequence it')).
  { intros it' ?; simplify_eq. constructor. }
  destruct (payload n) as [ph|u|?|?|?|t|?]; try apply Hposting.
  - destruct (node_children n) as [|c cs]; [apply Hempty|].
    destruct (mapO _ (c :: cs)) as [its| | |]; try done.
    rewrite bind_Ok. intros ?; simplify_eq. apply Hinter.
  - destruct (node_children n) as [|c cs]; [apply Hempty|].
    destruct (mapO _ (c :: cs)) as [its| | |] eqn:Hits; try done.
    rewrite bind_Ok. intros ?; simplify_eq.
    apply mapO_Ok in Hits.
    apply (union_reads (it_size (UnionIterator its)) its); [done|].
    apply Forall_forall. intros it Hit.
    apply list_elem_of_lookup in Hit as [i Hi].
    destruct (Forall2_lookup_r _ _ _ _ _ Hits Hi) as (q & _ & Hq).
    by apply (IH sp h q).
  - destruct (node_children n); [apply Hempty|apply Hposting].
Qed.

(** C2: compiling consumes the tree it is given.  When the tree at [qn]
    is well formed after the expansion pass (it has a footprint [fp], in
    which no block occurs twice) and the root of the AST is a well formed
    tree too, [RS_GetResultsIterator] returns an iterator and a heap from
    which exactly the blocks of [fp] are gone: each was live, each was
    released once, in the order of [fp], and every other block is
    untouched.  Afterwards a node of the tree can be neither read nor
    freed again. *)
Theorem RS_GetResultsIterator_consumes_tree (fuel : nat) (h : heap) (qn : addr)
    (sp : IndexSpec) (h1 : heap) (root : addr) (fp fp_root : list addr) :
  QAST_Expand sp h qn = (h1, root) →
  footprint fuel h1 root = Some fp_root →
  footprint fuel h1 qn = Some fp →
  NoDup fp →
  ∃ ret,
    RS_GetResultsIterator fuel h qn sp = Ok (drop_blocks fp h1, ret)
    ∧ qn ∈ fp
    ∧ (∀ a, a ∈ fp → is_Some (h1 !! a) ∧ drop_blocks fp h1 !! a = None)
    ∧ (∀ a, a ∉ fp → drop_blocks fp h1 !! a = h1 !! a)
    ∧ (∀ a f, a ∈ fp →
         load_node (drop_blocks fp h1) a = Undefined
         ∧ QueryNode_Free (S f) (drop_blocks fp h1) a = Undefined).
Proof.
  intros Hexp Hroot Hfp Hnd.
  destruct (Query_EvalNode_total fuel sp h1 root fp_root Hroot) as [ret Hret].
  exists ret. unfold RS_GetResultsIterator. rewrite Hexp, Hret, bind_Ok.
  pose proof (QueryNode_Free_footprint fuel h1 qn fp [] Hfp Hnd) as Hfree.
  cbn in Hfree. rewrite Hfree by (intros ? _; apply not_elem_of_nil).
  assert (Hgone : ∀ a, a ∈ fp → drop_blocks fp h1 !! a = None).
  { intros a Ha. by rewrite lookup_drop_blocks, decide_True. }
  split; [done|]. split; [by apply (footprint_root fuel h1)|]. split; [|split].
  - intros a Ha. split; [|by apply Hgone].
    by apply (footprint_live fuel h1 qn a fp).
  - intros a Ha. by rewrite lookup_drop_blocks, decide_False.
  - intros a f Ha. cbn. unfold load_node. by rewrite (Hgone a Ha).
Qed.

(** C1: the iterator compiled from a Union node reads the strictly
    ascending, duplicate-free union of what its children read.  Let the
    root after expansion be a Union whose children compile to [its], each
    reading a strictly ascending sequence, and let the tree at [qn] be well
    formed.  Then [RS_GetResultsIterator] returns an iterator that reaches
    end-of-stream within its size in reads, and whose read sequence is
    strictly ascending and holds exactly the identifiers some child reads.
    With no child the iterator is the empty one, whose first read is
    end-of-stream. *)
Theorem union_node_reads_sorted_union (fuel : nat) (h : heap) (qn : addr)
    (sp : IndexSpec) (h1 : heap) (root : addr) (n : QueryNode) (u : QueryUnionNode)
    (fp : list addr) (its : list IndexIterator) :
  QAST_Expand sp h qn = (h1, root) →
  h1 !! root = Some (BNode n) →
  payload n = un u →
  mapO (Query_EvalNode fuel sp h1) (node_children n) = Ok its →
  Forall (λ it, StronglySorted N.lt (read_sequence it)) its →
  footprint (S fuel) h1 qn = Some fp →
  NoDup fp →
  ∃ ret,
    RS_GetResultsIterator (S fuel) h qn sp = Ok (drop_blocks fp h1, ret)
    ∧ read_all (S (it_size ret)) ret = Some (read_sequence ret)
    ∧ StronglySorted N.lt (read_sequence ret)
    ∧ (∀ d, d ∈ read_sequence ret ↔ ∃ it, it ∈ its ∧ d ∈ read_sequence it)
    ∧ (node_children n = [] → ret = EmptyIterator ∧ Read ret = (INDEXREAD_EOF, ret)).
Proof.
  intros Hexp Hroot Hu Hits Hsorted Hfp Hnd.
  pose proof (QueryNode_Free_footprint (S fuel) h1 qn fp [] Hfp Hnd) as Hfree.
  change (drop_blocks [] h1) with h1 in Hfree. change ([] ++ fp) with fp in Hfree.
  specialize (Hfree (λ a _, not_elem_of_nil a)).
  assert (Heval : ∃ ret,
    Query_EvalNode (S fuel) sp h1 root = Ok ret
    ∧ (ret = UnionIterator its ∨ ret = EmptyIterator ∧ its = [])
    ∧ (node_children n = [] → ret = EmptyIterator)).
  { change (Query_EvalNode (S fuel) sp h1 root) with
      (load_node h1 root ≫= λ n,
         match payload n with
         | un _ =>
             match node_children n with
             | [] => Ok EmptyIterator
             | cs => its ← mapO (Query_EvalNode fuel sp h1) cs; Ok (UnionIterator its)
             end
         | pn ph =>
             match node_children n with
             | [] => Ok EmptyIterator
             | cs => its ← mapO (Query_EvalNode fuel sp h1) cs;
                     Ok (NewIntersectIterator its (pn_exact ph))
             end
         | tag _ =>
             match node_children n with
             | [] => Ok EmptyIterator
             | _ => Ok (PostingIterator (leaf_postings sp h1 n))
             end
         | _ => Ok (PostingIterator (leaf_postings sp h1 n))
         end).
    rewrite (load_node_live _ _ _ Hroot), bind_Ok, Hu.
    revert Hits. destruct (node_children n) as [|c cs]; intros Hits.
    - cbn in Hits. simplify_eq. exists EmptyIterator. split; [done|]. split; [by right|done].
    - rewrite Hits. exists (UnionIterator its). split; [done|]. split; [by left|done]. }
  destruct Heval as (ret & Heval & Hshape & Hempty).
  exists ret. split.
  { unfold RS_GetResultsIterator. by rewrite Hexp, Heval, bind_Ok, Hfree. }
  split; [apply read_all_enough; lia|].
  destruct Hshape as [->|[-> ->]].
  - destruct (union_reads (it_size (UnionIterator its)) its) as [Hs Hmem]; [done|done|].
    split; [done|]. split; [done|].
    intros Hnil. by specialize (Hempty Hnil).
  - split; [constructor|]. split.
    + intros d. split; [by intros ?%elem_of_nil|by intros (? & ?%elem_of_nil & _)].
    + done.
Qed.

End CompilationFacts.

(** The merge on a small input: two posting lists that share the
    identifier 3. *)
Example union_reads_example :
  read_sequence (UnionIterator [PostingIterator [1; 3; 5]; PostingIterator [2; 3; 8]])
  = [1; 2; 3; 5; 8].
Proof. reflexivity. Qed.

(** The tree Union(Token "quick", Token "brown") at address 3 is compiled;
    its five blocks, two strings and three nodes, are released. *)
Lemma RS_GetResultsIterator_consumes_tree_witness :
  @QAST_Expand example_engine example_schema example_tree 3 = (example_tree, 3)
  ∧ footprint 2 example_tree 3 = Some [20; 1; 21; 2; 3]
  ∧ NoDup [20; 1; 21; 2; 3 : addr]
  ∧ ∃ ret,
      RS_GetResultsIterator (engine := example_engine)
        2 example_tree 3 example_schema
      = Ok (drop_blocks [20; 1; 21; 2; 3] example_tree, ret)
      ∧ 3 ∈ [20; 1; 21; 2; 3 : addr]
      ∧ (∀ a, a ∈ [20; 1; 21; 2; 3 : addr] →
           is_Some (example_tree !! a)
           ∧ drop_blocks [20; 1; 21; 2; 3] example_tree !! a = None)
      ∧ (∀ a, a ∉ [20; 1; 21; 2; 3 : addr] →
           drop_blocks [20; 1; 21; 2; 3] example_tree !! a = example_tree !! a)
      ∧ (∀ a f, a ∈ [20; 1; 21; 2; 3 : addr] →
           load_node (drop_blocks [20; 1; 21; 2; 3] example_tree) a = Undefined
           ∧ QueryNode_Free (S f) (drop_blocks [20; 1; 21; 2; 3] example_tree) a
             = Undefined).
Proof.
  split; [reflexivity|]. split; [reflexivity|]. split; [compute_done|].
  apply (RS_GetResultsIterator_consumes_tree (engine := example_engine) 2 example_tree 3 example_schema example_tree 3
           [20; 1; 21; 2; 3] [20; 1; 21; 2; 3]);
    [reflexivity | reflexivity | reflexivity | compute_done].
Defined.

(** The same tree: its iterator reads the union of the posting lists of
    "quick", 1 3 5, and of "brown", 2 3 8. *)
Lemma union_node_reads_sorted_union_witness :
  @QAST_Expand example_engine example_schema example_tree 3 = (example_tree, 3)
  ∧ example_tree !! 3 = Some (BNode (example_container (un (mkUnion [1; 2] 2))))
  ∧ mapO (Query_EvalNode (engine := example_engine) 1 example_schema example_tree)
      [1; 2] = Ok [PostingIterator [1; 3; 5]; PostingIterator [2; 3; 8]]
  ∧ Forall (λ it, StronglySorted N.lt (read_sequence it))
      [PostingIterator [1; 3; 5]; PostingIterator [2; 3; 8]]
  ∧ footprint 2 example_tree 3 = Some [20; 1; 21; 2; 3]
  ∧ NoDup [20; 1; 21; 2; 3 : addr]
  ∧ ∃ ret,
      RS_GetResultsIterator (engine := example_engine)
        2 example_tree 3 example_schema
      = Ok (drop_blocks [20; 1; 21; 2; 3] example_tree, ret)
      ∧ read_all (S (it_size ret)) ret = Some (read_sequence ret)
      ∧ StronglySorted N.lt (read_sequence ret)
      ∧ (∀ d, d ∈ read_sequence ret ↔
           ∃ it, it ∈ [PostingIterator [1; 3; 5]; PostingIterator [2; 3; 8]]
                 ∧ d ∈ read_sequence it)
      ∧ (node_children (example_container (un (mkUnion [1; 2] 2))) = [] →
           ret = EmptyIterator ∧ Read ret = (INDEXREAD_EOF, ret)).
Proof.
  assert (Hsorted : Forall (λ it, StronglySorted N.lt (read_sequence it))
            [PostingIterator [1; 3; 5]; PostingIterator [2; 3; 8]]).
  { repeat constructor. }
  split; [reflexivity|]. split; [reflexivity|]. split; [reflexivity|].
  split; [exact Hsorted|]. split; [reflexivity|].
  split; [compute_done|].
  apply (union_node_reads_sorted_union (engine := example_engine) 1 example_tree 3 example_schema example_tree 3
           (example_container (un (mkUnion [1; 2] 2))) (mkUnion [1; 2] 2)
           [20; 1; 21; 2; 3]
           [PostingIterator [1; 3; 5]; PostingIterator [2; 3; 8]]);
    [reflexivity | reflexivity | reflexivity | reflexivity | exact Hsorted
    | reflexivity | compute_done].
Defined.

(** ** Traversal by key *)

Lemma RS_ResultsIteratorNext_spec (fuel : nat) : ∀ (iter : IndexIterator) (sp : IndexSpec),
  (it_size iter < fuel)%nat →
  ∃ key iter',
    RS_ResultsIteratorNext fuel iter sp = Ok (key, iter')
    ∧ match key with
      | Some ky =>
          ∃ skipped d,
            read_sequence iter = skipped ++ d :: read_sequence iter'
            ∧ Forall (λ x, DocTable_GetKey (docs sp) x = None) skipped
            ∧ DocTable_GetKey (docs sp) d = Some ky
      | None =>
          Forall (λ x, DocTable_GetKey (docs sp) x = None) (read_sequence iter)
          ∧ Read iter' = (INDEXREAD_EOF, iter')
      end.
Proof.
  induction fuel as [|fuel IH]; intros iter sp Hsize; [lia|].
  cbn [RS_ResultsIteratorNext]. rewrite (read_sequence_unfold iter). unfold Read at 1.
  destruct (current iter) as [d|] eqn:Hcur.
  - destruct (advance_size iter) as [_ Hlt]. specialize (Hlt d Hcur). cbn [docId].
    destruct (DocTable_GetKey (docs sp) d) as [ky|] eqn:Hkey.
    + exists (Some ky), (advance iter). split; [done|]. by exists [], d.
    + destruct (IH (advance iter) sp) as (key & iter' & -> & Hpost); [lia|].
      exists key, iter'. split; [done|]. destruct key as [ky|].
      * destruct Hpost as (skipped & d' & -> & Hskip & Hd').
        exists (d :: skipped), d'. split; [done|]. split; [by constructor|done].
      * destruct Hpost as [Hall Heof]. split; [by constructor|done].
  - exists None, iter. split; [done|]. split; [constructor|].
    unfold Read. by rewrite Hcur.
Qed.

(** C9: [RS_ResultsIteratorNext] always returns, never with an error.  It
    returns the key of the first identifier of the read sequence that the
    document table resolves, having read and skipped the unresolved ones
    before it, and leaves the iterator just after that identifier; when no
    identifier left resolves it returns NULL with the iterator at
    end-of-stream.  Any budget above the size of the iterator suffices. *)
Theorem RS_ResultsIteratorNext_skips_unresolved (iter : IndexIterator) (sp : IndexSpec)
    (extra : nat) :
  ∃ key iter',
    RS_ResultsIteratorNext (S (it_size iter) + extra) iter sp = Ok (key, iter')
    ∧ match key with
      | Some ky =>
          ∃ skipped d,
            read_sequence iter = skipped ++ d :: read_sequence iter'
            ∧ Forall (λ x, DocTable_GetKey (docs sp) x = None) skipped
            ∧ DocTable_GetKey (docs sp) d = Some ky
      | None =>
          Forall (λ x, DocTable_GetKey (docs sp) x = None) (read_sequence iter)
          ∧ Read iter' = (INDEXREAD_EOF, iter')
      end.
Proof. apply RS_ResultsIteratorNext_spec. lia. Qed.

(** The table resolves 1 and 3: over the merged sequence 1 2 3 5 8 the
    traversal returns "doc:a", then skips 2 and returns "doc:c", then skips
    5 and 8 and returns NULL. *)
Example RS_ResultsIteratorNext_example :
  let it0 := UnionIterator [PostingIterator [1; 3; 5]; PostingIterator [2; 3; 8]] in
  ∃ it1 it2 it3,
    RS_ResultsIteratorNext 6 it0 example_schema = Ok (Some "doc:a", it1)
    ∧ RS_ResultsIteratorNext 6 it1 example_schema = Ok (Some "doc:c", it2)
    ∧ RS_ResultsIteratorNext 6 it2 example_schema = Ok (None, it3).
Proof. cbv zeta. eexists _, _, _. repeat split. Qed.

(** ** Adding a document *)

Lemma Z_land_lor_absorb (a b : Z) : Z.land (Z.lor a b) a = a.
Proof.
  apply Z.bits_inj'. intros i _.
  rewrite Z.land_spec, Z.lor_spec. by destruct (Z.testbit a i), (Z.testbit b i).
Qed.

Section AddDocumentFacts.

Context {indexer : Indexer}.

(** C10: when the replace flag is a flag of its own (not zero, no bit in
    common with the no-save flag) and the table holds no identifier 0, the
    options [RS_SpecAddDocument] submits carry the replace flag exactly when
    the key of the document is in the document table; a document with a
    fresh key is submitted with the no-save flag alone. *)
Theorem RS_SpecAddDocument_replace_iff_present (sp : IndexSpec) (d : Document) :
  DOCUMENT_ADD_REPLACE ≠ 0%Z →
  Z.land DOCUMENT_ADD_NOSAVE DOCUMENT_ADD_REPLACE = 0%Z →
  map_Forall (λ _ id, id ≠ 0) (dt_ids (docs sp)) →
  (Z.land (sub_options (RS_SpecAddDocument sp d)) DOCUMENT_ADD_REPLACE ≠ 0%Z
   ↔ docKey d ∈ dom (dt_ids (docs sp)))
  ∧ (docKey d ∈ dom (dt_ids (docs sp)) →
     sub_options (RS_SpecAddDocument sp d)
     = Z.lor DOCUMENT_ADD_REPLACE DOCUMENT_ADD_NOSAVE)
  ∧ (docKey d ∉ dom (dt_ids (docs sp)) →
     sub_options (RS_SpecAddDocument sp d) = DOCUMENT_ADD_NOSAVE).
Proof.
  intros Hrep Hdisj Hids.
  unfold RS_SpecAddDocument. cbn [sub_options]. rewrite negb_involutive.
  unfold DocTable_GetIdR.
  destruct (dt_ids (docs sp) !! docKey d) as [id|] eqn:Hlk; cbn [default].
  - rewrite bool_decide_true by (by apply (Hids (docKey d))).
    assert (Hin : docKey d ∈ dom (dt_ids (docs sp))) by (apply elem_of_dom; by eexists).
    cbn. rewrite !Z.lor_0_l, Z_land_lor_absorb. split; [done|]. split; [done|]. done.
  - rewrite bool_decide_false by (by intros []).
    assert (Hout : docKey d ∉ dom (dt_ids (docs sp))) by (by apply not_elem_of_dom).
    cbn. rewrite !Z.lor_0_l, Hdisj. split; [|split]; done.
Qed.

End AddDocumentFacts.

(** With REPLACE = 1 and NOSAVE = 4: "doc:a" is in the table and is
    submitted with options 5; "doc:b" is not, and is submitted with 4. *)
Lemma RS_SpecAddDocument_replace_iff_present_witness :
  (@DOCUMENT_ADD_REPLACE example_indexer ≠ 0)%Z
  ∧ Z.land (@DOCUMENT_ADD_NOSAVE example_indexer) (@DOCUMENT_ADD_REPLACE example_indexer)
    = 0%Z
  ∧ map_Forall (λ _ id, id ≠ 0) (dt_ids (docs example_schema))
  ∧ sub_options (RS_SpecAddDocument (indexer := example_indexer)
                   example_schema (mkDocument "doc:a")) = 5%Z
  ∧ sub_options (RS_SpecAddDocument (indexer := example_indexer)
                   example_schema (mkDocument "doc:b")) = 4%Z
  ∧ (Z.land (sub_options (RS_SpecAddDocument (indexer := example_indexer)
                            example_schema (mkDocument "doc:a"))) 1 ≠ 0%Z
     ↔ "doc:a" ∈ dom (dt_ids (docs example_schema)))
  ∧ ("doc:a" ∈ dom (dt_ids (docs example_schema)) →
     sub_options (RS_SpecAddDocument (indexer := example_indexer)
                    example_schema (mkDocument "doc:a")) = Z.lor 1 4)
  ∧ ("doc:a" ∉ dom (dt_ids (docs example_schema)) →
     sub_options (RS_SpecAddDocument (indexer := example_indexer)
                    example_schema (mkDocument "doc:a")) = 4%Z).
Proof.
  split; [done|]. split; [reflexivity|]. split; [compute_done|].
  split; [reflexivity|]. split; [reflexivity|].
  apply (RS_SpecAddDocument_replace_iff_present (indexer := example_indexer)
           example_schema (mkDocument "doc:a")); [done | reflexivity | compute_done].
Defined.

(** ** The API end to end *)

(** The session reads the ascending merge of the two posting lists, and
    leaves the heap as it found it: every node and every string copy made
    on the way was released by the compilation. *)
Example example_session_result :
  example_session = Ok ([1; 2; 3; 5; 8], example_strings).
Proof. vm_compute. reflexivity. Qed.

(** A cleared Union no longer owns its children: freeing it afterwards
    releases the node alone, and the two tokens with their strings stay
    live. *)
Example clear_then_free_leaves_children :
  (h ← RS_UnionNodeClearChildren example_tree 3; RS_QueryNodeFree 2 h 3)
  = Ok (delete 3 example_tree).
Proof. vm_compute. reflexivity. Qed.

(** ** Dropping a document *)

Lemma RedisModule_CreateString_spec (h : heap) (bytes : string) :
  ∃ p, RedisModule_CreateString h bytes = (<[p := BStr bytes]> h, p)
       ∧ h !! p = None ∧ p ≠ NULL.
Proof. apply malloc_spec. Qed.

(** The two paths of [RS_DropDocument]: [p] is the string object made for
    the key. *)
Lemma RS_DropDocument_run (h : heap) (sp : IndexSpec) (stats : IndexStats)
    (docKey : string) :
  ∃ p, h !! p = None ∧ p ≠ NULL
    ∧ (DocTable_GetIdR (docs sp) docKey = 0 →
       RS_DropDocument h sp stats docKey = Ok (h, sp, stats, 0%Z))
    ∧ (∀ id : t_docId, dt_ids (docs sp) !! docKey = Some id → id ≠ 0 →
       RS_DropDocument h sp stats docKey
       = Ok (<[p := BStr docKey]> h,
             {| fields := fields sp;
                docs := {| dt_ids := delete docKey (dt_ids (docs sp));
                           dt_keys := delete id (dt_keys (docs sp)) |} |},
             {| numDocuments := size_t_decr (numDocuments stats) |}, 1%Z)).
Proof.
  unfold RS_DropDocument.
  destruct (RedisModule_CreateString_spec h docKey) as (p & -> & Hp & Hnn).
  exists p. split; [done|]. split; [done|].
  unfold cstring. rewrite lookup_insert_eq, bind_Ok. split.
  - intros Hkey. rewrite decide_True by done.
    unfold RedisModule_FreeString, free. rewrite decide_False by done.
    rewrite lookup_insert_eq, bind_Ok. by rewrite delete_insert_id.
  - intros id Hkey Hid.
    rewrite decide_False by (unfold DocTable_GetIdR, t_docId in *; by rewrite Hkey).
    unfold DocTable_DeleteR. rewrite Hkey. by rewrite decide_True by done.
Qed.

Lemma size_t_decr_spec (n : N) :
  (0 < n < 2 ^ 64 → size_t_decr n = n - 1) ∧ size_t_decr 0 = 2 ^ 64 - 1.
Proof.
  split; [|reflexivity]. intros Hn. unfold size_t_decr.
  replace (n + (2 ^ 64 - 1)) with ((n - 1) + 1 * 2 ^ 64) by lia.
  rewrite N.Div0.mod_add. apply N.mod_small. lia.
Qed.

(** X1: dropping a key the document table does not hold changes nothing.
    [RS_DropDocument] returns 0; the index and its counters are the ones
    it was given, and the heap too: the string object made for the lookup
    has been released. *)
Theorem RS_DropDocument_missing_key (h : heap) (sp : IndexSpec) (stats : IndexStats)
    (docKey : string) :
  dt_ids (docs sp) !! docKey = None →
  RS_DropDocument h sp stats docKey = Ok (h, sp, stats, 0%Z).
Proof.
  intros Hkey. destruct (RS_DropDocument_run h sp stats docKey) as (p & _ & _ & Hrun & _).
  apply Hrun. unfold DocTable_GetIdR, t_docId in *. by rewrite Hkey.
Qed.

Lemma RS_DropDocument_missing_key_witness :
  dt_ids (docs example_schema) !! "doc:b" = None
  ∧ RS_DropDocument example_strings example_schema (mkIndexStats 2) "doc:b"
    = Ok (example_strings, example_schema, mkIndexStats 2, 0%Z).
Proof.
  split; [reflexivity|].
  apply (RS_DropDocument_missing_key example_strings example_schema (mkIndexStats 2) "doc:b").
  reflexivity.
Defined.

(** X2: dropping a key the table holds returns 1 and counts one document
    less, on 64 bits: a counter at 0 wraps to 2^64 - 1.  The key and its
    identifier no longer resolve, every other key and identifier resolves
    as before, and the fields of the schema are untouched. *)
Theorem RS_DropDocument_present_key (h : heap) (sp : IndexSpec) (stats : IndexStats)
    (docKey : string) (id : t_docId) :
  dt_ids (docs sp) !! docKey = Some id →
  id ≠ 0 →
  ∃ h' sp',
    RS_DropDocument h sp stats docKey
    = Ok (h', sp', {| numDocuments := size_t_decr (numDocuments stats) |}, 1%Z)
    ∧ DocTable_GetIdR (docs sp') docKey = 0
    ∧ DocTable_GetKey (docs sp') id = None
    ∧ (∀ k, k ≠ docKey → DocTable_GetIdR (docs sp') k = DocTable_GetIdR (docs sp) k)
    ∧ (∀ i, i ≠ id → DocTable_GetKey (docs sp') i = DocTable_GetKey (docs sp) i)
    ∧ fields sp' = fields sp
    ∧ (0 < numDocuments stats < 2 ^ 64 →
       size_t_decr (numDocuments stats) = numDocuments stats - 1)
    ∧ (numDocuments stats = 0 → size_t_decr (numDocuments stats) = 2 ^ 64 - 1).
Proof.
  intros Hkey Hid.
  destruct (RS_DropDocument_run h sp stats docKey) as (p & _ & _ & _ & Hrun).
  rewrite (Hrun id Hkey Hid).
  eexists _, _. split; [reflexivity|]. cbn [docs fields dt_ids dt_keys].
  unfold DocTable_GetIdR, DocTable_GetKey. cbn [dt_ids dt_keys].
  split; [by rewrite lookup_delete_eq|]. split; [by rewrite lookup_delete_eq|].
  split; [intros k Hk; by rewrite lookup_delete_ne|].
  split; [intros i Hi; by rewrite lookup_delete_ne|].
  split; [done|]. split; [apply size_t_decr_spec|by intros ->].
Qed.

Lemma RS_DropDocument_present_key_witness :
  dt_ids (docs example_schema) !! "doc:a" = Some 1
  ∧ ∃ h' sp',
      RS_DropDocument example_strings example_schema (mkIndexStats 2) "doc:a"
      = Ok (h', sp', {| numDocuments := size_t_decr 2 |}, 1%Z)
      ∧ DocTable_GetIdR (docs sp') "doc:a" = 0
      ∧ DocTable_GetKey (docs sp') 1 = None
      ∧ (∀ k, k ≠ "doc:a" →
           DocTable_GetIdR (docs sp') k = DocTable_GetIdR (docs example_schema) k)
      ∧ (∀ i, i ≠ 1 →
           DocTable_GetKey (docs sp') i = DocTable_GetKey (docs example_schema) i)
      ∧ fields sp' = fields example_schema
      ∧ (0 < 2 < 2 ^ 64 → size_t_decr 2 = 2 - 1)
      ∧ (2 = 0 → size_t_decr 2 = 2 ^ 64 - 1).
Proof.
  split; [reflexivity|].
  apply (RS_DropDocument_present_key example_strings example_schema (mkIndexStats 2)
           "doc:a" 1); [reflexivity|done].
Defined.

(** X3: on the path that finds the document, the string object made for
    the key is never released.  The heap [RS_DropDocument] returns is the
    heap it was given with one more live block, holding the bytes of the
    key; only the path that does not find the document frees it. *)
Theorem RS_DropDocument_keeps_key_string (h : heap) (sp : IndexSpec) (stats : IndexStats)
    (docKey : string) (id : t_docId) :
  dt_ids (docs sp) !! docKey = Some id →
  id ≠ 0 →
  ∃ p sp' stats' rc,
    RS_DropDocument h sp stats docKey = Ok (<[p := BStr docKey]> h, sp', stats', rc)
    ∧ h !! p = None
    ∧ p ≠ NULL
    ∧ dom (<[p := BStr docKey]> h) = {[p]} ∪ dom h.
Proof.
  intros Hkey Hid.
  destruct (RS_DropDocument_run h sp stats docKey) as (p & Hp & Hnn & _ & Hrun).
  rewrite (Hrun id Hkey Hid).
  eexists p, _, _, _. split; [reflexivity|]. split; [done|]. split; [done|].
  apply dom_insert_L.
Qed.

Lemma RS_DropDocument_keeps_key_string_witness :
  dt_ids (docs example_schema) !! "doc:a" = Some 1
  ∧ ∃ p sp' stats' rc,
      RS_DropDocument example_strings example_schema (mkIndexStats 2) "doc:a"
      = Ok (<[p := BStr "doc:a"]> example_strings, sp', stats', rc)
      ∧ example_strings !! p = None
      ∧ p ≠ NULL
      ∧ dom (<[p := BStr "doc:a"]> example_strings) = {[p]} ∪ dom example_strings.
Proof.
  split; [reflexivity|].
  apply (RS_DropDocument_keeps_key_string example_strings example_schema (mkIndexStats 2)
           "doc:a" 1); [reflexivity|done].
Defined.

Section DropDocumentFacts.

Context {indexer : Indexer}.

(** X4: a dropped key is a new key.  After [RS_DropDocument] has returned
    1 for a key, a second drop of the same key returns 0 and changes
    nothing, and [RS_SpecAddDocument] submits a document with that key
    with the no-save flag alone, without the replace flag. *)
Theorem RS_DropDocument_then_key_is_new (h : heap) (sp : IndexSpec) (stats : IndexStats)
    (d : Document) (id : t_docId) :
  dt_ids (docs sp) !! docKey d = Some id →
  id ≠ 0 →
  ∃ h' sp' stats',
    RS_DropDocument h sp stats (docKey d) = Ok (h', sp', stats', 1%Z)
    ∧ RS_DropDocument h' sp' stats' (docKey d) = Ok (h', sp', stats', 0%Z)
    ∧ sub_options (RS_SpecAddDocument sp' d) = DOCUMENT_ADD_NOSAVE.
Proof.
  intros Hkey Hid.
  destruct (RS_DropDocument_run h sp stats (docKey d)) as (p & _ & _ & _ & Hrun).
  rewrite (Hrun id Hkey Hid).
  eexists _, _, _. split; [reflexivity|].
  set (sp' := {| fields := fields sp;
                 docs := {| dt_ids := delete (docKey d) (dt_ids (docs sp));
                            dt_keys := delete id (dt_keys (docs sp)) |} |}).
  assert (Hgone : DocTable_GetIdR (docs sp') (docKey d) = 0).
  { unfold DocTable_GetIdR. cbn [sp' docs dt_ids]. by rewrite lookup_delete_eq. }
  split.
  - match goal with |- RS_DropDocument ?h1 _ ?st1 _ = _ =>
      destruct (RS_DropDocument_run h1 sp' st1 (docKey d)) as (q & _ & _ & Hagain & _) end.
    by apply Hagain.
  - unfold RS_SpecAddDocument. cbn [sub_options]. rewrite Hgone.
    rewrite bool_decide_false by (by intros []). cbn. apply Z.lor_0_l.
Qed.

End DropDocumentFacts.

Lemma RS_DropDocument_then_key_is_new_witness :
  dt_ids (docs example_schema) !! "doc:a" = Some 1
  ∧ ∃ h' sp' stats',
      RS_DropDocument example_strings example_schema (mkIndexStats 2) "doc:a"
      = Ok (h', sp', stats', 1%Z)
      ∧ RS_DropDocument h' sp' stats' "doc:a" = Ok (h', sp', stats', 0%Z)
      ∧ sub_options (RS_SpecAddDocument (indexer := example_indexer) sp'
                       (mkDocument "doc:a")) = 4%Z.
Proof.
  split; [reflexivity|].
  apply (RS_DropDocument_then_key_is_new (indexer := example_indexer) example_strings
           example_schema (mkIndexStats 2) (mkDocument "doc:a") 1); [reflexivity|done].
Defined.

(** ** The other constructors, and what a new node reports *)

(** Freeing one live block, and freeing a node that has no child. *)
Lemma free_one (h : heap) (p : addr) (b : block) :
  h !! p = Some b → p ≠ NULL → free h p = Ok (delete p h).
Proof. intros Hp Hnn. unfold free. by rewrite decide_False, Hp. Qed.

Lemma QueryNode_Free_leaf (f : nat) (h : heap) (p : addr) (n : QueryNode) :
  h !! p = Some (BNode n) →
  node_children n = [] →
  QueryNode_Free (S f) h p = foldM free (node_strings n) h ≫= λ h, free h p.
Proof.
  intros Hp Hc. cbn [QueryNode_Free]. rewrite (load_node_live _ _ _ Hp), bind_Ok.
  by rewrite Hc.
Qed.

(** A node and its one string, allocated on top of [h], are released. *)
Lemma free_node_with_string (f : nat) (h : heap) (ret str : addr) (n : QueryNode)
    (s : string) :
  h !! ret = None → h !! str = None → ret ≠ str → ret ≠ NULL → str ≠ NULL →
  node_children n = [] → node_strings n = [str] →
  QueryNode_Free (S f) (<[ret := BNode n]> (<[str := BStr s]> h)) ret = Ok h.
Proof.
  intros Hret Hstr Hne Hr0 Hs0 Hc Hs.
  rewrite (QueryNode_Free_leaf f _ ret n) by (done || apply lookup_insert_eq).
  rewrite Hs. cbn [foldM].
  rewrite (free_one _ str (BStr s)) by (done || by rewrite lookup_insert_ne, lookup_insert_eq).
  rewrite !bind_Ok.
  rewrite (free_one _ ret (BNode n)) by (done || by rewrite lookup_delete_ne, lookup_insert_eq).
  f_equal. apply map_eq. intros i.
  rewrite !lookup_delete, !lookup_insert. repeat case_decide; congruence.
Qed.

Lemma free_node_alone (f : nat) (h : heap) (ret : addr) (n : QueryNode) :
  h !! ret = None → ret ≠ NULL →
  node_children n = [] → node_strings n = [] →
  QueryNode_Free (S f) (<[ret := BNode n]> h) ret = Ok h.
Proof.
  intros Hret Hr0 Hc Hs.
  rewrite (QueryNode_Free_leaf f _ ret n) by (done || apply lookup_insert_eq).
  rewrite Hs. cbn [foldM]. rewrite bind_Ok.
  rewrite (free_one _ ret (BNode n)) by (done || apply lookup_insert_eq).
  by rewrite delete_insert_id.
Qed.

(** What the two accessors read from a node just written. *)
Lemma node_reports (h : heap) (ret : addr) (n : QueryNode) :
  RS_QueryNodeType (<[ret := BNode n]> h) ret = Ok (type n)
  ∧ RS_QueryNodeGetFieldMask (<[ret := BNode n]> h) ret = Ok (to_int (fieldMask (opts n))).
Proof.
  unfold RS_QueryNodeType, RS_QueryNodeGetFieldMask.
  by rewrite (load_node_live _ ret n) by apply lookup_insert_eq.
Qed.

Section ConstructionMore.

Context {resolver : FieldResolver}.

Lemma RS_CreateLexRangeNode_spec (h : heap) (sp : IndexSpec)
    (fieldName begin end_ : addr) (name : string) :
  (fieldName ≠ NULL → cstring h fieldName = Ok name) →
  ∃ ret,
    RS_CreateLexRangeNode h sp fieldName begin end_
    = Ok (<[ret := BNode {| payload := lxrng (mkLexRange begin end_);
                            opts := mkOpts (scoped_mask sp fieldName name) |}]> h, ret)
    ∧ h !! ret = None
    ∧ ret ≠ NULL.
Proof.
  intros Hfld. unfold RS_CreateLexRangeNode, scoped_mask.
  destruct (NewQueryNode_spec h QN_LEXRANGE) as (ret & -> & Hret & Hret0).
  exists ret.
  set (n0 := {| payload := zero_payload QN_LEXRANGE; opts := mkOpts RS_FIELDMASK_ALL |}).
  set (n1 := {| payload := lxrng (mkLexRange begin NULL); opts := mkOpts RS_FIELDMASK_ALL |}).
  set (n2 := {| payload := lxrng (mkLexRange begin end_); opts := mkOpts RS_FIELDMASK_ALL |}).
  assert (Hb : (if decide (begin = NULL) then Ok (<[ret := BNode n0]> h)
                else update_node (<[ret := BNode n0]> h) ret (λ n,
                       match payload n with
                       | lxrng r => set_payload n
                                      (lxrng {| lx_begin := begin; lx_end := lx_end r |})
                       | _ => n
                       end))
               = Ok (<[ret := BNode n1]> h)).
  { destruct (decide (begin = NULL)) as [Hb|Hb].
    - unfold n0, n1. rewrite Hb. reflexivity.
    - erewrite update_node_spec by apply lookup_insert_eq. cbn.
      by rewrite insert_insert_eq. }
  rewrite Hb, bind_Ok.
  assert (He : (if decide (end_ = NULL) then Ok (<[ret := BNode n1]> h)
                else update_node (<[ret := BNode n1]> h) ret (λ n,
                       match payload n with
                       | lxrng r => set_payload n
                                      (lxrng {| lx_begin := lx_begin r; lx_end := end_ |})
                       | _ => n
                       end))
               = Ok (<[ret := BNode n2]> h)).
  { destruct (decide (end_ = NULL)) as [He|He].
    - unfold n1, n2. rewrite He. reflexivity.
    - erewrite update_node_spec by apply lookup_insert_eq. cbn.
      by rewrite insert_insert_eq. }
  rewrite He, bind_Ok.
  destruct (decide (fieldName = NULL)) as [->|Hf]; [done|].
  specialize (Hfld Hf).
  pose proof (cstring_not_free _ _ _ _ Hfld Hret).
  erewrite scope_to_field_spec; [| |apply lookup_insert_eq].
  2:{ rewrite cstring_insert_ne by done. exact Hfld. }
  cbn. rewrite insert_insert_eq. done.
Qed.

Lemma RS_CreateUnionNode_spec (h : heap) (sp : IndexSpec) :
  ∃ ret,
    RS_CreateUnionNode h sp
    = Ok (<[ret := BNode {| payload := un (mkUnion [] 0);
                            opts := mkOpts RS_FIELDMASK_ALL |}]> h, ret)
    ∧ h !! ret = None ∧ ret ≠ NULL.
Proof.
  unfold RS_CreateUnionNode.
  destruct (NewQueryNode_spec h QN_UNION) as (ret & -> & Hret & Hret0).
  erewrite update_node_spec by apply lookup_insert_eq.
  unfold set_payload. cbn. rewrite insert_insert_eq. by exists ret.
Qed.

Lemma RS_CreateIntersectNode_spec (h : heap) (sp : IndexSpec) (exact : Z) :
  ∃ ret,
    RS_CreateIntersectNode h sp exact
    = Ok (<[ret := BNode {| payload := pn (mkPhrase [] 0 exact);
                            opts := mkOpts RS_FIELDMASK_ALL |}]> h, ret)
    ∧ h !! ret = None ∧ ret ≠ NULL.
Proof.
  unfold RS_CreateIntersectNode.
  destruct (NewQueryNode_spec h QN_PHRASE) as (ret & -> & Hret & Hret0).
  erewrite update_node_spec by apply lookup_insert_eq.
  unfold set_payload. cbn. rewrite insert_insert_eq. by exists ret.
Qed.

(** X5: [RS_CreateLexRangeNode] stores the two bounds as the pointers it
    was given, a NULL bound staying NULL, and copies nothing: the node is
    the only block it allocates, every block of the caller is left as it
    was, and the bounds are not even read, so the call succeeds whatever
    they point to.  The mask is set from the field name like that of a
    token. *)
Theorem RS_CreateLexRangeNode_keeps_pointers (h : heap) (sp : IndexSpec)
    (fieldName begin end_ : addr) (name : string) :
  (fieldName ≠ NULL → cstring h fieldName = Ok name) →
  ∃ h' ret n r,
    RS_CreateLexRangeNode h sp fieldName begin end_ = Ok (h', ret)
    ∧ h !! ret = None
    ∧ ret ≠ NULL
    ∧ h' !! ret = Some (BNode n)
    ∧ payload n = lxrng r
    ∧ lx_begin r = begin
    ∧ lx_end r = end_
    ∧ fieldMask (opts n) = scoped_mask sp fieldName name
    ∧ dom h' = {[ret]} ∪ dom h
    ∧ (∀ a, a ≠ ret → h' !! a = h !! a).
Proof.
  intros Hfld.
  destruct (RS_CreateLexRangeNode_spec h sp fieldName begin end_ name Hfld)
    as (ret & -> & Hret & Hnn).
  eexists _, ret, _, (mkLexRange begin end_). split; [reflexivity|].
  split; [done|]. split; [done|]. split; [apply lookup_insert_eq|].
  split; [done|]. split; [done|]. split; [done|]. split; [done|].
  split; [apply dom_insert_L|]. intros a Ha. by rewrite lookup_insert_ne.
Qed.

(** X6: a container is created empty.  The node [RS_CreateUnionNode]
    returns is a fresh Union with the all-fields mask: its type is
    QN_UNION, it counts no child, and [RS_UnionNodeGetChild] fails its
    bounds assertion at every index.  The same holds of
    [RS_CreateIntersectNode] and the Phrase accessors, the node keeping
    the [exact] it was given. *)
Theorem fresh_containers_are_empty (h : heap) (sp : IndexSpec) (exact : Z) :
  (∃ ret h',
     RS_CreateUnionNode h sp = Ok (h', ret)
     ∧ h' = <[ret := BNode {| payload := un (mkUnion [] 0);
                              opts := mkOpts RS_FIELDMASK_ALL |}]> h
     ∧ h !! ret = None ∧ ret ≠ NULL
     ∧ RS_QueryNodeType h' ret = Ok QN_UNION
     ∧ RS_UnionNodeGetNumChildren h' ret = Ok 0%nat
     ∧ ∀ i, RS_UnionNodeGetChild h' ret i = AssertFail)
  ∧ (∃ ret h',
     RS_CreateIntersectNode h sp exact = Ok (h', ret)
     ∧ h' = <[ret := BNode {| payload := pn (mkPhrase [] 0 exact);
                              opts := mkOpts RS_FIELDMASK_ALL |}]> h
     ∧ h !! ret = None ∧ ret ≠ NULL
     ∧ RS_QueryNodeType h' ret = Ok QN_PHRASE
     ∧ RS_IntersectNodeGetNumChildren h' ret = Ok 0%nat
     ∧ ∀ i, RS_IntersectNodeGetChild h' ret i = AssertFail).
Proof.
  split.
  - destruct (RS_CreateUnionNode_spec h sp) as (ret & -> & Hret & Hret0).
    eexists ret, _. split; [reflexivity|].
    split; [reflexivity|]. split; [done|]. split; [done|].
    set (n := {| payload := un (mkUnion [] 0); opts := mkOpts RS_FIELDMASK_ALL |}).
    assert (Hn : <[ret := BNode n]> h !! ret = Some (BNode n)) by apply lookup_insert_eq.
    split; [|split].
    + apply node_reports.
    + by rewrite (RS_UnionNodeGetNumChildren_spec _ _ _ (mkUnion [] 0) Hn eq_refl).
    + intros i. by rewrite (RS_UnionNodeGetChild_spec _ _ _ (mkUnion [] 0) i Hn eq_refl).
  - destruct (RS_CreateIntersectNode_spec h sp exact) as (ret & -> & Hret & Hret0).
    eexists ret, _. split; [reflexivity|].
    split; [reflexivity|]. split; [done|]. split; [done|].
    set (n := {| payload := pn (mkPhrase [] 0 exact); opts := mkOpts RS_FIELDMASK_ALL |}).
    assert (Hn : <[ret := BNode n]> h !! ret = Some (BNode n)) by apply lookup_insert_eq.
    split; [|split].
    + apply node_reports.
    + by rewrite (RS_IntersectNodeGetNumChildren_spec _ _ _ (mkPhrase [] 0 exact) Hn eq_refl).
    + intros i.
      by rewrite (RS_IntersectNodeGetChild_spec _ _ _ (mkPhrase [] 0 exact) i Hn eq_refl).
Qed.

(** X7: creating a node and freeing it at once restores the heap.  For a
    token, a prefix, a numeric range, a tag, a Union and a Phrase node,
    [RS_QueryNodeFree] applied to what the constructor returned gives back
    exactly the heap the constructor was called on: the node and the copy
    it made of its string are released, and the caller's strings are left
    alone. *)
Theorem create_then_free_restores_heap (h : heap) (sp : IndexSpec)
    (field token : addr) (name text : string) (max min : float)
    (includeMax includeMin exact : Z) (f : nat) :
  cstring h field = Ok name →
  cstring h token = Ok text →
  (∃ h' ret, RS_CreateTokenNode h sp field token = Ok (h', ret)
             ∧ RS_QueryNodeFree (S f) h' ret = Ok h)
  ∧ (∃ h' ret, RS_CreatePrefixNode h sp field token = Ok (h', ret)
               ∧ RS_QueryNodeFree (S f) h' ret = Ok h)
  ∧ (∃ h' ret, RS_CreateNumericNode h sp field max min includeMax includeMin = Ok (h', ret)
               ∧ RS_QueryNodeFree (S f) h' ret = Ok h)
  ∧ (∃ h' ret, RS_CreateTagNode h sp field = Ok (h', ret)
               ∧ RS_QueryNodeFree (S f) h' ret = Ok h)
  ∧ (∃ h' ret, RS_CreateUnionNode h sp = Ok (h', ret)
               ∧ RS_QueryNodeFree (S f) h' ret = Ok h)
  ∧ (∃ h' ret, RS_CreateIntersectNode h sp exact = Ok (h', ret)
               ∧ RS_QueryNodeFree (S f) h' ret = Ok h).
Proof.
  intros Hfld Htok. unfold RS_QueryNodeFree. repeat split.
  - destruct (RS_CreateTokenNode_spec h sp field token text name Htok (λ _, Hfld))
      as (ret & str & -> & ? & ? & ? & ? & ?).
    eexists _, ret. split; [reflexivity|]. by apply free_node_with_string.
  - destruct (RS_CreatePrefixNode_spec h sp field token text name Htok (λ _, Hfld))
      as (ret & str & -> & ? & ? & ? & ? & ?).
    eexists _, ret. split; [reflexivity|]. by apply free_node_with_string.
  - destruct (RS_CreateNumericNode_spec h sp field name max min includeMax includeMin Hfld)
      as (ret & str & -> & ? & ? & ? & ? & ?).
    eexists _, ret. split; [reflexivity|]. by apply free_node_with_string.
  - destruct (RS_CreateTagNode_spec h sp field name Hfld)
      as (ret & str & -> & ? & ? & ? & ? & ?).
    eexists _, ret. split; [reflexivity|]. by apply free_node_with_string.
  - destruct (RS_CreateUnionNode_spec h sp) as (ret & -> & ? & ?).
    eexists _, ret. split; [reflexivity|]. by apply free_node_alone.
  - destruct (RS_CreateIntersectNode_spec h sp exact) as (ret & -> & ? & ?).
    eexists _, ret. split; [reflexivity|]. by apply free_node_alone.
Qed.

(** X8: a node reports the variant of the constructor that made it, and
    the mask that constructor set, through [RS_QueryNodeType] and
    [RS_QueryNodeGetFieldMask]: the bit of the field for a numeric range
    and a tag, the bit of the field or the all-fields mask when the field
    name is NULL for a token, a prefix and a lexical range, and the
    all-fields mask for the two containers. *)
Theorem constructed_node_reports_type_and_mask (h : heap) (sp : IndexSpec)
    (fieldName field token begin end_ : addr) (fname name text : string) (max min : float)
    (includeMax includeMin exact : Z) :
  (fieldName ≠ NULL → cstring h fieldName = Ok fname) →
  cstring h field = Ok name →
  cstring h token = Ok text →
  (∃ h' ret, RS_CreateTokenNode h sp fieldName token = Ok (h', ret)
     ∧ RS_QueryNodeType h' ret = Ok QN_TOKEN
     ∧ RS_QueryNodeGetFieldMask h' ret = Ok (to_int (scoped_mask sp fieldName fname)))
  ∧ (∃ h' ret, RS_CreatePrefixNode h sp fieldName token = Ok (h', ret)
     ∧ RS_QueryNodeType h' ret = Ok QN_PREFX
     ∧ RS_QueryNodeGetFieldMask h' ret = Ok (to_int (scoped_mask sp fieldName fname)))
  ∧ (∃ h' ret, RS_CreateLexRangeNode h sp fieldName begin end_ = Ok (h', ret)
     ∧ RS_QueryNodeType h' ret = Ok QN_LEXRANGE
     ∧ RS_QueryNodeGetFieldMask h' ret = Ok (to_int (scoped_mask sp fieldName fname)))
  ∧ (∃ h' ret,
       RS_CreateNumericNode h sp field max min includeMax includeMin = Ok (h', ret)
     ∧ RS_QueryNodeType h' ret = Ok QN_NUMERIC
     ∧ RS_QueryNodeGetFieldMask h' ret
       = Ok (to_int (IndexSpec_GetFieldBit sp name (String.length name))))
  ∧ (∃ h' ret, RS_CreateTagNode h sp field = Ok (h', ret)
     ∧ RS_QueryNodeType h' ret = Ok QN_TAG
     ∧ RS_QueryNodeGetFieldMask h' ret
       = Ok (to_int (IndexSpec_GetFieldBit sp name (String.length name))))
  ∧ (∃ h' ret, RS_CreateUnionNode h sp = Ok (h', ret)
     ∧ RS_QueryNodeType h' ret = Ok QN_UNION
     ∧ RS_QueryNodeGetFieldMask h' ret = Ok (to_int RS_FIELDMASK_ALL))
  ∧ (∃ h' ret, RS_CreateIntersectNode h sp exact = Ok (h', ret)
     ∧ RS_QueryNodeType h' ret = Ok QN_PHRASE
     ∧ RS_QueryNodeGetFieldMask h' ret = Ok (to_int RS_FIELDMASK_ALL)).
Proof.
  intros Hfn Hfld Htok. repeat apply conj.
  - destruct (RS_CreateTokenNode_spec h sp fieldName token text fname Htok Hfn)
      as (ret & str & -> & _).
    eexists _, ret. split; [reflexivity|]. apply node_reports.
  - destruct (RS_CreatePrefixNode_spec h sp fieldName token text fname Htok Hfn)
      as (ret & str & -> & _).
    eexists _, ret. split; [reflexivity|]. apply node_reports.
  - destruct (RS_CreateLexRangeNode_spec h sp fieldName begin end_ fname Hfn)
      as (ret & -> & _).
    eexists _, ret. split; [reflexivity|]. apply node_reports.
  - destruct (RS_CreateNumericNode_spec h sp field name max min includeMax includeMin Hfld)
      as (ret & str & -> & _).
    eexists _, ret. split; [reflexivity|]. apply node_reports.
  - destruct (RS_CreateTagNode_spec h sp field name Hfld) as (ret & str & -> & _).
    eexists _, ret. split; [reflexivity|]. apply node_reports.
  - destruct (RS_CreateUnionNode_spec h sp) as (ret & -> & _).
    eexists _, ret. split; [reflexivity|]. apply node_reports.
  - destruct (RS_CreateIntersectNode_spec h sp exact) as (ret & -> & _).
    eexists _, ret. split; [reflexivity|]. apply node_reports.
Qed.

End ConstructionMore.

(** On the example index: a lexical range on "body" from "quick", with no
    upper bound. *)
Lemma RS_CreateLexRangeNode_keeps_pointers_witness :
  (12 ≠ NULL → cstring example_strings 12 = Ok "body")
  ∧ ∃ h' ret n r,
      RS_CreateLexRangeNode (resolver := example_resolver) example_strings
        example_schema 12 13 NULL = Ok (h', ret)
      ∧ example_strings !! ret = None
      ∧ ret ≠ NULL
      ∧ h' !! ret = Some (BNode n)
      ∧ payload n = lxrng r
      ∧ lx_begin r = 13
      ∧ lx_end r = NULL
      ∧ fieldMask (opts n) = scoped_mask (resolver := example_resolver) example_schema 12 "body"
      ∧ dom h' = {[ret]} ∪ dom example_strings
      ∧ (∀ a, a ≠ ret → h' !! a = example_strings !! a).
Proof.
  split; [intros _; reflexivity|].
  apply (RS_CreateLexRangeNode_keeps_pointers (resolver := example_resolver)
           example_strings example_schema 12 13 NULL "body").
  intros _. reflexivity.
Defined.

(** On the example index: the field "body" and the text "quick". *)
Lemma create_then_free_restores_heap_witness :
  cstring example_strings 12 = Ok "body"
  ∧ cstring example_strings 13 = Ok "quick"
  ∧ (∃ h' ret,
       RS_CreateTokenNode (resolver := example_resolver) example_strings example_schema
         12 13 = Ok (h', ret)
       ∧ RS_QueryNodeFree 1 h' ret = Ok example_strings)
  ∧ (∃ h' ret,
       RS_CreatePrefixNode (resolver := example_resolver) example_strings example_schema
         12 13 = Ok (h', ret)
       ∧ RS_QueryNodeFree 1 h' ret = Ok example_strings)
  ∧ (∃ h' ret,
       RS_CreateNumericNode (resolver := example_resolver) example_strings example_schema
         12 20 10 0 1 = Ok (h', ret)
       ∧ RS_QueryNodeFree 1 h' ret = Ok example_strings)
  ∧ (∃ h' ret,
       RS_CreateTagNode (resolver := example_resolver) example_strings example_schema 12
       = Ok (h', ret)
       ∧ RS_QueryNodeFree 1 h' ret = Ok example_strings)
  ∧ (∃ h' ret,
       RS_CreateUnionNode (resolver := example_resolver) example_strings example_schema
       = Ok (h', ret)
       ∧ RS_QueryNodeFree 1 h' ret = Ok example_strings)
  ∧ (∃ h' ret,
       RS_CreateIntersectNode (resolver := example_resolver) example_strings example_schema 1
       = Ok (h', ret)
       ∧ RS_QueryNodeFree 1 h' ret = Ok example_strings).
Proof.
  split; [reflexivity|]. split; [reflexivity|].
  apply (create_then_free_restores_heap (resolver := example_resolver) example_strings
           example_schema 12 13 "body" "quick" 20 10 0 1 1 0); reflexivity.
Defined.

(** On the example index, where "body" is field 1 and has the mask 2, and
    the all-fields mask reads as -1. *)
Lemma constructed_node_reports_type_and_mask_witness :
  (12 ≠ NULL → cstring example_strings 12 = Ok "body")
  ∧ cstring example_strings 12 = Ok "body"
  ∧ cstring example_strings 13 = Ok "quick"
  ∧ to_int (scoped_mask (resolver := example_resolver) example_schema 12 "body") = 2%Z
  ∧ to_int (@RS_FIELDMASK_ALL example_resolver) = (-1)%Z
  ∧ (∃ h' ret,
       RS_CreateTokenNode (resolver := example_resolver) example_strings example_schema
         12 13 = Ok (h', ret)
       ∧ RS_QueryNodeType h' ret = Ok QN_TOKEN
       ∧ RS_QueryNodeGetFieldMask h' ret
         = Ok (to_int (scoped_mask (resolver := example_resolver) example_schema 12 "body")))
  ∧ (∃ h' ret,
       RS_CreateUnionNode (resolver := example_resolver) example_strings example_schema
       = Ok (h', ret)
       ∧ RS_QueryNodeType h' ret = Ok QN_UNION
       ∧ RS_QueryNodeGetFieldMask h' ret = Ok (to_int (@RS_FIELDMASK_ALL example_resolver))).
Proof.
  split; [intros _; reflexivity|]. split; [reflexivity|]. split; [reflexivity|].
  split; [reflexivity|]. split; [reflexivity|].
  destruct (constructed_node_reports_type_and_mask (resolver := example_resolver)
              example_strings example_schema 12 12 13 13 NULL "body" "body" "quick"
              20 10 0 1 1 (λ _, eq_refl) eq_refl eq_refl)
    as (Htoken & _ & _ & _ & _ & Hunion & _).
  split; [exact Htoken|exact Hunion].
Defined.

(** ** Freeing through the API *)

(** X9: clearing a container detaches its children without freeing them.
    After [RS_UnionNodeClearChildren] (or [RS_IntersectNodeClearChildren]
    on a Phrase), [RS_QueryNodeFree] releases the node alone: the heap
    left is the one before the clear without that node, so every former
    child and every string of theirs is still live, and is the caller's to
    free. *)
Theorem cleared_container_is_freed_alone (h : heap) (qn : addr) (n : QueryNode) (f : nat) :
  h !! qn = Some (BNode n) →
  qn ≠ NULL →
  (type n = QN_UNION →
   ∃ h', RS_UnionNodeClearChildren h qn = Ok h'
         ∧ RS_QueryNodeFree (S f) h' qn = Ok (delete qn h))
  ∧ (type n = QN_PHRASE →
     ∃ h', RS_IntersectNodeClearChildren h qn = Ok h'
           ∧ RS_QueryNodeFree (S f) h' qn = Ok (delete qn h))
  ∧ (∀ c, c ≠ qn → delete qn h !! c = h !! c).
Proof.
  intros Hqn Hnn. split; [|split].
  - intros Hty. unfold RS_UnionNodeClearChildren.
    rewrite (load_node_live _ _ _ Hqn), bind_Ok.
    destruct n as [[p|u|t|nf|t|t|r] o]; try done.
    eexists. split; [reflexivity|]. unfold RS_QueryNodeFree, store_node.
    rewrite (QueryNode_Free_leaf f _ qn _ (lookup_insert_eq _ _ _)) by done.
    cbn. unfold free. rewrite decide_False, lookup_insert_eq by done.
    by rewrite delete_insert_eq.
  - intros Hty. unfold RS_IntersectNodeClearChildren.
    rewrite (load_node_live _ _ _ Hqn), bind_Ok.
    destruct n as [[p|u|t|nf|t|t|r] o]; try done.
    eexists. split; [reflexivity|]. unfold RS_QueryNodeFree, store_node.
    rewrite (QueryNode_Free_leaf f _ qn _ (lookup_insert_eq _ _ _)) by done.
    cbn. unfold free. rewrite decide_False, lookup_insert_eq by done.
    by rewrite delete_insert_eq.
  - intros c Hc. by rewrite lookup_delete_ne.
Qed.

(** Writes outside a tree. *)
Lemma string_block_insert (h : heap) (s q : addr) (b : block) (k : list addr) :
  string_block h s = Some k → q ∉ k → string_block (<[q := b]> h) s = Some k.
Proof.
  unfold string_block. destruct (decide (s = NULL)); [done|].
  destruct (h !! s) as [[|str]|] eqn:Hs; try done.
  intros ?; simplify_eq. intros Hq%not_elem_of_cons.
  rewrite lookup_insert_ne by (by destruct Hq). by rewrite Hs.
Qed.

Lemma mapM_frame {A B : Type} (f g : A → option (list B)) (l : list A) (ks : list (list B))
    (q : B) :
  (∀ a k, a ∈ l → f a = Some k → q ∉ k → g a = Some k) →
  mapM f l = Some ks → q ∉ concat ks → mapM g l = Some ks.
Proof.
  intros Hfg Hl Hq. apply mapM_Some. apply mapM_Some in Hl.
  induction Hl as [|a k l ks Ha Hl IH]; [constructor|].
  cbn in Hq. rewrite elem_of_app in Hq. constructor.
  - apply Hfg; [by left|done|tauto].
  - apply IH; [|tauto]. intros a' k' Ha'. apply Hfg. by right.
Qed.

(** A write outside a tree leaves the footprint of the tree as it is. *)
Lemma footprint_insert (fuel : nat) : ∀ (h : heap) (p q : addr) (b : block) (fp : list addr),
  footprint fuel h p = Some fp → q ∉ fp → footprint fuel (<[q := b]> h) p = Some fp.
Proof.
  induction fuel as [|fuel IH]; intros h p q b fp Hfp Hq; [done|].
  cbn [footprint] in *.
  destruct (h !! p) as [[n|]|] eqn:Hp; try done.
  destruct (decide (p = NULL)) as [|Hnn]; [done|].
  destruct (mapM (footprint fuel h) (node_children n)) as [kids|] eqn:Hkids; [|done].
  destruct (mapM (string_block h) (node_strings n)) as [strs|] eqn:Hstrs; [|done].
  cbn in Hfp. simplify_eq. rewrite !elem_of_app, list_elem_of_singleton in Hq.
  rewrite lookup_insert_ne, Hp by tauto.
  rewrite (mapM_frame (footprint fuel h) (footprint fuel (<[q:=b]> h)) _ kids q); cbn.
  - rewrite (mapM_frame (string_block h) (string_block (<[q:=b]> h)) _ strs q); cbn.
    + done.
    + intros a k _. apply string_block_insert.
    + done.
    + tauto.
  - intros a k _. apply IH.
  - done.
  - tauto.
Qed.

(** X10: [RS_QueryNodeFree] releases a well-formed tree block by block,
    children and strings before the node that holds them, and touches
    nothing else; it leaves every pointer into the tree dangling.  No
    function of the API tests a node for that: freeing any node of the
    tree again, asking for its type or its mask, or adding a child to it is
    outside the C semantics. *)
Theorem RS_QueryNodeFree_leaves_dangling_pointers (fuel : nat) (h : heap) (qn : addr)
    (fp : list addr) :
  footprint fuel h qn = Some fp →
  NoDup fp →
  RS_QueryNodeFree fuel h qn = Ok (drop_blocks fp h)
  ∧ (∀ a, drop_blocks fp h !! a = if decide (a ∈ fp) then None else h !! a)
  ∧ (∀ a child f, a ∈ fp →
       RS_QueryNodeFree (S f) (drop_blocks fp h) a = Undefined
       ∧ RS_QueryNodeType (drop_blocks fp h) a = Undefined
       ∧ RS_QueryNodeGetFieldMask (drop_blocks fp h) a = Undefined
       ∧ RS_UnionNodeAddChild (drop_blocks fp h) a child = Undefined
       ∧ RS_IntersectNodeAddChild (drop_blocks fp h) a child = Undefined
       ∧ RS_TagNodeAddChild (drop_blocks fp h) a child = Undefined).
Proof.
  intros Hfp Hnd. split; [|split].
  - unfold RS_QueryNodeFree.
    apply (QueryNode_Free_footprint fuel h qn fp [] Hfp Hnd).
    intros ? _. apply not_elem_of_nil.
  - intros a. apply lookup_drop_blocks.
  - intros a child f Ha.
    assert (Hgone : load_node (drop_blocks fp h) a = Undefined).
    { unfold load_node. by rewrite lookup_drop_blocks, decide_True. }
    unfold RS_QueryNodeFree, RS_QueryNodeType, RS_QueryNodeGetFieldMask,
      RS_UnionNodeAddChild, RS_IntersectNodeAddChild, RS_TagNodeAddChild,
      QueryPhraseNode_AddChild, QueryTagNode_AddChildren.
    cbn [QueryNode_Free]. by rewrite Hgone.
Qed.

(** X11: the API does not stop a node from being added twice to a
    parent, and freeing the parent then frees the child twice.  Adding a
    well-formed tree [child] twice to an empty Union succeeds, and the Union
    counts two children; [RS_QueryNodeFree] on the Union releases the
    child at its first cell and finds it gone at the second. *)
Theorem child_added_twice_is_freed_twice (fuel : nat) (h : heap) (qn child : addr)
    (n : QueryNode) (fp : list addr) :
  h !! qn = Some (BNode n) →
  payload n = un (mkUnion [] 0) →
  footprint fuel h child = Some fp →
  NoDup fp →
  qn ∉ fp →
  ∃ h2,
    (h1 ← RS_UnionNodeAddChild h qn child; RS_UnionNodeAddChild h1 qn child) = Ok h2
    ∧ RS_UnionNodeGetNumChildren h2 qn = Ok 2%nat
    ∧ RS_QueryNodeFree (S fuel) h2 qn = Undefined.
Proof.
  intros Hqn Hpay Hfp Hnd Hout.
  set (n1 := set_payload n (un (mkUnion [child] 1))).
  set (n2 := set_payload n (un (mkUnion [child; child] 2))).
  assert (H1 : RS_UnionNodeAddChild h qn child = Ok (<[qn := BNode n1]> h)).
  { unfold RS_UnionNodeAddChild, QueryUnionNode_AddChild.
    rewrite (load_node_live _ _ _ Hqn), !bind_Ok. unfold type. rewrite Hpay. cbn. done. }
  assert (H2 : RS_UnionNodeAddChild (<[qn := BNode n1]> h) qn child
               = Ok (<[qn := BNode n2]> h)).
  { unfold RS_UnionNodeAddChild, QueryUnionNode_AddChild.
    rewrite (load_node_live _ _ n1) by apply lookup_insert_eq. rewrite !bind_Ok. cbn.
    unfold store_node. by rewrite insert_insert_eq. }
  exists (<[qn := BNode n2]> h). rewrite H1, bind_Ok, H2. split; [done|].
  assert (Hn2 : <[qn := BNode n2]> h !! qn = Some (BNode n2)) by apply lookup_insert_eq.
  split.
  { unfold RS_UnionNodeGetNumChildren. by rewrite (load_node_live _ _ _ Hn2). }
  unfold RS_QueryNodeFree. cbn [QueryNode_Free].
  rewrite (load_node_live _ _ _ Hn2), bind_Ok.
  change (node_children n2) with [child; child]. rewrite foldM_cons.
  pose proof (footprint_insert fuel h child qn (BNode n2) fp Hfp Hout) as Hfp2.
  assert (Hfree : QueryNode_Free fuel (<[qn := BNode n2]> h) child
                  = Ok (drop_blocks fp (<[qn := BNode n2]> h))).
  { apply (QueryNode_Free_footprint fuel _ child fp [] Hfp2 Hnd).
    intros ? _. apply not_elem_of_nil. }
  rewrite Hfree, bind_Ok.
  destruct (footprint_root _ _ _ _ Hfp) as (Hin & _).
  assert (Hagain : QueryNode_Free fuel (drop_blocks fp (<[qn := BNode n2]> h)) child
                   = Undefined).
  { destruct fuel as [|fuel']; [done|]. cbn [QueryNode_Free]. unfold load_node.
    by rewrite lookup_drop_blocks, decide_True. }
  rewrite foldM_cons, Hagain. done.
Qed.

(** The Union at address 3 of the example heap, with its two tokens. *)
Lemma cleared_container_is_freed_alone_witness :
  example_tree !! 3 = Some (BNode (example_container (un (mkUnion [1; 2] 2))))
  ∧ 3 ≠ NULL
  ∧ (∃ h', RS_UnionNodeClearChildren example_tree 3 = Ok h'
           ∧ RS_QueryNodeFree 1 h' 3 = Ok (delete 3 example_tree))
  ∧ (∀ c, c ≠ 3 → delete 3 example_tree !! c = example_tree !! c).
Proof.
  split; [reflexivity|]. split; [done|].
  destruct (cleared_container_is_freed_alone example_tree 3
              (example_container (un (mkUnion [1; 2] 2))) 0 eq_refl)
    as (Hunion & _ & Hframe); [done|].
  split; [exact (Hunion eq_refl)|exact Hframe].
Defined.

(** The same Union: its tree is the two strings, the two tokens and the
    node itself. *)
Lemma RS_QueryNodeFree_leaves_dangling_pointers_witness :
  footprint 2 example_tree 3 = Some [20; 1; 21; 2; 3]
  ∧ NoDup ([20; 1; 21; 2; 3] : list addr)
  ∧ RS_QueryNodeFree 2 example_tree 3 = Ok (drop_blocks [20; 1; 21; 2; 3] example_tree)
  ∧ (∀ a, drop_blocks [20; 1; 21; 2; 3] example_tree !! a
          = if decide (a ∈ ([20; 1; 21; 2; 3] : list addr)) then None else example_tree !! a)
  ∧ (∀ a child f, a ∈ ([20; 1; 21; 2; 3] : list addr) →
       RS_QueryNodeFree (S f) (drop_blocks [20; 1; 21; 2; 3] example_tree) a = Undefined
       ∧ RS_QueryNodeType (drop_blocks [20; 1; 21; 2; 3] example_tree) a = Undefined
       ∧ RS_QueryNodeGetFieldMask (drop_blocks [20; 1; 21; 2; 3] example_tree) a
         = Undefined
       ∧ RS_UnionNodeAddChild (drop_blocks [20; 1; 21; 2; 3] example_tree) a child
         = Undefined
       ∧ RS_IntersectNodeAddChild (drop_blocks [20; 1; 21; 2; 3] example_tree) a child
         = Undefined
       ∧ RS_TagNodeAddChild (drop_blocks [20; 1; 21; 2; 3] example_tree) a child
         = Undefined).
Proof.
  split; [reflexivity|]. split; [compute_done|].
  apply (RS_QueryNodeFree_leaves_dangling_pointers 2 example_tree 3 [20; 1; 21; 2; 3]);
    [reflexivity|compute_done].
Defined.

(** The token at address 1, added twice to the empty Union at address 7. *)
Lemma child_added_twice_is_freed_twice_witness :
  example_tree !! 7 = Some (BNode (example_container (un (mkUnion [] 0))))
  ∧ footprint 1 example_tree 1 = Some [20; 1]
  ∧ NoDup ([20; 1] : list addr)
  ∧ (7 ∉ ([20; 1] : list addr))
  ∧ ∃ h2,
      (h1 ← RS_UnionNodeAddChild example_tree 7 1; RS_UnionNodeAddChild h1 7 1) = Ok h2
      ∧ RS_UnionNodeGetNumChildren h2 7 = Ok 2%nat
      ∧ RS_QueryNodeFree 2 h2 7 = Undefined.
Proof.
  split; [reflexivity|]. split; [reflexivity|]. split; [compute_done|].
  split; [compute_done|].
  apply (child_added_twice_is_freed_twice 1 example_tree 7 1
           (example_container (un (mkUnion [] 0))) [20; 1]);
    [reflexivity|reflexivity|reflexivity|compute_done|compute_done].
Defined.

(** ** The field mask as an [int] *)

(** The conversion keeps the low 32 bits. *)
Lemma to_int_range (m : N) : (- 2 ^ 31 ≤ to_int m < 2 ^ 31)%Z.
Proof.
  unfold to_int. pose proof (Z.mod_pos_bound (Z.of_N m) (2 ^ 32) eq_refl) as Hr.
  destruct (Z.ltb_spec (Z.of_N m mod 2 ^ 32) (2 ^ 31)); lia.
Qed.

Lemma to_int_mod (m : N) : (to_int m mod 2 ^ 32 = Z.of_N m mod 2 ^ 32)%Z.
Proof.
  unfold to_int. pose proof (Z.mod_pos_bound (Z.of_N m) (2 ^ 32) eq_refl) as Hr.
  destruct (Z.ltb_spec (Z.of_N m mod 2 ^ 32) (2 ^ 31)).
  - by rewrite Z.mod_mod.
  - replace (Z.of_N m mod 2 ^ 32 - 2 ^ 32)%Z
      with (Z.of_N m mod 2 ^ 32 + (-1) * 2 ^ 32)%Z by lia.
    by rewrite Z.mod_add, Z.mod_mod.
Qed.

Lemma to_int_testbit (m : N) (i : Z) :
  (0 ≤ i < 32)%Z → Z.testbit (to_int m) i = N.testbit m (Z.to_N i).
Proof.
  intros Hi.
  rewrite <- (Z.mod_pow2_bits_low (to_int m) 32 i) by lia.
  rewrite to_int_mod, Z.mod_pow2_bits_low by lia.
  rewrite <- (Z2N.id i) at 1 by lia. apply Z.testbit_of_N.
Qed.

Lemma to_int_negative (m : N) : N.testbit m 31 = true ↔ (to_int m < 0)%Z.
Proof.
  change (N.testbit m 31) with (N.testbit m (Z.to_N 31)).
  rewrite <- (Z.testbit_of_N' m 31) by lia.
  rewrite <- (Z.mod_pow2_bits_low (Z.of_N m) 32 31) by lia.
  unfold to_int. pose proof (Z.mod_pos_bound (Z.of_N m) (2 ^ 32) eq_refl) as Hr.
  set (r := (Z.of_N m mod 2 ^ 32)%Z) in *.
  rewrite Z.testbit_true by lia.
  destruct (Z.ltb_spec r (2 ^ 31)) as [Hlt|Hge].
  - rewrite Z.div_small by lia. split; [done|lia].
  - assert (Hq : (r / 2 ^ 31 = 1)%Z).
    { apply Z.le_antisymm.
      - apply Z.lt_succ_r. apply Z.div_lt_upper_bound; lia.
      - apply Z.div_le_lower_bound; lia. }
    rewrite Hq. split; [lia|done].
Qed.

(** X12: [RS_QueryNodeGetFieldMask] returns the mask as an [int], so only
    the low 32 bits of it: the result is between -2^31 and 2^31 - 1, its
    bits 0 to 31 are those of the mask, and it is negative exactly when bit
    31 of the mask is set.  A mask whose bits are all at positions 32 and
    above, as that of a node scoped to the field of index 32, is reported
    as 0. *)
Theorem RS_QueryNodeGetFieldMask_low_32_bits (h : heap) (qn : addr) (n : QueryNode) :
  h !! qn = Some (BNode n) →
  ∃ v,
    RS_QueryNodeGetFieldMask h qn = Ok v
    ∧ (- 2 ^ 31 ≤ v < 2 ^ 31)%Z
    ∧ (∀ i, (0 ≤ i < 32)%Z → Z.testbit v i = N.testbit (fieldMask (opts n)) (Z.to_N i))
    ∧ (fieldMask (opts n) mod 2 ^ 32 = 0 → v = 0%Z)
    ∧ (N.testbit (fieldMask (opts n)) 31 = true ↔ (v < 0)%Z).
Proof.
  intros Hn. exists (to_int (fieldMask (opts n))).
  unfold RS_QueryNodeGetFieldMask. rewrite (load_node_live _ _ _ Hn), bind_Ok.
  split; [done|]. split; [apply to_int_range|]. split; [apply to_int_testbit|].
  split; [|apply to_int_negative].
  intros Hz. unfold to_int.
  assert (Hm : (Z.of_N (fieldMask (opts n)) mod 2 ^ 32 = 0)%Z).
  { change (2 ^ 32)%Z with (Z.of_N (2 ^ 32)). rewrite <- N2Z.inj_mod. by rewrite Hz. }
  by rewrite Hm.
Qed.

(** The token at address 1 of the example heap, with the all-fields mask
    on 64 bits, which reads as -1. *)
Lemma RS_QueryNodeGetFieldMask_low_32_bits_witness :
  example_tree !! 1 = Some (BNode (example_token 20 5))
  ∧ RS_QueryNodeGetFieldMask example_tree 1 = Ok (-1)%Z
  ∧ ∃ v,
      RS_QueryNodeGetFieldMask example_tree 1 = Ok v
      ∧ (- 2 ^ 31 ≤ v < 2 ^ 31)%Z
      ∧ (∀ i, (0 ≤ i < 32)%Z →
           Z.testbit v i = N.testbit (fieldMask (opts (example_token 20 5))) (Z.to_N i))
      ∧ (fieldMask (opts (example_token 20 5)) mod 2 ^ 32 = 0 → v = 0%Z)
      ∧ (N.testbit (fieldMask (opts (example_token 20 5))) 31 = true ↔ (v < 0)%Z).
Proof.
  split; [reflexivity|]. split; [reflexivity|].
  apply (RS_QueryNodeGetFieldMask_low_32_bits example_tree 1 (example_token 20 5)).
  reflexivity.
Defined.

(** ** Registering a field *)

(** Flags under a bitwise or. *)
Lemma has_flag_lor_other (x f d : Z) :
  Z.land f d = 0%Z → has_flag (Z.lor x f) d = has_flag x d.
Proof.
  intros Hf. unfold has_flag. by rewrite Z.land_lor_distr_l, Hf, Z.lor_0_r.
Qed.

Lemma has_flag_lor_l (x y d : Z) :
  has_flag x d = true → has_flag (Z.lor x y) d = true.
Proof.
  unfold has_flag. rewrite !bool_decide_eq_true, Z.land_lor_distr_l.
  intros Hx Hz. apply Z.lor_eq_0_iff in Hz as [? _]. done.
Qed.

Lemma has_flag_lor_self (x d : Z) : d ≠ 0%Z → has_flag (Z.lor x d) d = true.
Proof.
  intros Hd. unfold has_flag. rewrite bool_decide_eq_true, Z.land_lor_distr_l.
  rewrite Z.land_diag. intros Hz. apply Z.lor_eq_0_iff in Hz as [_ ?]. done.
Qed.

Section FieldFacts.

Context {api : FieldApi}.

(** What the second part of [RS_CreateField] leaves in the field. *)
Lemma RS_CreateField_rest_spec (s : Schema) (flags : Z) (fs : RSField) (k : Z)
    (types options : Z) :
  ∃ s' flags' fs',
    RS_CreateField_rest s flags fs k types options = (s', flags', fs')
    ∧ fld_name fs' = fld_name fs
    ∧ fld_ftId fs' = fld_ftId fs
    ∧ fld_ftWeight fs' = fld_ftWeight fs
    ∧ fld_tagSep fs' = fld_tagSep fs
    ∧ fld_types fs' =
        Z.lor (Z.lor (Z.lor (fld_types fs)
          (if has_flag types RSFLDTYPE_NUMERIC then INDEXFLD_T_NUMERIC else 0))
          (if has_flag types RSFLDTYPE_GEO then INDEXFLD_T_GEO else 0))
          (if has_flag types RSFLDTYPE_TAG then INDEXFLD_T_TAG else 0)
    ∧ (FieldSpec_Dynamic ≠ 0%Z →
       Z.land FieldSpec_NotIndexable FieldSpec_Dynamic = 0%Z →
       Z.land FieldSpec_Sortable FieldSpec_Dynamic = 0%Z →
       Z.land FieldSpec_NoStemming FieldSpec_Dynamic = 0%Z →
       Z.land FieldSpec_Phonetics FieldSpec_Dynamic = 0%Z →
       has_flag (fld_options fs) FieldSpec_Dynamic = false →
       has_flag (fld_options fs') FieldSpec_Dynamic =
         bool_decide (k + (if has_flag types RSFLDTYPE_NUMERIC then 1 else 0)
                        + (if has_flag types RSFLDTYPE_GEO then 1 else 0)
                        + (if has_flag types RSFLDTYPE_TAG then 1 else 0) > 1)%Z)
    ∧ (flags' = if has_flag options RSFLDOPT_TXTPHONETIC
                then Z.lor flags Index_HasPhonetic else flags).
Proof.
  unfold RS_CreateField_rest.
  destruct (has_flag types RSFLDTYPE_NUMERIC), (has_flag types RSFLDTYPE_GEO),
    (has_flag types RSFLDTYPE_TAG);
  cbn [fld_types fld_options set_types];
  match goal with |- context [bool_decide (?e > 1)%Z] =>
    destruct (bool_decide (e > 1)%Z) eqn:Hdyn end;
  destruct (has_flag options RSFLDOPT_NOINDEX), (has_flag options RSFLDOPT_SORTABLE),
    (has_flag options RSFLDOPT_TXTNOSTEM), (has_flag options RSFLDOPT_TXTPHONETIC);
  cbn [fld_types fld_options fld_name set_types set_options set_sortIdx];
  try match goal with |- context [RSSortingTable_Add ?a ?b ?c] =>
    destruct (RSSortingTable_Add a b c) as [s1 idx] end;
  eexists _, _, _; (split; [reflexivity|]);
  cbn [fld_types fld_options fld_name fld_ftId fld_ftWeight fld_tagSep
       set_types set_options set_sortIdx];
  rewrite ?Z.lor_0_r, ?Z.add_0_r;
  (repeat (split; [reflexivity|])); (split; [|reflexivity]);
  intros Hd H1 H2 H3 H4 H0;
  rewrite ?has_flag_lor_other by done;
  rewrite ?has_flag_lor_self by done;
  rewrite ?H0; try (rewrite <- Hdyn; f_equal; lia); try (rewrite <- Hdyn; reflexivity).
Qed.


(** X13: the two ways [RS_CreateField] does not return a field.  With no
    type requested it fails its assertion before it touches the schema.
    With a full-text field requested and no text id left it returns NULL,
    but only after [IndexSpec_CreateField] has added the field: the schema
    it leaves holds a field that no caller was given. *)
Theorem RS_CreateField_failures (s : Schema) (flags : Z) (name : string)
    (types options : Z) :
  RS_CreateField s flags name 0 options = AssertFail
  ∧ (types ≠ 0%Z →
     has_flag types RSFLDTYPE_FULLTEXT = true →
     (IndexSpec_CreateTextId (IndexSpec_CreateField s name).1 < 0)%Z →
     RS_CreateField s flags name types options
     = Ok ((IndexSpec_CreateField s name).1, flags, None)).
Proof.
  split; [reflexivity|]. intros Hty Hft Hid. unfold RS_CreateField.
  rewrite bool_decide_true by done. cbn [assert]. rewrite bind_Ok.
  destruct (IndexSpec_CreateField s name) as [s1 fs0]. cbn [fst] in Hid.
  rewrite Hft. by rewrite bool_decide_true by done.
Qed.

(** X14: the field [RS_CreateField] returns.  When some type is requested
    and a text id is available if needed, the call returns the field
    [IndexSpec_CreateField] made, under the same name, with the type bit of
    each requested type added to its types and, for a text field, the new
    text id.  When the dynamic flag is a bit of its own, the field is
    marked dynamic exactly when more than one type was requested.  The
    index gets the phonetic flag exactly when the phonetic option is
    requested. *)
Theorem RS_CreateField_types_and_dynamic (s : Schema) (flags : Z) (name : string)
    (types options : Z) :
  types ≠ 0%Z →
  (has_flag types RSFLDTYPE_FULLTEXT = true →
   (0 ≤ IndexSpec_CreateTextId (IndexSpec_CreateField s name).1)%Z) →
  FieldSpec_Dynamic ≠ 0%Z →
  Z.land FieldSpec_NotIndexable FieldSpec_Dynamic = 0%Z →
  Z.land FieldSpec_Sortable FieldSpec_Dynamic = 0%Z →
  Z.land FieldSpec_NoStemming FieldSpec_Dynamic = 0%Z →
  Z.land FieldSpec_Phonetics FieldSpec_Dynamic = 0%Z →
  has_flag (fld_options (IndexSpec_CreateField s name).2) FieldSpec_Dynamic = false →
  ∃ s' flags' fs,
    RS_CreateField s flags name types options = Ok (s', flags', Some fs)
    ∧ fld_name fs = fld_name (IndexSpec_CreateField s name).2
    ∧ fld_types fs
      = Z.lor (fld_types (IndexSpec_CreateField s name).2) (requested_bits types)
    ∧ has_flag (fld_options fs) FieldSpec_Dynamic = bool_decide (requested types > 1)%Z
    ∧ (has_flag types RSFLDTYPE_FULLTEXT = true →
       fld_ftId fs = IndexSpec_CreateTextId (IndexSpec_CreateField s name).1)
    ∧ flags' = (if has_flag options RSFLDOPT_TXTPHONETIC
                then Z.lor flags Index_HasPhonetic else flags).
Proof.
  intros Hty Hid Hd H1 H2 H3 H4 H0. unfold RS_CreateField, requested, requested_bits.
  rewrite bool_decide_true by done. cbn [assert]. rewrite bind_Ok.
  destruct (IndexSpec_CreateField s name) as [s1 fs0]. cbn [fst snd] in *.
  destruct (has_flag types RSFLDTYPE_FULLTEXT) eqn:Hft.
  - specialize (Hid eq_refl). rewrite bool_decide_false by lia.
    destruct (RS_CreateField_rest_spec s1 flags
                (set_types (set_ftId fs0 (IndexSpec_CreateTextId s1))
                   (Z.lor (fld_types (set_ftId fs0 (IndexSpec_CreateTextId s1)))
                      INDEXFLD_T_FULLTEXT))
                (0 + 1)%Z types options)
      as (s' & flags' & fs & -> & Hname & Hft' & _ & _ & Htypes & Hdyn & Hflags).
    exists s', flags', fs. split; [done|]. cbn in Hname, Hft', Htypes, Hdyn.
    split; [done|]. split.
    { rewrite Htypes. by rewrite !Z.lor_assoc. }
    split; [|by split].
    rewrite Hdyn by done. f_equal.
  - destruct (RS_CreateField_rest_spec s1 flags fs0 0%Z types options)
      as (s' & flags' & fs & -> & Hname & _ & _ & _ & Htypes & Hdyn & Hflags).
    exists s', flags', fs. split; [done|].
    split; [done|]. split.
    { rewrite Htypes. by rewrite Z.lor_0_l, !Z.lor_assoc. }
    split; [|by split].
    rewrite Hdyn by done. f_equal.
Qed.

(** X15: the setters accept the fields made for them.  When [FIELD_IS]
    tests the type bits of a field, [RS_TextFieldSetWeight] succeeds on a
    field [RS_CreateField] returned for a request that named the full-text
    type, and [RS_TagSetSeparator] on one whose request named the tag type;
    each writes its one member and nothing else.  On a field without the
    type bit, the setter fails its assertion. *)
Theorem created_field_accepts_its_setters (s : Schema) (flags : Z) (name : string)
    (types options : Z) (s' : Schema) (flags' : Z) (fs : RSField) (w : float) (sep : Z) :
  (∀ f t, FIELD_IS f t = has_flag (fld_types f) t) →
  INDEXFLD_T_FULLTEXT ≠ 0%Z →
  INDEXFLD_T_TAG ≠ 0%Z →
  RS_CreateField s flags name types options = Ok (s', flags', Some fs) →
  (has_flag types RSFLDTYPE_FULLTEXT = true →
   RS_TextFieldSetWeight fs w = Ok (set_ftWeight fs w))
  ∧ (has_flag types RSFLDTYPE_TAG = true →
     RS_TagSetSeparator fs sep = Ok (set_tagSep fs sep))
  ∧ (has_flag (fld_types fs) INDEXFLD_T_FULLTEXT = false →
     RS_TextFieldSetWeight fs w = AssertFail)
  ∧ (has_flag (fld_types fs) INDEXFLD_T_TAG = false →
     RS_TagSetSeparator fs sep = AssertFail).
Proof.
  intros His Hft Htag Hrun.
  assert (Htypes : ∃ fs1, fld_types fs =
            Z.lor (Z.lor (Z.lor (fld_types fs1)
              (if has_flag types RSFLDTYPE_NUMERIC then INDEXFLD_T_NUMERIC else 0))
              (if has_flag types RSFLDTYPE_GEO then INDEXFLD_T_GEO else 0))
              (if has_flag types RSFLDTYPE_TAG then INDEXFLD_T_TAG else 0)
            ∧ (has_flag types RSFLDTYPE_FULLTEXT = true →
               has_flag (fld_types fs1) INDEXFLD_T_FULLTEXT = true)).
  { revert Hrun. unfold RS_CreateField.
    destruct (bool_decide (types ≠ 0%Z)); [|done]. cbn [assert]. rewrite bind_Ok.
    destruct (IndexSpec_CreateField s name) as [s1 fs0].
    destruct (has_flag types RSFLDTYPE_FULLTEXT) eqn:Hreq.
    - destruct (bool_decide (IndexSpec_CreateTextId s1 < 0)%Z); [done|].
      match goal with |- context [RS_CreateField_rest ?a ?b ?c ?d ?e ?f] =>
        destruct (RS_CreateField_rest_spec a b c d e f)
          as (s2 & fl2 & fs2 & -> & _ & _ & _ & _ & Ht & _) end.
      intros ?; simplify_eq. eexists. split; [exact Ht|].
      intros _. cbn. by apply has_flag_lor_self.
    - match goal with |- context [RS_CreateField_rest ?a ?b ?c ?d ?e ?f] =>
        destruct (RS_CreateField_rest_spec a b c d e f)
          as (s2 & fl2 & fs2 & -> & _ & _ & _ & _ & Ht & _) end.
      intros ?; simplify_eq. eexists. split; [exact Ht|]. done. }
  destruct Htypes as (fs1 & Htypes & Hfull).
  unfold RS_TextFieldSetWeight, RS_TagSetSeparator. rewrite !His.
  repeat split.
  - intros Hreq. rewrite Htypes.
    assert (has_flag (fld_types fs) INDEXFLD_T_FULLTEXT = true) as Hf.
    { rewrite Htypes. do 3 apply has_flag_lor_l. by apply Hfull. }
    rewrite <- Htypes. by rewrite Hf.
  - intros Hreq. rewrite Htypes, Hreq. by rewrite has_flag_lor_self.
  - by intros ->.
  - by intros ->.
Qed.

End FieldFacts.

(** A schema with three fields has no text id left. *)
Lemma RS_CreateField_failures_witness :
  (1 ≠ 0)%Z
  ∧ has_flag 1 (@RSFLDTYPE_FULLTEXT example_field_api) = true
  ∧ (@IndexSpec_CreateTextId example_field_api
       (@IndexSpec_CreateField example_field_api ["a"; "b"; "c"] "title").1 < 0)%Z
  ∧ RS_CreateField (api := example_field_api) ["a"; "b"; "c"] 0 "title" 0 0 = AssertFail
  ∧ RS_CreateField (api := example_field_api) ["a"; "b"; "c"] 0 "title" 1 0
    = Ok (["a"; "b"; "c"; "title"], 0%Z, None).
Proof.
  split; [done|]. split; [reflexivity|]. split; [reflexivity|].
  destruct (RS_CreateField_failures (api := example_field_api) ["a"; "b"; "c"] 0 "title" 1 0)
    as [Hassert Hnull].
  split; [exact Hassert|]. apply Hnull; [done|reflexivity|reflexivity].
Defined.

(** A text and tag field with the phonetic option, in an empty schema. *)
Lemma RS_CreateField_types_and_dynamic_witness :
  (9 ≠ 0)%Z
  ∧ (@FieldSpec_Dynamic example_field_api ≠ 0)%Z
  ∧ ∃ s' flags' fs,
      RS_CreateField (api := example_field_api) [] 0 "title" 9 8 = Ok (s', flags', Some fs)
      ∧ fld_name fs = "title"
      ∧ fld_types fs = Z.lor 0 (requested_bits (api := example_field_api) 9)
      ∧ has_flag (fld_options fs) 16
        = bool_decide (requested (api := example_field_api) 9 > 1)%Z
      ∧ (has_flag 9 1 = true → fld_ftId fs = 0%Z)
      ∧ flags' = 1024%Z.
Proof.
  split; [done|]. split; [done|].
  apply (RS_CreateField_types_and_dynamic (api := example_field_api) [] 0 "title" 9 8);
    try reflexivity; try done.
Defined.

(** The same request without the option: the field takes a weight and a
    separator. *)
Lemma created_field_accepts_its_setters_witness :
  RS_CreateField (api := example_field_api) [] 0 "title" 9 0
  = Ok (["title"], 0%Z, Some example_field)
  ∧ RS_TextFieldSetWeight (api := example_field_api) example_field 2%float
    = Ok (set_ftWeight example_field 2%float)
  ∧ RS_TagSetSeparator (api := example_field_api) example_field 59
    = Ok (set_tagSep example_field 59).
Proof.
  split; [reflexivity|].
  destruct (created_field_accepts_its_setters (api := example_field_api) [] 0 "title" 9 0
              ["title"] 0 example_field 2%float 59)
    as (Hweight & Hsep & _); [done|done|done|reflexivity|].
  split; [exact (Hweight eq_refl)|exact (Hsep eq_refl)].
Defined.

(** ** Registering the API *)

Section RegistrationFacts.

Context {host : ModuleHost}.

(** The registrations run in the order of the list until one is refused:
    [k] is the number of those that succeeded. *)
Lemma register_apis_spec (names : list string) : ∀ (r : Registry) (calls : list string),
  ∃ k : nat,
    (∀ j name, (j < k)%nat → names !! j = Some name →
       (register_one (registered_state (take j names) r) name).2 = REDISMODULE_OK)
    ∧ ((k = length names
        ∧ register_apis names r calls
          = {| reg_state := registered_state names r;
               reg_calls := calls ++ ((λ n, "RediSearch_" +:+ n) <$> names);
               reg_printed := [];
               reg_status := REDISMODULE_OK |})
       ∨ (∃ name,
            names !! k = Some name
            ∧ (register_one (registered_state (take k names) r) name).2 ≠ REDISMODULE_OK
            ∧ register_apis names r calls
              = {| reg_state := registered_state (take (S k) names) r;
                   reg_calls := calls ++ ((λ n, "RediSearch_" +:+ n) <$> take (S k) names);
                   reg_printed := ["could not register RediSearch_" +:+ name +:+ CRLF];
                   reg_status := REDISMODULE_ERR |})).
Proof.
  induction names as [|name names IH]; intros r calls.
  - exists 0%nat. split; [intros; lia|]. left. split; [done|]. cbn. by rewrite app_nil_r.
  - cbn [register_apis].
    destruct (moduleRegisterApi r ("RediSearch_" +:+ name) ("RS_" +:+ name))
      as [r1 rc] eqn:Hcall.
    case_bool_decide as Hrc.
    + exists 0%nat. split; [intros; lia|]. right. exists name. split; [done|].
      cbn. unfold register_one. rewrite Hcall. cbn. split; [done|].
      by rewrite take_0.
    + destruct (IH r1 (calls ++ ["RediSearch_" +:+ name])) as (k & Hok & Hres).
      assert (Hstate : ∀ l, registered_state (name :: l) r = registered_state l r1).
      { intros l. unfold registered_state. cbn. unfold register_one at 2.
        by rewrite Hcall. }
      exists (S k). split.
      * intros [|j] nm Hj Hnm.
        -- cbn in Hnm. simplify_eq. cbn. unfold register_one. by rewrite Hcall.
        -- cbn in Hnm. cbn [take]. rewrite Hstate. apply Hok; [lia|done].
      * destruct Hres as [[-> ->]|(nm & Hnm & Hbad & ->)].
        -- left. split; [done|]. rewrite Hstate. cbn. by rewrite <- app_assoc.
        -- right. exists nm. split; [done|]. cbn [take]. rewrite !Hstate.
           split; [done|]. cbn. by rewrite <- app_assoc.
Qed.

(** X16: [RS_InitializeLibrary] registers the 35 functions of the API in
    the order of the file, each under its name prefixed by RediSearch_,
    and stops at the first one the host refuses.  With [k] registrations
    accepted, either [k] is 35, nothing is printed and the status is
    REDISMODULE_OK, or the registration of index [k] was refused: it is
    the last one attempted, the one message printed names it, the status
    is REDISMODULE_ERR, and the [k] earlier registrations stay in the
    registry. *)
Theorem RS_InitializeLibrary_stops_at_first_failure (r : Registry) :
  ∃ k : nat,
    (∀ j name, (j < k)%nat → api_names !! j = Some name →
       (register_one (registered_state (take j api_names) r) name).2 = REDISMODULE_OK)
    ∧ ((k = 35%nat
        ∧ RS_InitializeLibrary r
          = {| reg_state := registered_state api_names r;
               reg_calls := (λ n, "RediSearch_" +:+ n) <$> api_names;
               reg_printed := [];
               reg_status := REDISMODULE_OK |})
       ∨ (∃ name,
            api_names !! k = Some name
            ∧ (register_one (registered_state (take k api_names) r) name).2
              ≠ REDISMODULE_OK
            ∧ RS_InitializeLibrary r
              = {| reg_state := registered_state (take (S k) api_names) r;
                   reg_calls := (λ n, "RediSearch_" +:+ n) <$> take (S k) api_names;
                   reg_printed := ["could not register RediSearch_" +:+ name +:+ CRLF];
                   reg_status := REDISMODULE_ERR |})).
Proof.
  destruct (register_apis_spec api_names r []) as (k & Hok & Hres).
  exists k. split; [done|]. exact Hres.
Qed.

End RegistrationFacts.

(** A host that accepts every name ends with the 35 names registered; one
    that refuses RediSearch_CreateTokenNode ends with the twelve names
    before it, and the others are never attempted. *)
Example RS_InitializeLibrary_example :
  reg_status (RS_InitializeLibrary (host := example_host []) []) = 0%Z
  ∧ length (reg_state (RS_InitializeLibrary (host := example_host []) [])) = 35%nat
  ∧ RS_InitializeLibrary (host := example_host ["RediSearch_CreateTokenNode"]) []
    = {| reg_state := (λ n, "RediSearch_" +:+ n) <$> take 12 api_names;
         reg_calls := (λ n, "RediSearch_" +:+ n) <$> take 13 api_names;
         reg_printed := ["could not register RediSearch_CreateTokenNode" +:+ CRLF];
         reg_status := 1 |}.
Proof. vm_compute. repeat split. Qed.

(** ** Reading an iterator to the end *)

(** A call that returns a key has consumed at least one entry. *)
Lemma RS_ResultsIteratorNext_size (fuel : nat) : ∀ (iter : IndexIterator) (sp : IndexSpec)
    (key : option string) (iter' : IndexIterator),
  RS_ResultsIteratorNext fuel iter sp = Ok (key, iter') →
  (it_size iter' ≤ it_size iter)%nat
  ∧ (is_Some key → (it_size iter' < it_size iter)%nat).
Proof.
  induction fuel as [|fuel IH]; intros iter sp key iter' Hrun; [done|].
  cbn [RS_ResultsIteratorNext] in Hrun. unfold Read in Hrun.
  destruct (current iter) as [d|] eqn:Hcur.
  - destruct (advance_size iter) as [_ Hlt]. specialize (Hlt d Hcur). cbn [docId] in Hrun.
    destruct (DocTable_GetKey (docs sp) d) as [ky|].
    + simplify_eq. split; [lia|]. intros _. lia.
    + destruct (IH _ _ _ _ Hrun) as [Hle Hsome]. split; [lia|].
      intros Hk. specialize (Hsome Hk). lia.
  - simplify_eq. split; [lia|]. by intros [? ?].
Qed.

(** Identifiers that do not resolve give no key. *)
Lemma omap_unresolved {A B : Type} (f : A → option B) (l : list A) :
  Forall (λ x, f x = None) l → omap f l = [].
Proof. induction 1 as [|x l Hx _ IH]; [done|]. cbn. by rewrite Hx. Qed.

(** The keys a traversal collects. *)
Lemma next_keys_spec (fuel : nat) : ∀ (iter : IndexIterator) (sp : IndexSpec),
  (it_size iter < fuel)%nat →
  ∃ iter',
    next_keys fuel iter sp
    = Ok (omap (DocTable_GetKey (docs sp)) (read_sequence iter), iter')
    ∧ Read iter' = (INDEXREAD_EOF, iter').
Proof.
  induction fuel as [|fuel IH]; intros iter sp Hsize; [lia|].
  cbn [next_keys].
  destruct (RS_ResultsIteratorNext_spec (S fuel) iter sp Hsize)
    as (key & iter1 & Hrun & Hpost).
  rewrite Hrun, bind_Ok.
  destruct key as [ky|].
  - destruct Hpost as (skipped & d & Hseq & Hskip & Hd).
    destruct (RS_ResultsIteratorNext_size _ _ _ _ _ Hrun) as [_ Hlt].
    specialize (Hlt (mk_is_Some _ _ eq_refl)).
    destruct (IH iter1 sp) as (iter' & Hrest & Heof); [lia|].
    exists iter'. rewrite Hrest, bind_Ok. split; [|done].
    rewrite Hseq, omap_app, (omap_unresolved _ _ Hskip). cbn. by rewrite Hd.
  - destruct Hpost as [Hall Heof]. exists iter1. split; [|done].
    by rewrite (omap_unresolved _ _ Hall).
Qed.

(** X17: calling [RS_ResultsIteratorNext] until it returns NULL visits
    every result once.  The keys returned are, in the order of the read
    sequence of the iterator, the keys of the identifiers the document
    table resolves; the others are skipped.  The traversal ends within
    one call more than the iterator holds entries, it leaves the iterator
    at end-of-stream, and every later call returns NULL again. *)
Theorem next_keys_returns_resolved_keys_in_order (iter : IndexIterator) (sp : IndexSpec)
    (extra : nat) :
  ∃ iter',
    next_keys (S (it_size iter) + extra) iter sp
    = Ok (omap (DocTable_GetKey (docs sp)) (read_sequence iter), iter')
    ∧ Read iter' = (INDEXREAD_EOF, iter')
    ∧ RS_ResultsIteratorNext (S extra) iter' sp = Ok (None, iter').
Proof.
  destruct (next_keys_spec (S (it_size iter) + extra) iter sp) as (iter' & Hrun & Heof);
    [lia|].
  exists iter'. split; [done|]. split; [done|].
  cbn [RS_ResultsIteratorNext]. by rewrite Heof.
Qed.

(** Over the merge 1 2 3 5 8 of the example, the traversal returns the
    keys of 1 and 3. *)
Example next_keys_example :
  (r ← next_keys 6 (UnionIterator [PostingIterator [1; 3; 5]; PostingIterator [2; 3; 8]])
         example_schema;
   Ok r.1)
  = Ok ["doc:a"; "doc:c"].
Proof. vm_compute. reflexivity. Qed.

(** Lookups in a table an identifier was deleted from. *)
Lemma omap_delete_key (m : gmap t_docId string) (id : t_docId) (l : list t_docId) :
  omap (λ x, delete id m !! x) l = omap (λ x, m !! x) (filter (λ x, x ≠ id) l).
Proof.
  induction l as [|x l IH]; [done|].
  destruct (decide (x = id)) as [->|Hne].
  - rewrite filter_cons_False by (by intros []). cbn. by rewrite lookup_delete_eq.
  - rewrite filter_cons_True by done. cbn. rewrite lookup_delete_ne by done.
    by rewrite IH.
Qed.

(** X18: a dropped document is no longer returned.  After
    [RS_DropDocument] has returned 1 for a key, a traversal of any
    iterator with [RS_ResultsIteratorNext] over the index it left returns
    the keys it would have returned before, without that of the dropped
    document: its identifier is still read from the iterator, and is
    skipped. *)
Theorem dropped_document_is_skipped (h : heap) (sp : IndexSpec) (stats : IndexStats)
    (key : string) (id : t_docId) (iter : IndexIterator) (extra : nat) :
  dt_ids (docs sp) !! key = Some id →
  id ≠ 0 →
  ∃ h' sp' stats' iter',
    RS_DropDocument h sp stats key = Ok (h', sp', stats', 1%Z)
    ∧ next_keys (S (it_size iter) + extra) iter sp'
      = Ok (omap (DocTable_GetKey (docs sp)) (filter (λ x, x ≠ id) (read_sequence iter)),
            iter').
Proof.
  intros Hkey Hid.
  destruct (RS_DropDocument_run h sp stats key) as (p & _ & _ & _ & Hrun).
  rewrite (Hrun id Hkey Hid).
  set (sp' := {| fields := fields sp;
                 docs := {| dt_ids := delete key (dt_ids (docs sp));
                            dt_keys := delete id (dt_keys (docs sp)) |} |}).
  destruct (next_keys_spec (S (it_size iter) + extra) iter sp') as (iter' & Hnext & _);
    [lia|].
  eexists _, sp', _, iter'. split; [reflexivity|].
  rewrite Hnext. unfold DocTable_GetKey. cbn [sp' docs dt_keys].
  by rewrite omap_delete_key.
Qed.

(** Dropping "doc:a" from the example index: over the merge 1 2 3 5 8 the
    traversal then returns the key of 3 alone. *)
Lemma dropped_document_is_skipped_witness :
  dt_ids (docs example_schema) !! "doc:a" = Some 1
  ∧ omap (DocTable_GetKey (docs example_schema))
      (filter (λ x, x ≠ 1)
         (read_sequence
            (UnionIterator [PostingIterator [1; 3; 5]; PostingIterator [2; 3; 8]])))
    = ["doc:c"]
  ∧ ∃ h' sp' stats' iter',
      RS_DropDocument example_strings example_schema (mkIndexStats 2) "doc:a"
      = Ok (h', sp', stats', 1%Z)
      ∧ next_keys
          (S (it_size (UnionIterator [PostingIterator [1; 3; 5]; PostingIterator [2; 3; 8]]))
           + 0)
          (UnionIterator [PostingIterator [1; 3; 5]; PostingIterator [2; 3; 8]]) sp'
        = Ok (omap (DocTable_GetKey (docs example_schema))
                (filter (λ x, x ≠ 1)
                   (read_sequence
                      (UnionIterator
                         [PostingIterator [1; 3; 5]; PostingIterator [2; 3; 8]]))),
              iter').
Proof.
  split; [reflexivity|]. split; [vm_compute; reflexivity|].
  apply (dropped_document_is_skipped example_strings example_schema (mkIndexStats 2)
           "doc:a" 1
           (UnionIterator [PostingIterator [1; 3; 5]; PostingIterator [2; 3; 8]]) 0);
    [reflexivity|done].
Defined.
